(** * Angular-IndexedDB-ORM: registry, schema versioning and query engine

    A shallow embedding of [src/core/registry.ts], [src/core/schema.ts] and
    [src/clients/prisma.service.ts], with the properties of the
    specification stated over it. *)

From Stdlib Require Import ZArith Lia Bool Ascii String DecimalString.
From stdpp Require Import base option list gmap strings sorting.

Set Warnings "-register-all".
Local Open Scope Z_scope.

(** ** JavaScript values

    Records, where-conditions and filters are plain JavaScript data.  A
    finite number is represented by an integer; [NaN] is kept apart because
    [===] and the relational operators treat it specially.  Dates, arrays and
    objects are reference values: [===] compares their identity [ref], not
    their contents.  The property list of an object is in the order in which
    the engine enumerates its own enumerable string keys.  A string is the
    sequence of its code units, each in the range of [ascii]. *)

Inductive number : Type :=
  | NaN
  | Fin (z : Z).

Inductive jsvalue : Type :=
  | VUndefined
  | VNull
  | VBool (b : bool)
  | VNum (n : number)
  | VStr (s : string)
  | VDate (ref : nat) (time : number)
  | VArr (ref : nat) (items : list jsvalue)
  | VObj (ref : nat) (props : list (string * jsvalue)).

Definition number_eqb (a b : number) : bool :=
  match a, b with
  | Fin x, Fin y => Z.eqb x y
  | _, _ => false
  end.

(** [a === b] *)
Definition strict_eq (a b : jsvalue) : bool :=
  match a, b with
  | VUndefined, VUndefined => true
  | VNull, VNull => true
  | VBool x, VBool y => Bool.eqb x y
  | VNum x, VNum y => number_eqb x y
  | VStr x, VStr y => String.eqb x y
  | VDate r _, VDate r' _ => Nat.eqb r r'
  | VArr r _, VArr r' _ => Nat.eqb r r'
  | VObj r _, VObj r' _ => Nat.eqb r r'
  | _, _ => false
  end.

(** SameValueZero, the equality of [Array.prototype.includes]: as [===],
    but [NaN] equals itself. *)
Definition same_value_zero (a b : jsvalue) : bool :=
  match a, b with
  | VNum NaN, VNum NaN => true
  | _, _ => strict_eq a b
  end.

(** [arr.includes(x)] *)
Definition includes (items : list jsvalue) (x : jsvalue) : bool :=
  existsb (fun y => same_value_zero y x) items.

(** ToBoolean, as used by [!where], [if (!dir)], [andNode && ...]. *)
Definition truthy (v : jsvalue) : bool :=
  match v with
  | VUndefined | VNull => false
  | VBool b => b
  | VNum NaN => false
  | VNum (Fin z) => negb (Z.eqb z 0)
  | VStr s => negb (String.eqb s EmptyString)
  | VDate _ _ | VArr _ _ | VObj _ _ => true
  end.

Definition isArray (v : jsvalue) : bool :=
  match v with VArr _ _ => true | _ => false end.

(** The decimal spelling of an array index, as [Object.keys] gives it. *)
Definition index_key (i : nat) : string :=
  DecimalString.NilZero.string_of_uint (Nat.to_uint i).

Fixpoint lookup_prop (k : string) (props : list (string * jsvalue)) : jsvalue :=
  match props with
  | [] => VUndefined
  | (k', v) :: rest => if String.eqb k' k then v else lookup_prop k rest
  end.

Fixpoint lookup_index (k : string) (i : nat) (items : list jsvalue) : jsvalue :=
  match items with
  | [] => VUndefined
  | x :: rest => if String.eqb (index_key i) k then x else lookup_index k (S i) rest
  end.

Fixpoint chars (s : string) : list jsvalue :=
  match s with
  | EmptyString => []
  | String c rest => VStr (String c EmptyString) :: chars rest
  end.

(** [v[k]] on own properties.  Members inherited from the built-in
    prototypes (methods, [constructor]) are functions and lie outside the
    data model; the code never reads a property of [null] or [undefined]. *)
Definition get_prop (v : jsvalue) (k : string) : jsvalue :=
  match v with
  | VObj _ props => lookup_prop k props
  | VArr _ items =>
      if String.eqb k "length" then VNum (Fin (Z.of_nat (length items)))
      else lookup_index k 0 items
  | VStr s =>
      if String.eqb k "length" then VNum (Fin (Z.of_nat (String.length s)))
      else lookup_index k 0 (chars s)
  | _ => VUndefined
  end.

(** [Object.keys(v)] *)
Definition Object_keys (v : jsvalue) : list string :=
  match v with
  | VObj _ props => map fst props
  | VArr _ items => map index_key (seq 0 (length items))
  | VStr s => map index_key (seq 0 (String.length s))
  | _ => []
  end.

(** ** Insertion-ordered maps with string keys ([Map], object literals) *)

Definition Map_get {V : Type} (m : list (string * V)) (k : string) : option V :=
  match List.find (fun e => String.eqb (fst e) k) m with
  | Some e => Some (snd e)
  | None => None
  end.

(** [m.set(k, v)]: an existing key keeps its place, a new key goes last. *)
Fixpoint Map_set {V : Type} (m : list (string * V)) (k : string) (v : V)
    : list (string * V) :=
  match m with
  | [] => [(k, v)]
  | (k', v') :: rest =>
      if String.eqb k' k then (k', v) :: rest else (k', v') :: Map_set rest k v
  end.

Definition Map_delete {V : Type} (m : list (string * V)) (k : string)
    : list (string * V) :=
  List.filter (fun e => negb (String.eqb (fst e) k)) m.

(** ** String helpers of the host language *)

(** The double-quote character, as a string. *)
Definition dquote : string := String (ascii_of_nat 34) EmptyString.

(** [s.startsWith(p)] *)
Fixpoint startsWith (s p : string) : bool :=
  match p, s with
  | EmptyString, _ => true
  | String c p', String d s' => Ascii.eqb c d && startsWith s' p'
  | String _ _, EmptyString => false
  end.

(** [s.includes(p)] on strings *)
Fixpoint str_includes (s p : string) : bool :=
  startsWith s p ||
  match s with
  | EmptyString => false
  | String _ s' => str_includes s' p
  end.

(** [s.endsWith(p)] *)
Fixpoint endsWith (s p : string) : bool :=
  String.eqb s p ||
  match s with
  | EmptyString => false
  | String _ s' => endsWith s' p
  end.

(** ** The query engine, [src/clients/prisma.service.ts] *)

Inductive direction : Type := asc | desc.

(** An [OrderBy<T>] object: field name to direction; a key may be present
    with the value [undefined]. *)
Definition OrderBy : Type := list (string * option direction).

(** The [orderBy] argument: absent, one specification, or a list. *)
Inductive OrderByArg : Type :=
  | OrderByAbsent
  | OrderByOne (ob : OrderBy)
  | OrderByList (obs : list OrderBy).

(** [table.schema.primKey.keyPath] *)
Inductive KeyPath : Type :=
  | KeyPathNone
  | KeyPathSimple (k : string)
  | KeyPathCompound (ks : list string).

Definition logical : list string := ["AND"; "OR"; "NOT"].

Definition str_in (l : list string) (k : string) : bool :=
  existsb (fun x => String.eqb x k) l.

Definition isObject (value : jsvalue) : bool :=
  match value with
  | VObj _ _ | VDate _ _ => true
  | _ => false
  end.

(** [Object.fromEntries(entries)]; only the length and the membership of its
    keys are read, so index-like keys are not moved to the front. *)
Definition Object_fromEntries (entries : list (string * jsvalue)) : jsvalue :=
  VObj 0 (fold_left (fun acc e => Map_set acc (fst e) (snd e)) entries []).

Definition hasOnlyKeys (obj : jsvalue) (keys : list string) : bool :=
  let objKeys := Object_keys obj in
  if negb (Nat.eqb (length objKeys) (length keys)) then false
  else forallb (fun k => str_in objKeys k) keys.

Definition valueForComparison (v : jsvalue) : jsvalue :=
  match v with
  | VDate _ t => VNum t
  | _ => v
  end.

Section QueryEngine.

(** The abstract relational comparison of the host language: [Some true]
    when the left operand is less, [Some false] when it is not, [None]
    when the operands are not comparable ([NaN] is involved).  The four
    relational operators are derived from it as ECMAScript does. *)
Variable IsLessThan : jsvalue -> jsvalue -> option bool.

Definition js_lt (a b : jsvalue) : bool :=
  match IsLessThan a b with Some true => true | _ => false end.
Definition js_gt (a b : jsvalue) : bool :=
  match IsLessThan b a with Some true => true | _ => false end.
Definition js_le (a b : jsvalue) : bool :=
  match IsLessThan b a with Some false => true | _ => false end.
Definition js_ge (a b : jsvalue) : bool :=
  match IsLessThan a b with Some false => true | _ => false end.

Definition compareUnknown (a b : jsvalue) (dir : direction) : Z :=
  let direction := match dir with desc => -1 | asc => 1 end in
  if strict_eq a b then 0
  else if strict_eq a VUndefined then -1 * direction
  else if strict_eq b VUndefined then 1 * direction
  else if strict_eq a VNull then -1 * direction
  else if strict_eq b VNull then 1 * direction
  else
    let av := valueForComparison a in
    let bv := valueForComparison b in
    if js_gt av bv then 1 * direction
    else if js_lt av bv then -1 * direction
    else 0.

Definition normalizeOrderBy (orderBy : OrderByArg) : list (string * direction) :=
  match orderBy with
  | OrderByAbsent => []
  | OrderByOne ob =>
      flat_map (fun e => match snd e with Some dir => [(fst e, dir)] | None => [] end) ob
  | OrderByList obs =>
      flat_map
        (fun ob =>
           flat_map (fun e => match snd e with Some dir => [(fst e, dir)] | None => [] end) ob)
        obs
  end.

(** The loop of the comparator over the normalised parts. *)
Fixpoint compareParts (parts : list (string * direction)) (a b : jsvalue) : Z :=
  match parts with
  | [] => 0
  | (key, dir) :: rest =>
      let av := get_prop a key in
      let bv := get_prop b key in
      let cmp := compareUnknown av bv dir in
      if negb (Z.eqb cmp 0) then cmp else compareParts rest a b
  end.

Definition toComparator (orderBy : OrderByArg) : option (jsvalue -> jsvalue -> Z) :=
  let parts := normalizeOrderBy orderBy in
  match parts with
  | [] => None
  | _ => Some (compareParts parts)
  end.

(** One [case] of the operator switch: [true] when the loop goes on,
    [false] when it returns [false].  [self] is the recursive call. *)
Definition evalOperator (self : jsvalue -> bool) (value : jsvalue)
    (opKey : string) (opVal : jsvalue) : bool :=
  if String.eqb opKey "equals" then strict_eq value opVal
  else if String.eqb opKey "in" then
    match opVal with
    | VArr _ items => includes items value
    | _ => false
    end
  else if String.eqb opKey "notIn" then
    match opVal with
    | VArr _ items => negb (includes items value)
    | _ => true
    end
  else if String.eqb opKey "gt" then
    js_gt (valueForComparison value) (valueForComparison opVal)
  else if String.eqb opKey "gte" then
    js_ge (valueForComparison value) (valueForComparison opVal)
  else if String.eqb opKey "lt" then
    js_lt (valueForComparison value) (valueForComparison opVal)
  else if String.eqb opKey "lte" then
    js_le (valueForComparison value) (valueForComparison opVal)
  else if String.eqb opKey "contains" then
    match value, opVal with
    | VStr s, VStr p => str_includes s p
    | VArr _ items, _ => includes items opVal
    | _, _ => false
    end
  else if String.eqb opKey "startsWith" then
    match value, opVal with
    | VStr s, VStr p => startsWith s p
    | _, _ => false
    end
  else if String.eqb opKey "endsWith" then
    match value, opVal with
    | VStr s, VStr p => endsWith s p
    | _, _ => false
    end
  else if String.eqb opKey "not" then
    if isObject opVal then negb (self opVal)
    else negb (strict_eq value opVal)
  else strict_eq value opVal.

Fixpoint evalFieldFilter (value condition : jsvalue) {struct condition} : bool :=
  match condition with
  | VObj _ props =>
      (fix entries (es : list (string * jsvalue)) : bool :=
         match es with
         | [] => true
         | (opKey, opVal) :: rest =>
             if negb (evalOperator (fun c => evalFieldFilter value c) value opKey opVal)
             then false
             else entries rest
         end) props
  | VDate _ _ => true
  | _ => strict_eq value condition
  end.

(** The nesting depth of a value: the recursion of [buildPredicate]
    descends into the value found under [AND], [OR] or [NOT]. *)
Fixpoint depth (v : jsvalue) : nat :=
  match v with
  | VArr _ items =>
      S ((fix max_depth (l : list jsvalue) : nat :=
            match l with
            | [] => O
            | x :: rest => Nat.max (depth x) (max_depth rest)
            end) items)
  | VObj _ props =>
      S ((fix max_depth (l : list (string * jsvalue)) : nat :=
            match l with
            | [] => O
            | (_, x) :: rest => Nat.max (depth x) (max_depth rest)
            end) props)
  | VDate _ _ => 1%nat
  | _ => O
  end.

(** The body of [buildPredicate(where)(item)]; [self] stands for the
    recursive calls [buildPredicate(sub)(item)]. *)
Definition buildPredicate_body (self : jsvalue -> jsvalue -> bool)
    (where_ : jsvalue) (item : jsvalue) : bool :=
  if negb (truthy where_) then true
  else
    let whereObj := where_ in
    let fieldKeys :=
      List.filter (fun k => negb (str_in logical k)) (Object_keys whereObj) in
    (* Field-level checks *)
    if negb (forallb
               (fun k => evalFieldFilter (get_prop item k) (get_prop whereObj k))
               fieldKeys)
    then false
    else
      (* Logical AND *)
      let andNode := get_prop whereObj "AND" in
      if negb (match andNode with
               | VArr _ subs => forallb (fun sub => self sub item) subs
               | _ =>
                   if truthy andNode && isObject andNode
                   then self andNode item
                   else true
               end)
      then false
      else
        (* Logical OR *)
        let orNode := get_prop whereObj "OR" in
        if negb (match orNode with
                 | VArr _ subs =>
                     if negb (Nat.eqb (length subs) 0)
                     then existsb (fun sub => self sub item) subs
                     else true
                 | _ => true
                 end)
        then false
        else
          (* Logical NOT *)
          let notNode := get_prop whereObj "NOT" in
          match notNode with
          | VArr _ subs => forallb (fun sub => negb (self sub item)) subs
          | _ =>
              if truthy notNode && isObject notNode
              then negb (self notNode item)
              else true
          end.

(** The recursion, bounded by [fuel]. *)
Fixpoint buildPredicate_fuel (fuel : nat) (where_ : jsvalue) (item : jsvalue) : bool :=
  match fuel with
  | O => true
  | S fuel' => buildPredicate_body (buildPredicate_fuel fuel') where_ item
  end.

(** The depth of the condition is enough fuel: see [buildPredicate_unfold]. *)
Definition buildPredicate (where_ : jsvalue) (item : jsvalue) : bool :=
  buildPredicate_fuel (S (depth where_)) where_ item.

(** The identity given to an array the code allocates. *)
Definition fresh_ref : nat := 0%nat.

Definition tryBuildKeyFromWhere (keyPath : KeyPath) (where_ : jsvalue) : jsvalue :=
  if negb (truthy where_) then VUndefined
  else
    let w := where_ in
    let keys := List.filter (fun k => negb (str_in logical k)) (Object_keys w) in
    let setKeys := Object_fromEntries (map (fun k => (k, VBool true)) keys) in
    match keyPath with
    | KeyPathNone => VUndefined
    | KeyPathSimple keyPath =>
        if String.eqb keyPath EmptyString then VUndefined
        else if negb (hasOnlyKeys setKeys [keyPath]) then VUndefined
        else
          let raw := get_prop w keyPath in
          if strict_eq raw VUndefined then VUndefined
          else if isObject raw then get_prop raw "equals"
          else raw
    | KeyPathCompound keyPath =>
        if negb (hasOnlyKeys setKeys keyPath) then VUndefined
        else
          VArr fresh_ref
            (map (fun k =>
                    let raw := get_prop w k in
                    if isObject raw then get_prop raw "equals" else raw)
                 keyPath)
    end.

Definition getKeyFromEntity (keyPath : KeyPath) (entity : jsvalue) : jsvalue :=
  match keyPath with
  | KeyPathNone => VUndefined
  | KeyPathSimple keyPath =>
      if String.eqb keyPath EmptyString then VUndefined else get_prop entity keyPath
  | KeyPathCompound keyPath =>
      VArr fresh_ref (map (fun k => get_prop entity k) keyPath)
  end.

End QueryEngine.

(** ** Results of calls that may throw *)

Inductive outcome (A : Type) : Type :=
  | Return (a : A)
  | Throw (message : string).
Arguments Return {A} a.
Arguments Throw {A} message.

(** [Array.prototype.sort(compareFn)]: a stable sort; [cmp a b <= 0] keeps
    [a] before [b]. *)
Fixpoint sort_insert {A : Type} (cmp : A -> A -> Z) (x : A) (l : list A) : list A :=
  match l with
  | [] => [x]
  | y :: rest =>
      if Z.leb (cmp x y) 0 then x :: y :: rest else y :: sort_insert cmp x rest
  end.

Fixpoint js_sort {A : Type} (cmp : A -> A -> Z) (l : list A) : list A :=
  match l with
  | [] => []
  | x :: rest => sort_insert cmp x (js_sort cmp rest)
  end.

(** The comparison of the default [sort()] on strings: by code units. *)
Definition default_compare (a b : string) : Z :=
  match String.compare a b with
  | Lt => -1
  | Eq => 0
  | Gt => 1
  end.

(** [parts.join(sep)] *)
Fixpoint join (sep : string) (parts : list string) : string :=
  match parts with
  | [] => EmptyString
  | [p] => p
  | p :: rest => p +:+ sep +:+ join sep rest
  end.

(** ** The entity registry, [src/core/registry.ts] *)

(** A constructor: its identity, its [name], and the class it extends
    ([None] when its prototype chain reaches [Object] next). *)
Inductive Ctor : Type :=
  | mkCtor (ctor_id : nat) (ctor_name : string) (ctor_parent : option Ctor).

Definition ctor_id (c : Ctor) : nat := match c with mkCtor i _ _ => i end.
Definition ctor_name (c : Ctor) : string := match c with mkCtor _ n _ => n end.
Definition ctor_parent (c : Ctor) : option Ctor := match c with mkCtor _ _ p => p end.

(** [ColumnOptions]: an optional field is absent ([None]) or present; of a
    present field only the truthiness is ever read. *)
Record ColumnOptions : Type := mkOptions {
  primary : option bool;
  autoIncrement : option bool
}.

Record ColumnMeta : Type := mkColumn {
  propertyKey : string;
  options : ColumnOptions
}.

Record EntityMeta : Type := mkMeta {
  target : Ctor;
  tableName : string;
  columns : list ColumnMeta
}.

(** The module state.  [byCtor] is keyed by the identity of the constructor;
    [byTable] holds, per table name and in insertion order, a reference to
    the descriptor object, which is the one [byCtor] holds for that
    identity. *)
Record Registry : Type := mkRegistry {
  byCtor : gmap nat EntityMeta;
  byTable : list (string * nat);
  sealed : bool
}.

(** [meta.tableName = name] and [meta.columns = cols] *)
Definition set_tableName (meta : EntityMeta) (name : string) : EntityMeta :=
  mkMeta (target meta) name (columns meta).
Definition set_columns (meta : EntityMeta) (cols : list ColumnMeta) : EntityMeta :=
  mkMeta (target meta) (tableName meta) cols.

Definition empty_registry : Registry := mkRegistry ∅ [] false.

Definition is_true_opt (o : option bool) : bool :=
  match o with Some true => true | _ => false end.

(** [{ ...a, ...b }] on column options *)
Definition spread (a b : ColumnOptions) : ColumnOptions :=
  mkOptions
    (match primary b with Some x => Some x | None => primary a end)
    (match autoIncrement b with Some x => Some x | None => autoIncrement a end).

Definition no_options : ColumnOptions := mkOptions None None.

Definition assertNotSealed (action : string) (reg : Registry) : outcome unit :=
  if sealed reg
  then Throw ("Registry is sealed; cannot " +:+ action +:+ " after database initialization.")
  else Return tt.

Definition duplicate_table (name : string) : string :=
  "Duplicate table name detected: " +:+ dquote +:+ name +:+ dquote +:+
  " is already registered for a different entity.". 

(** Returns the registry after the call and the descriptor [meta], which is
    the object [byCtor] holds for [target]. *)
Definition ensureEntityMeta (target : Ctor) (name : option string) (reg : Registry)
    : Registry * outcome EntityMeta :=
  match byCtor reg !! ctor_id target with
  | None =>
      let tableName := match name with Some n => n | None => ctor_name target end in
      if String.eqb tableName EmptyString then (reg, Throw "Table name cannot be empty")
      else
        let existing := Map_get (byTable reg) tableName in
        if match existing with
           | Some e => negb (Nat.eqb e (ctor_id target))
           | None => false
           end
        then (reg, Throw (duplicate_table tableName))
        else
          let meta := mkMeta target tableName [] in
          (mkRegistry (<[ctor_id target := meta]> (byCtor reg))
                      (Map_set (byTable reg) tableName (ctor_id target))
                      (sealed reg),
           Return meta)
  | Some meta =>
      match name with
      | Some name =>
          if negb (String.eqb name EmptyString) && negb (String.eqb (tableName meta) name)
          then
            (* Allow a one-time rename from the default constructor name to the
               explicit @Entity name. *)
            let oldName := tableName meta in
            let isDefaultOld := String.eqb oldName (ctor_name target) in
            let conflict := Map_get (byTable reg) name in
            if match conflict with
               | Some c => negb (Nat.eqb c (ctor_id target))
               | None => false
               end
            then (reg, Throw (duplicate_table name))
            else if isDefaultOld then
              let mapped := Map_get (byTable reg) oldName in
              let byTable1 :=
                match mapped with
                | Some m =>
                    if Nat.eqb m (ctor_id target)
                    then Map_delete (byTable reg) oldName
                    else byTable reg
                | None => byTable reg
                end in
              let meta' := set_tableName meta name in
              (mkRegistry (<[ctor_id target := meta']> (byCtor reg))
                          (Map_set byTable1 name (ctor_id target))
                          (sealed reg),
               Return meta')
            else
              (* Prevent accidental renames at runtime causing schema drift *)
              (reg,
               Throw ("Entity already registered with table name " +:+ dquote +:+
                      tableName meta +:+ dquote +:+ "; refusing to rename to " +:+
                      dquote +:+ name +:+ dquote +:+ "."))
          else (reg, Return meta)
      | None => (reg, Return meta)
      end
  end.

Definition addEntity (target : Ctor) (name : option string) (reg : Registry)
    : Registry * outcome unit :=
  match assertNotSealed "register entities" reg with
  | Throw e => (reg, Throw e)
  | Return _ =>
      match ensureEntityMeta target name reg with
      | (reg', Throw e) => (reg', Throw e)
      | (reg', Return _) => (reg', Return tt)
      end
  end.

(** [arr.findIndex(f)]; [None] stands for [-1]. *)
Fixpoint findIndex {A : Type} (f : A -> bool) (l : list A) : option nat :=
  match l with
  | [] => None
  | x :: rest =>
      if f x then Some O
      else match findIndex f rest with Some i => Some (S i) | None => None end
  end.

(** [constructor] is the [constructor] member of the decorated target;
    [None] when the target has none. *)
Definition addColumn (constructor : option Ctor) (propKey : string)
    (opts : ColumnOptions) (reg : Registry) : Registry * outcome unit :=
  match assertNotSealed "add columns" reg with
  | Throw e => (reg, Throw e)
  | Return _ =>
      match constructor with
      | None =>
          (reg,
           Throw ("@Column used on an invalid target: missing constructor for property " +:+
                  dquote +:+ propKey +:+ dquote +:+ "."))
      | Some ctor =>
          match ensureEntityMeta ctor None reg with
          | (reg1, Throw e) => (reg1, Throw e)
          | (reg1, Return meta) =>
              let key := propKey in
              let existingPrimary :=
                List.find
                  (fun c => is_true_opt (primary (options c)) &&
                            negb (String.eqb (propertyKey c) key))
                  (columns meta) in
              if is_true_opt (autoIncrement opts) && negb (is_true_opt (primary opts))
              then
                (reg1,
                 Throw ("autoIncrement requires primary: true (table: " +:+ tableName meta +:+
                        ", column: " +:+ key +:+ ")"))
              else
                match (if is_true_opt (primary opts) then existingPrimary else None) with
                | Some existing =>
                    (reg1,
                     Throw ("Multiple primary columns not supported (table: " +:+
                            tableName meta +:+ ", columns: " +:+ propertyKey existing +:+
                            ", " +:+ key +:+ ")"))
                | None =>
                    let idx :=
                      findIndex (fun c => String.eqb (propertyKey c) key) (columns meta) in
                    let col :=
                      mkColumn key
                        (spread
                           (match idx with
                            | Some i =>
                                match columns meta !! i with
                                | Some c => options c
                                | None => no_options
                                end
                            | None => no_options
                            end)
                           opts) in
                    let columns' :=
                      match idx with
                      | Some i => <[i := col]> (columns meta)
                      | None => columns meta ++ [col]
                      end in
                    (mkRegistry (<[ctor_id ctor := set_columns meta columns']> (byCtor reg1))
                                (byTable reg1) (sealed reg1),
                     Return tt)
                end
          end
      end
  end.

Definition getEntityMeta (target : Ctor) (reg : Registry) : option EntityMeta :=
  byCtor reg !! ctor_id target.

Definition getEntityMetaByTable (tableName : string) (reg : Registry) : option EntityMeta :=
  match Map_get (byTable reg) tableName with
  | Some i => byCtor reg !! i
  | None => None
  end.

Definition getAllEntities (reg : Registry) : list EntityMeta :=
  omap (fun e => byCtor reg !! snd e) (byTable reg).

Definition resetRegistry (reg : Registry) : Registry := mkRegistry ∅ [] false.

Definition sealRegistry (reg : Registry) : Registry :=
  mkRegistry (byCtor reg) (byTable reg) true.

Definition isRegistrySealed (reg : Registry) : bool := sealed reg.

(** The constructors from the root of the inheritance chain down to [c]. *)
Fixpoint chain_of (c : Ctor) : list Ctor :=
  match c with
  | mkCtor _ _ (Some parent) => chain_of parent ++ [c]
  | mkCtor _ _ None => [c]
  end.

(** [new Set(keys)], in insertion order. *)
Definition Set_of (keys : list string) : list string :=
  fold_left (fun acc k => if str_in acc k then acc else acc ++ [k]) keys [].

(** The loop that fills [columnsMap]: down the chain, a column of a
    descendant replaces the column of the same name. *)
Definition mergedColumns (chain : list Ctor) (reg : Registry) : list (string * ColumnMeta) :=
  fold_left
    (fun (columnsMap : list (string * ColumnMeta)) ctor =>
       match byCtor reg !! ctor_id ctor with
       | None => columnsMap
       | Some m =>
           fold_left
             (fun columnsMap c =>
                let cloned := mkColumn (propertyKey c) (options c) in
                Map_set columnsMap (propertyKey cloned) cloned)
             (columns m) columnsMap
       end)
    chain [].

(** Inheritance-aware metadata resolution *)
Definition resolveEntity (meta : EntityMeta) (reg : Registry) : outcome (list ColumnMeta) :=
  let chain := chain_of (target meta) in
  let columnsMap := mergedColumns chain reg in
  (* Validate only one primary across chain *)
  let primaries :=
    List.filter (fun c => is_true_opt (primary (options c))) (map snd columnsMap) in
  let distinctPrimaryKeys := Set_of (map propertyKey primaries) in
  if Nat.ltb 1 (length distinctPrimaryKeys)
  then Throw ("Multiple primary columns across inheritance for table " +:+ dquote +:+
              tableName meta +:+ dquote +:+ ": " +:+ join ", " distinctPrimaryKeys)
  else Return (map snd columnsMap).

(** ** Schema and version, [src/core/schema.ts] *)

Definition buildTableSchema (meta : EntityMeta) (reg : Registry) : outcome string :=
  match resolveEntity meta reg with
  | Throw e => Throw e
  | Return resolved =>
      (* Determine primary key *)
      let primary_ := List.find (fun c => is_true_opt (primary (options c))) resolved in
      let primaryPart :=
        match primary_ with
        | Some p =>
            if is_true_opt (autoIncrement (options p))
            then "++" +:+ propertyKey p
            else propertyKey p
        | None => EmptyString
        end in
      (* Other columns *)
      let otherCols :=
        js_sort default_compare
          (map propertyKey
             (List.filter (fun c => negb (is_true_opt (primary (options c)))) resolved)) in
      let parts :=
        (if negb (String.eqb primaryPart EmptyString) then [primaryPart] else [])
        ++ otherCols in
      Return (join ", " parts)
  end.

(** [obj[k] = v] on an object literal: a string assigned to [__proto__]
    creates no property. *)
Definition assign (obj : list (string * string)) (k v : string) : list (string * string) :=
  if String.eqb k "__proto__" then obj else Map_set obj k v.

(** The array index a property key spells, if any: the canonical decimal
    spelling of an integer below [2^32 - 1]. *)
Definition array_index (k : string) : option N :=
  match DecimalString.NilEmpty.uint_of_string k with
  | Some u =>
      let n := N.of_uint u in
      if String.eqb (DecimalString.NilZero.string_of_uint (N.to_uint n)) k
         && N.ltb n 4294967295
      then Some n
      else None
  | None => None
  end.

Definition index_compare (a b : string * string) : Z :=
  match array_index (fst a), array_index (fst b) with
  | Some x, Some y => Z.of_N x - Z.of_N y
  | _, _ => 0
  end.

(** [Object.entries(obj)] of an object given by its assignments in insertion
    order: index keys first, ascending, then the other keys as inserted. *)
Definition Object_entries_of (obj : list (string * string)) : list (string * string) :=
  js_sort index_compare
    (List.filter (fun e => match array_index (fst e) with Some _ => true | None => false end) obj)
  ++ List.filter (fun e => match array_index (fst e) with Some _ => false | None => true end) obj.

(** *** [JSON.stringify] on the data the module serialises *)

Definition hex_digit (n : nat) : ascii :=
  match String.get n "0123456789abcdef" with
  | Some c => c
  | None => "0"%char
  end.

Definition json_escape_char (c : ascii) : string :=
  let n := nat_of_ascii c in
  if Nat.eqb n 34 then "\" +:+ dquote
  else if Nat.eqb n 92 then "\\"
  else if Nat.eqb n 8 then "\b"
  else if Nat.eqb n 9 then "\t"
  else if Nat.eqb n 10 then "\n"
  else if Nat.eqb n 12 then "\f"
  else if Nat.eqb n 13 then "\r"
  else if Nat.ltb n 32 then
    "\u00" +:+ String (hex_digit (Nat.div n 16)) (String (hex_digit (Nat.modulo n 16)) EmptyString)
  else String c EmptyString.

Fixpoint json_escape (s : string) : string :=
  match s with
  | EmptyString => EmptyString
  | String c rest => json_escape_char c +:+ json_escape rest
  end.

(** [JSON.stringify(s)] for a string [s] *)
Definition json_string (s : string) : string :=
  dquote +:+ json_escape s +:+ dquote.

(** [JSON.stringify(entries)] for an array of [[key, value]] pairs *)
Definition JSON_stringify_entries (entries : list (string * string)) : string :=
  "[" +:+
  join ","
    (map (fun e => "[" +:+ json_string (fst e) +:+ "," +:+ json_string (snd e) +:+ "]")
       entries)
  +:+ "]".

(** *** Numbers as the host computes and prints them

    A number of the host is a double.  The finite numbers of this embedding
    are the integers among them; a number with a fraction, and an infinity,
    lie outside the data model, here as in the query engine. *)

(** The double nearest to an integer: 53 significant bits, a tie going to
    the even significand. *)
Definition round_to_double (n : Z) : Z :=
  let a := Z.abs n in
  let e := Z.log2 a in
  if Z.ltb e 53 then n
  else
    let ulp := 2 ^ (e - 52) in
    let m := a / ulp in
    let r := a mod ulp in
    let m' :=
      if Z.ltb (2 * r) ulp then m
      else if Z.ltb ulp (2 * r) then m + 1
      else if Z.even m then m else m + 1 in
    Z.sgn n * (m' * ulp).

(** The integer with the fewest significant decimal digits among those whose
    nearest double is [x], the nearest to [x] among these, the even one of
    two; [p] is the power of ten of the last digit tried. *)
Fixpoint shortest_decimal (fuel : nat) (x p : Z) : Z :=
  match fuel with
  | O => x
  | S fuel' =>
      let lo := (x / p) * p in
      let hi := lo + p in
      let ok_lo := Z.eqb (round_to_double lo) x in
      let ok_hi := Z.eqb (round_to_double hi) x in
      if ok_lo && ok_hi then
        if Z.ltb (x - lo) (hi - x) then lo
        else if Z.ltb (hi - x) (x - lo) then hi
        else if Z.even (lo / p) then lo else hi
      else if ok_lo then lo
      else if ok_hi then hi
      else shortest_decimal fuel' x (p / 10)
  end.

Definition decimal_digits (n : Z) : string :=
  DecimalString.NilZero.string_of_uint (N.to_uint (Z.to_N n)).

Fixpoint strip_zeros_end (s : string) : string :=
  match s with
  | EmptyString => EmptyString
  | String c rest =>
      match strip_zeros_end rest with
      | EmptyString => if Ascii.eqb c "0" then EmptyString else String c EmptyString
      | rest' => String c rest'
      end
  end.

(** [Number::toString] on a double that is an integer and not negative: all
    its digits up to 2^53, where every integer is a double of its own; above,
    the shortest digits that read back as the same double, followed by
    zeros, or by an exponent from 22 digits on. *)
Definition positive_toString (x : Z) : string :=
  if Z.leb x (2 ^ 53) then decimal_digits x
  else
    let len := String.length (decimal_digits x) in
    let c := shortest_decimal len x (10 ^ (Z.of_nat len - 1)) in
    let all := decimal_digits c in
    let n := String.length all in
    if Nat.leb n 21 then all
    else
      match strip_zeros_end all with
      | String d EmptyString => String d ("e+" +:+ decimal_digits (Z.of_nat n - 1))
      | String d rest => String d ("." +:+ rest +:+ "e+" +:+ decimal_digits (Z.of_nat n - 1))
      | EmptyString => all
      end.

(** [JSON.stringify(n)] for a finite number [n], which is
    [Number::toString]; an integer that is no double is taken at the double
    nearest to it. *)
Definition json_number (n : Z) : string :=
  if Z.ltb n 0 then "-" +:+ positive_toString (round_to_double (- n))
  else positive_toString (round_to_double n).

(** What [version + 1] evaluates to: a number, or a string when the left
    operand is a string or converts to one. *)
Inductive plus_value : Type :=
  | PlusNumber (n : number)
  | PlusString (s : string).

Definition plus_to_value (p : plus_value) : jsvalue :=
  match p with
  | PlusNumber n => VNum n
  | PlusString s => VStr s
  end.

(** [JSON.stringify({ version, signature })], for the versions that
    [getVersion] passes to [storeVersion]; [NaN] is written [null]. *)
Definition JSON_stringify_record (version : plus_value) (signature : string) : string :=
  "{" +:+ json_string "version" +:+ ":" +:+
  match version with
  | PlusNumber NaN => "null"
  | PlusNumber (Fin z) => json_number z
  | PlusString s => json_string s
  end +:+ "," +:+
  json_string "signature" +:+ ":" +:+ json_string signature +:+ "}".

(** The host: whether [window] is defined, and the contents of
    [localStorage]. *)
Record Host : Type := mkHost {
  window_defined : bool;
  localStorage : gmap string string
}.

Definition versionKey (dbName : string) : string :=
  "__dexie_dynamic_version__::" +:+ dbName.

(** The object literal [{ version: 1, signature: '' }] *)
Definition default_version : jsvalue :=
  VObj 0 [("version", VNum (Fin 1)); ("signature", VStr EmptyString)].

(** A record [{ version, signature }] as [JSON.parse] builds it. *)
Definition version_record (r : nat) (version : Z) (signature : string) : jsvalue :=
  VObj r [("version", VNum (Fin version)); ("signature", VStr signature)].

(** What the engine throws at the destructuring of [null] or [undefined],
    and when a conversion to a primitive finds none.  The message differs
    between engines; the embedding keeps the name of the class. *)
Definition TypeError : string := "TypeError".

Section Schema.

(** [a.localeCompare(b)]: the collation of the host's locale. *)
Variable localeCompare : string -> string -> Z.

(** [JSON.parse(raw)]: the value parsed, whatever its shape; [None] when it
    throws. *)
Variable JSON_parse : string -> option jsvalue.

(** The conversion of an object, an array or a date to a primitive, as [+]
    asks for it ([valueOf], then [toString]): a primitive, or what it
    throws. *)
Variable ToPrimitive : jsvalue -> outcome jsvalue.

Definition buildSchema (reg : Registry) : outcome (list (string * string)) :=
  let entities :=
    js_sort (fun a b => localeCompare (tableName a) (tableName b)) (getAllEntities reg) in
  fold_left
    (fun (schema : outcome (list (string * string))) meta =>
       match schema with
       | Throw e => Throw e
       | Return schema =>
           match buildTableSchema meta reg with
           | Throw e => Throw e
           | Return s => Return (assign schema (tableName meta) s)
           end
       end)
    entities (Return []).

Definition computeSignature (obj : list (string * string)) : string :=
  let entries :=
    js_sort (fun a b => localeCompare (fst a) (fst b)) (Object_entries_of obj) in
  JSON_stringify_entries entries.

(** The value returned is whatever [JSON.parse] gives: its shape is not
    checked. *)
Definition loadStoredVersion (host : Host) (dbName : string) : jsvalue :=
  if negb (window_defined host) then default_version
  else
    match localStorage host !! versionKey dbName with
    | None => default_version
    | Some raw =>
        if String.eqb raw EmptyString then default_version
        else
          match JSON_parse raw with
          | Some stored => stored
          | None => default_version
          end
    end.

Definition storeVersion (host : Host) (dbName : string) (version : plus_value)
    (signature : string) : Host * plus_value :=
  if negb (window_defined host) then (host, version)
  else
    (mkHost (window_defined host)
            (<[versionKey dbName := JSON_stringify_record version signature]>
               (localStorage host)),
     version).

(** [version + 1]: the left operand is brought to a primitive; a string is
    concatenated with ["1"], anything else is converted to a number and
    added, the sum rounded to a double.  A conversion that yields no
    primitive is the [TypeError] of the engine. *)
Definition plus_one (version : jsvalue) : outcome plus_value :=
  let primitive :=
    match version with
    | VDate _ _ | VArr _ _ | VObj _ _ => ToPrimitive version
    | _ => Return version
    end in
  match primitive with
  | Throw e => Throw e
  | Return VUndefined => Return (PlusNumber NaN)
  | Return VNull => Return (PlusNumber (Fin 1))
  | Return (VBool b) => Return (PlusNumber (Fin (if b then 2 else 1)))
  | Return (VNum NaN) => Return (PlusNumber NaN)
  | Return (VNum (Fin z)) => Return (PlusNumber (Fin (round_to_double (z + 1))))
  | Return (VStr s) => Return (PlusString (s +:+ "1"))
  | Return _ => Throw TypeError
  end.

(** The destructuring [let { version, signature: storedSig } = ...] throws
    on [null] and [undefined], and reads [undefined] for a property that the
    value does not have. *)
Definition getVersion (host : Host) (dbName : string) (schema : list (string * string))
    : Host * outcome jsvalue :=
  let signature := computeSignature schema in
  let stored := loadStoredVersion host dbName in
  match stored with
  | VUndefined | VNull => (host, Throw TypeError)
  | _ =>
      let version := get_prop stored "version" in
      let storedSig := get_prop stored "signature" in
      if strict_eq (VStr signature) storedSig then (host, Return version)
      else
        match plus_one version with
        | Throw e => (host, Throw e)
        | Return sum =>
            let '(host', version') := storeVersion host dbName sum signature in
            (host', Return (plus_to_value version'))
        end
  end.

End Schema.

(** ** The table store *)

(** Modelled from the spec: the underlying table store (section 6), a
    third-party library that the repository only calls.  A table holds its
    records under their primary keys, in key order, and knows its key
    path. *)
Record Table : Type := mkTable {
  keyPath : KeyPath;
  rows : list (jsvalue * jsvalue)
}.

(** Modelled from the spec: the keys the store can index, which are numbers
    other than [NaN], strings, valid dates, and arrays of such keys. *)
Fixpoint valid_key (k : jsvalue) : bool :=
  match k with
  | VNum (Fin _) => true
  | VStr _ => true
  | VDate _ (Fin _) => true
  | VArr _ items => forallb valid_key items
  | _ => false
  end.

(** Modelled from the spec: equality of keys in the store, by content and
    not by identity. *)
Fixpoint key_eqb (a b : jsvalue) {struct a} : bool :=
  match a, b with
  | VNum x, VNum y => number_eqb x y
  | VStr x, VStr y => String.eqb x y
  | VDate _ x, VDate _ y => number_eqb x y
  | VArr _ xs, VArr _ ys =>
      (fix all2 (xs ys : list jsvalue) {struct xs} : bool :=
         match xs, ys with
         | [], [] => true
         | x :: xs', y :: ys' => key_eqb x y && all2 xs' ys'
         | _, _ => false
         end) xs ys
  | _, _ => false
  end.

(** Modelled from the spec: what the store throws at a key it cannot
    index. *)
Definition store_rejects : string := "DataError".

(** Modelled from the spec: [table.get(key)], the record stored under the
    key, or [undefined]. *)
Definition table_get (t : Table) (key : jsvalue) : outcome jsvalue :=
  if valid_key key then
    match List.find (fun row => key_eqb (fst row) key) (rows t) with
    | Some row => Return (snd row)
    | None => Return VUndefined
    end
  else Throw store_rejects.

(** Modelled from the spec: [table.delete(key)], which removes what is
    stored under the key. *)
Definition table_delete (t : Table) (key : jsvalue) : outcome Table :=
  if valid_key key then
    Return (mkTable (keyPath t) (List.filter (fun row => negb (key_eqb (fst row) key)) (rows t)))
  else Throw store_rejects.

(** Modelled from the spec: [table.toCollection()], as the list of records
    that the cursor visits, in key order. *)
Definition toCollection (t : Table) : list jsvalue := map snd (rows t).

(** Modelled from the spec: [collection.first()], [undefined] when the
    collection is empty. *)
Definition first (col : list jsvalue) : jsvalue :=
  match col with
  | [] => VUndefined
  | x :: _ => x
  end.

(** Modelled from the spec: [collection.toArray()], the records of the
    collection in the order of the cursor. *)
Definition toArray (col : list jsvalue) : list jsvalue := col.

(** Modelled from the spec: [table.count()] and [collection.count()]. *)
Definition table_count (t : Table) : Z := Z.of_nat (length (rows t)).
Definition collection_count (col : list jsvalue) : Z := Z.of_nat (length col).

(** Modelled from the spec: [table.bulkDelete(keys)], which removes what is
    stored under each of the keys. *)
Definition table_bulkDelete (t : Table) (keys : list jsvalue) : outcome Table :=
  if forallb valid_key keys then
    Return (mkTable (keyPath t)
              (List.filter (fun row => negb (existsb (fun key => key_eqb (fst row) key) keys))
                 (rows t)))
  else Throw store_rejects.

(** [a ?? b] *)
Definition nullish (a b : jsvalue) : jsvalue :=
  match a with
  | VUndefined | VNull => b
  | _ => a
  end.

(** ** [Array.prototype.slice] *)

(** [a + b] on numbers *)
Definition num_add (a b : number) : number :=
  match a, b with
  | Fin x, Fin y => Fin (x + y)
  | _, _ => NaN
  end.

(** ToIntegerOrInfinity on the numbers of this embedding. *)
Definition ToIntegerOrInfinity (n : number) : Z :=
  match n with
  | NaN => 0
  | Fin z => z
  end.

(** A relative index of [slice]: counted from the end when negative, and
    clamped to the bounds of the array. *)
Definition relative_index (len : nat) (i : Z) : nat :=
  if Z.ltb i 0 then Z.to_nat (Z.max (Z.of_nat len + i) 0)
  else Z.to_nat (Z.min i (Z.of_nat len)).

(** [arr.slice(start, end)]; [None] for an [end] that is [undefined]. *)
Definition slice {A : Type} (arr : list A) (start : number) (end_ : option number) : list A :=
  let len := length arr in
  let k := relative_index len (ToIntegerOrInfinity start) in
  let final :=
    match end_ with
    | None => len
    | Some e => relative_index len (ToIntegerOrInfinity e)
    end in
  firstn (final - k) (skipn k arr).

Module PrismaService.
Section Service.

Variable IsLessThan : jsvalue -> jsvalue -> option bool.

Definition collectionForWhere (table : Table) (where_ : jsvalue) : list jsvalue :=
  if negb (truthy where_) then toCollection table
  else
    let pred := buildPredicate IsLessThan where_ in
    List.filter (fun item => pred item) (toCollection table).

Definition findUnique (table : Table) (where_ : jsvalue) : outcome jsvalue :=
  let key := tryBuildKeyFromWhere (keyPath table) where_ in
  if negb (strict_eq key VUndefined) then
    match table_get table key with
    | Throw e => Throw e
    | Return got => Return (nullish got VNull)
    end
  else
    let col := collectionForWhere table where_ in
    Return (nullish (first col) VNull).

(** The table after the call, and what the call resolves to or throws. *)
Definition delete (table : Table) (where_ : jsvalue) : Table * outcome jsvalue :=
  match findUnique table where_ with
  | Throw e => (table, Throw e)
  | Return target =>
      if negb (truthy target) then (table, Throw "Record to delete not found.")
      else
        let key :=
          nullish (tryBuildKeyFromWhere (keyPath table) where_)
                  (getKeyFromEntity (keyPath table) target) in
        if strict_eq key VUndefined
        then (table, Throw "Unable to resolve primary key for delete.")
        else
          match table_delete table key with
          | Throw e => (table, Throw e)
          | Return table' => (table', Return target)
          end
  end.

Definition findFirst (table : Table) (where_ : jsvalue) (orderBy : OrderByArg)
    : outcome jsvalue :=
  let col := collectionForWhere table where_ in
  let arr := toArray col in
  let cmp := toComparator IsLessThan orderBy in
  let arr := match cmp with Some cmp => js_sort cmp arr | None => arr end in
  Return (match arr with
          | [] => VNull
          | x :: _ => x
          end).

(** [skip] and [take] are [None] when they are [undefined] or [null]. *)
Definition findMany (table : Table) (where_ : jsvalue) (orderBy : OrderByArg)
    (skip take : option number) : outcome (list jsvalue) :=
  let col := collectionForWhere table where_ in
  let arr := toArray col in
  let cmp := toComparator IsLessThan orderBy in
  let arr := match cmp with Some cmp => js_sort cmp arr | None => arr end in
  let start := match skip with Some n => n | None => Fin 0 end in
  let end_ := match take with Some n => Some (num_add start n) | None => None end in
  Return (slice arr start end_).

(** The table after the call, and the count the call resolves to. *)
Definition deleteMany (table : Table) (where_ : jsvalue) : Table * outcome Z :=
  let col := collectionForWhere table where_ in
  let items := toArray col in
  if Nat.eqb (length items) 0 then (table, Return 0)
  else
    let keys :=
      flat_map
        (fun it =>
           let k := getKeyFromEntity (keyPath table) it in
           if negb (strict_eq k VUndefined) then [k] else [])
        items in
    match table_bulkDelete table keys with
    | Throw e => (table, Throw e)
    | Return table' => (table', Return (Z.of_nat (length keys)))
    end.

Definition count (table : Table) (where_ : jsvalue) : outcome Z :=
  if negb (truthy where_) then Return (table_count table)
  else
    let col := collectionForWhere table where_ in
    Return (collection_count col).

End Service.

(** The calls that write through [table.add] and [table.bulkAdd].  What
    these two calls of the store do to the table, and whether they throw,
    is left open: each takes the table before the call and gives the table
    after it with the key or keys it resolves to, or what it throws. *)
Section Writes.

Variable table_add : Table -> jsvalue -> Table * outcome jsvalue.
Variable table_bulkAdd : Table -> list jsvalue -> Table * outcome (list jsvalue).

(** The loop that inserts one by one; a record whose insertion throws is
    skipped. *)
Fixpoint createMany_fallback (table : Table) (data : list jsvalue) (count : Z)
    : Table * Z :=
  match data with
  | [] => (table, count)
  | item :: rest =>
      match table_add table item with
      | (table', Return _) => createMany_fallback table' rest (count + 1)
      | (table', Throw _) => createMany_fallback table' rest count
      end
  end.

Definition createMany (table : Table) (data : list jsvalue) : Table * outcome Z :=
  if Nat.eqb (length data) 0 then (table, Return 0)
  else
    match table_bulkAdd table data with
    | (table', Return keys) => (table', Return (Z.of_nat (length keys)))
    | (table', Throw _) =>
        let '(table'', count) := createMany_fallback table' data 0 in
        (table'', Return count)
    end.

End Writes.
End PrismaService.

(** An instance of the relational comparison on numbers, strings and
    booleans of one type; other pairs are left incomparable. *)
Definition IsLessThan_same_type (a b : jsvalue) : option bool :=
  match a, b with
  | VNum (Fin x), VNum (Fin y) => Some (Z.ltb x y)
  | VStr x, VStr y => Some (String.ltb x y)
  | VBool x, VBool y => Some (negb x && y)
  | _, _ => None
  end.

(** ** The reading of a where-condition in the specification

    Section 4.3: the field-level clause and each combinator clause.
    [accepts] is the verdict of the compiled predicate on a condition
    nested under a combinator. *)

Section WhereConditionSpec.

Variable IsLessThan : jsvalue -> jsvalue -> option bool.

(** Every field-level filter holds. *)
Definition fields_hold (w item : jsvalue) : Prop :=
  forall k, In k (Object_keys w) -> ~ In k logical ->
    evalFieldFilter IsLessThan (get_prop item k) (get_prop w k) = true.

(** [AND]: a single condition or a list, all must hold. *)
Definition AND_holds (accepts : jsvalue -> bool) (node : jsvalue) : Prop :=
  match node with
  | VArr _ subs => forall sub, In sub subs -> accepts sub = true
  | VObj _ _ | VDate _ _ => accepts node = true
  | _ => True
  end.

(** [OR]: a non-empty list, at least one must hold; an empty or absent
    list imposes no constraint. *)
Definition OR_holds (accepts : jsvalue -> bool) (node : jsvalue) : Prop :=
  match node with
  | VArr _ subs => subs = [] \/ exists sub, In sub subs /\ accepts sub = true
  | _ => True
  end.

(** [NOT]: a single condition or a list, none must hold. *)
Definition NOT_holds (accepts : jsvalue -> bool) (node : jsvalue) : Prop :=
  match node with
  | VArr _ subs => forall sub, In sub subs -> accepts sub = false
  | VObj _ _ | VDate _ _ => accepts node = false
  | _ => True
  end.

End WhereConditionSpec.

(** The sign a direction gives to a comparison. *)
Definition sign_of (dir : direction) : Z :=
  match dir with asc => 1 | desc => -1 end.

(** A record without its fields named [AND], [OR] and [NOT]. *)
Definition strip_logical (v : jsvalue) : jsvalue :=
  match v with
  | VObj r props => VObj r (List.filter (fun e => negb (str_in logical (fst e))) props)
  | _ => v
  end.

(** The invariant of a store with in-line keys: a stored key is one the
    store can index, and a record that holds a value at the key path is
    stored under that value. *)
Definition wf_table (t : Table) : Prop :=
  forall k r, In (k, r) (rows t) ->
    valid_key k = true /\
    (getKeyFromEntity (keyPath t) r <> VUndefined ->
     valid_key (getKeyFromEntity (keyPath t) r) = true /\
     key_eqb k (getKeyFromEntity (keyPath t) r) = true).

(** A table with in-line keys at [id]. *)
Definition users_table : Table :=
  mkTable (KeyPathSimple "id")
    [(VNum (Fin 1), VObj 10 [("id", VNum (Fin 1)); ("name", VStr "Ann")]);
     (VNum (Fin 2), VObj 11 [("id", VNum (Fin 2)); ("name", VStr "Bob")])].

(** A table without a key path: the keys are held out of line. *)
Definition notes_table : Table :=
  mkTable KeyPathNone [(VNum (Fin 1), VObj 10 [("name", VStr "Ann")])].

(** ** Registrations and reachable registries *)

Definition is_primary (c : ColumnMeta) : bool := is_true_opt (primary (options c)).

Definition at_most_one_primary (cols : list ColumnMeta) : Prop :=
  (length (List.filter is_primary cols) <= 1)%nat.

(** The calls that change the module state. *)
Inductive Operation : Type :=
  | OpAddEntity (target : Ctor) (name : option string)
  | OpAddColumn (constructor : option Ctor) (propKey : string) (opts : ColumnOptions)
  | OpResetRegistry
  | OpSealRegistry.

Definition run_op (op : Operation) (reg : Registry) : Registry * outcome unit :=
  match op with
  | OpAddEntity target name => addEntity target name reg
  | OpAddColumn constructor propKey opts => addColumn constructor propKey opts reg
  | OpResetRegistry => (resetRegistry reg, Return tt)
  | OpSealRegistry => (sealRegistry reg, Return tt)
  end.

(** The registries that calls can produce from the initial module state;
    a call that throws keeps what it changed before throwing. *)
Inductive reachable : Registry -> Prop :=
  | reachable_init : reachable empty_registry
  | reachable_step op reg : reachable reg -> reachable (fst (run_op op reg)).

(** Two classes, the second extending the first, and a registry in which
    the first has its primary column. *)
Definition User : Ctor := mkCtor 1 "User" None.
Definition Admin : Ctor := mkCtor 2 "Admin" (Some User).

Definition primary_options : ColumnOptions := mkOptions (Some true) None.
Definition auto_options (b : bool) : ColumnOptions := mkOptions (Some true) (Some b).

Definition registry_with_id : Registry :=
  fst (run_op (OpAddColumn (Some User) "id" primary_options) empty_registry).

(** ** An instance of the host functions

    [JSON.parse] restricted to a few serialisations, the conversion to a
    primitive restricted to plain objects, and a collation that orders
    strings by code unit. *)

Fixpoint strip_prefix (p s : string) : option string :=
  match p, s with
  | EmptyString, _ => Some s
  | String c p', String d s' => if Ascii.eqb c d then strip_prefix p' s' else None
  | String _ _, EmptyString => None
  end.

Definition is_digit (c : ascii) : bool :=
  Nat.leb 48 (nat_of_ascii c) && Nat.leb (nat_of_ascii c) 57.

Fixpoint span_digits (s : string) : string * string :=
  match s with
  | EmptyString => (EmptyString, EmptyString)
  | String c rest =>
      if is_digit c
      then let '(ds, rest') := span_digits rest in (String c ds, rest')
      else (EmptyString, s)
  end.

(** An integer literal: an optional minus sign and decimal digits. *)
Definition read_int (s : string) : option (Z * string) :=
  let '(negative, s1) :=
    match s with
    | String c rest => if Ascii.eqb c "-" then (true, rest) else (false, s)
    | EmptyString => (false, s)
    end in
  let '(ds, rest) := span_digits s1 in
  if String.eqb ds EmptyString then None
  else
    match DecimalString.NilEmpty.uint_of_string ds with
    | Some u => Some (if negative then - Z.of_uint u else Z.of_uint u, rest)
    | None => None
    end.

Definition hex_value (c : ascii) : option nat :=
  let n := nat_of_ascii c in
  if Nat.leb 48 n && Nat.leb n 57 then Some (n - 48)%nat
  else if Nat.leb 97 n && Nat.leb n 102 then Some (n - 87)%nat
  else if Nat.leb 65 n && Nat.leb n 70 then Some (n - 55)%nat
  else None.

(** The body of a string literal after its opening quote, up to the closing
    quote; escapes above one byte are not read. *)
Fixpoint read_string_body (s : string) : option (string * string) :=
  match s with
  | EmptyString => None
  | String c rest =>
      if Nat.eqb (nat_of_ascii c) 34 then Some (EmptyString, rest)
      else if Nat.eqb (nat_of_ascii c) 92 then
        match rest with
        | EmptyString => None
        | String e rest1 =>
            if Ascii.eqb e "u" then
              match rest1 with
              | String a (String b (String h (String l rest2))) =>
                  match hex_value a, hex_value b, hex_value h, hex_value l with
                  | Some O, Some O, Some x, Some y =>
                      match read_string_body rest2 with
                      | Some (body, after) =>
                          Some (String (ascii_of_nat (16 * x + y)) body, after)
                      | None => None
                      end
                  | _, _, _, _ => None
                  end
              | _ => None
              end
            else
              let decoded :=
                if Ascii.eqb e "b" then Some (ascii_of_nat 8)
                else if Ascii.eqb e "t" then Some (ascii_of_nat 9)
                else if Ascii.eqb e "n" then Some (ascii_of_nat 10)
                else if Ascii.eqb e "f" then Some (ascii_of_nat 12)
                else if Ascii.eqb e "r" then Some (ascii_of_nat 13)
                else if Nat.eqb (nat_of_ascii e) 34 then Some e
                else if Nat.eqb (nat_of_ascii e) 92 then Some e
                else if Ascii.eqb e "/" then Some e
                else None in
              match decoded, read_string_body rest1 with
              | Some d, Some (body, after) => Some (String d body, after)
              | _, _ => None
              end
        end
      else
        match read_string_body rest with
        | Some (body, after) => Some (String c body, after)
        | None => None
        end
  end.

(** The value of [version] in such a serialisation: [null], or an integer
    literal without a leading zero, read as the double nearest to it; a
    literal that is too large for a double, and [-0], are not read. *)
Definition read_version (s : string) : option (jsvalue * string) :=
  match strip_prefix "null" s with
  | Some rest => Some (VNull, rest)
  | None =>
      let '(negative, digits) :=
        match s with
        | String c rest => if Ascii.eqb c "-" then (true, rest) else (false, s)
        | EmptyString => (false, s)
        end in
      let leading_zero :=
        match fst (span_digits digits) with
        | String c (String _ _) => Ascii.eqb c "0"
        | _ => false
        end in
      match read_int s with
      | Some (v, rest) =>
          if leading_zero || (negative && Z.eqb v 0) || Z.leb (2 ^ 1024 - 2 ^ 970) (Z.abs v)
          then None
          else Some (VNum (Fin (round_to_double v)), rest)
      | None => None
      end
  end.

(** [JSON.parse] on [null], on [{}] and on the records that [storeVersion]
    writes with a number for the version; it reads nothing else. *)
Definition JSON_parse_record (raw : string) : option jsvalue :=
  if String.eqb raw "null" then Some VNull
  else if String.eqb raw "{}" then Some (VObj 1 [])
  else
    match strip_prefix ("{" +:+ json_string "version" +:+ ":") raw with
    | Some s1 =>
        match read_version s1 with
        | Some (v, s2) =>
            match strip_prefix ("," +:+ json_string "signature" +:+ ":" +:+ dquote) s2 with
            | Some s3 =>
                match read_string_body s3 with
                | Some (sig, s4) =>
                    if String.eqb s4 "}"
                    then Some (VObj 1 [("version", v); ("signature", VStr sig)])
                    else None
                | None => None
                end
            | None => None
            end
        | None => None
        end
    | None => None
    end.

(** The conversion to a primitive on objects without methods of their own:
    the string that [Object.prototype.toString] gives, unless an own
    [toString] that is no function hides it. *)
Definition ToPrimitive_plain (v : jsvalue) : outcome jsvalue :=
  match v with
  | VObj _ props =>
      if str_in (map fst props) "toString" then Throw TypeError
      else Return (VStr "[object Object]")
  | _ => Throw TypeError
  end.

(** A collation that orders strings by code unit. *)
Definition codeunit_collation : string -> string -> Z := default_compare.

(** A host without [window], and a browser with an empty [localStorage]. *)
Definition headless : Host := mkHost false ∅.
Definition browser : Host := mkHost true ∅.

(** ** Invariants and order-independence: the notions used below *)

(** Distinct property keys, and any two primary columns have the same key. *)
Definition columns_ok (cols : list ColumnMeta) : Prop :=
  NoDup (map propertyKey cols) /\
  forall c1 c2, In c1 cols -> In c2 cols ->
    is_primary c1 = true -> is_primary c2 = true -> propertyKey c1 = propertyKey c2.

(** Every descriptor of the registry has such columns. *)
Definition registry_ok (reg : Registry) : Prop :=
  forall i meta, byCtor reg !! i = Some meta -> columns_ok (columns meta).

(** The merged map has distinct keys, each the property key of its column. *)
Definition merged_ok (m : list (string * ColumnMeta)) : Prop :=
  NoDup (map fst m) /\ forall e, In e m -> propertyKey (snd e) = fst e.

(** The order in which [sort] leaves two elements. *)
Definition cmp_le {A : Type} (cmp : A -> A -> Z) (a b : A) : Prop := cmp a b <= 0.

(** The same descriptor up to the order of its columns. *)
Definition meta_equiv (m1 m2 : EntityMeta) : Prop :=
  target m1 = target m2 /\ tableName m1 = tableName m2 /\ columns m1 ≡ₚ columns m2.

(** The same descriptors up to the order of tables and columns. *)
Definition registry_equiv (r1 r2 : Registry) : Prop :=
  byTable r1 ≡ₚ byTable r2 /\
  forall i,
    match byCtor r1 !! i, byCtor r2 !! i with
    | Some m1, Some m2 => meta_equiv m1 m2
    | None, None => True
    | _, _ => False
    end.

(** Table names are distinct and lead to the descriptor of that name, and
    the property keys of a descriptor are distinct. *)
Definition registry_wf (r : Registry) : Prop :=
  NoDup (map fst (byTable r)) /\
  (forall n i, In (n, i) (byTable r) ->
     exists m, byCtor r !! i = Some m /\ tableName m = n) /\
  (forall i m, byCtor r !! i = Some m -> NoDup (map propertyKey (columns m))).

(** The class a registration is about. *)
Definition op_ctor (op : Operation) : list Ctor :=
  match op with
  | OpAddEntity c _ => [c]
  | OpAddColumn (Some c) _ _ => [c]
  | _ => []
  end.

(** The explicit name that a call of [addEntity] gives to the class of
    identity [i]: one that is neither empty nor the name of the class. *)
Definition entity_name (c : Ctor) (name : option string) (i : nat) : list string :=
  match name with
  | Some n =>
      if Nat.eqb (ctor_id c) i && negb (String.eqb n EmptyString)
         && negb (String.eqb n (ctor_name c))
      then [n] else []
  | None => []
  end.

(** What a registration contributes to the class of identity [i]: an
    explicit name, a column, and the property it registers. *)
Definition op_name (i : nat) (op : Operation) : list string :=
  match op with
  | OpAddEntity c name => entity_name c name i
  | _ => []
  end.

Definition op_column (i : nat) (op : Operation) : list ColumnMeta :=
  match op with
  | OpAddColumn (Some c) key opts =>
      if Nat.eqb (ctor_id c) i then [mkColumn key (spread no_options opts)] else []
  | _ => []
  end.

Definition op_slot (op : Operation) : list (nat * string) :=
  match op with
  | OpAddColumn (Some c) key _ => [(ctor_id c, key)]
  | _ => []
  end.

(** [addEntity] and [addColumn], as opposed to reset and seal. *)
Definition is_registration (op : Operation) : bool :=
  match op with
  | OpAddEntity _ _ | OpAddColumn _ _ _ => true
  | _ => false
  end.

(** Registrations in sequence; the first that throws ends the run. *)
Fixpoint run_ops (ops : list Operation) (reg : Registry) : Registry * outcome unit :=
  match ops with
  | [] => (reg, Return tt)
  | op :: rest =>
      match run_op op reg with
      | (reg', Return _) => run_ops rest reg'
      | (reg', Throw e) => (reg', Throw e)
      end
  end.

(** One identity, one class. *)
Definition consistent (ctors : list Ctor) : Prop :=
  forall c1 c2, In c1 ctors -> In c2 ctors -> ctor_id c1 = ctor_id c2 -> c1 = c2.

(** What a registry holds after registrations that named the classes
    [ctors], gave the explicit names [names i] and the columns [cols i] to
    the class of identity [i]. *)
Definition registry_tracks (ctors : list Ctor) (names : nat -> list string)
    (cols : nat -> list ColumnMeta) (reg : Registry) : Prop :=
  sealed reg = false /\
  (forall c, In c ctors -> byCtor reg !! ctor_id c <> None) /\
  (forall i meta, byCtor reg !! i = Some meta ->
     ctor_id (target meta) = i /\ In (target meta) ctors /\
     columns meta = cols i /\
     tableName meta <> EmptyString /\
     (forall n, In n (names i) -> tableName meta = n) /\
     (names i = [] -> tableName meta = ctor_name (target meta))) /\
  NoDup (map fst (byTable reg)) /\
  (forall n i, In (n, i) (byTable reg) <->
               exists meta, byCtor reg !! i = Some meta /\ tableName meta = n).

(** Names and columns belong to classes that were named, and an explicit
    name differs from the name of its class. *)
Definition summary_ok (ctors : list Ctor) (names : nat -> list string)
    (cols : nat -> list ColumnMeta) : Prop :=
  (forall i n, In n (names i) ->
     exists c, In c ctors /\ ctor_id c = i /\ n <> ctor_name c) /\
  (forall i col, In col (cols i) -> exists c, In c ctors /\ ctor_id c = i).

(** The classes, explicit names, columns and registered properties of a
    list of registrations. *)
Definition ops_ctors (ops : list Operation) : list Ctor := flat_map op_ctor ops.
Definition ops_names (ops : list Operation) (i : nat) : list string :=
  flat_map (op_name i) ops.
Definition ops_columns (ops : list Operation) (i : nat) : list ColumnMeta :=
  flat_map (op_column i) ops.
Definition ops_slots (ops : list Operation) : list (nat * string) := flat_map op_slot ops.

(** One property registered twice with different options, in both orders. *)
Definition registrations_twice : list Operation :=
  [OpAddColumn (Some User) "id" (auto_options true);
   OpAddColumn (Some User) "id" (auto_options false)].

Definition registrations_twice_reversed : list Operation :=
  [OpAddColumn (Some User) "id" (auto_options false);
   OpAddColumn (Some User) "id" (auto_options true)].

(** Distinct registrations of which one order runs and another throws: the
    second class takes the default name of the first once that one has been
    renamed. *)
Definition registrations_rename : list Operation :=
  [OpAddColumn (Some User) "id" primary_options;
   OpAddEntity User (Some "people");
   OpAddEntity Admin (Some "User")].

Definition registrations_rename_swapped : list Operation :=
  [OpAddColumn (Some User) "id" primary_options;
   OpAddEntity Admin (Some "User");
   OpAddEntity User (Some "people")].

(** Registrations of distinct properties of two classes, in both orders. *)
Definition registrations_once : list Operation :=
  [OpAddColumn (Some User) "id" primary_options;
   OpAddColumn (Some Admin) "name" no_options;
   OpAddEntity Admin (Some "admins")].

Definition registrations_once_reversed : list Operation :=
  [OpAddEntity Admin (Some "admins");
   OpAddColumn (Some Admin) "name" no_options;
   OpAddColumn (Some User) "id" primary_options].

(** ** The decorators, [./core/decorators] *)

Module Decorators.

(** [entity(name)(target)] *)
Definition entity (name : option string) (target : Ctor) (reg : Registry)
    : Registry * outcome unit :=
  addEntity target name reg.

(** [column(options)(target, propertyKey)]; [constructor] is the
    [constructor] member of the decorated target, as for [addColumn]. *)
Definition column (opts : ColumnOptions) (constructor : option Ctor) (propKey : string)
    (reg : Registry) : Registry * outcome unit :=
  addColumn constructor propKey opts reg.

(** [primaryColumn(options)], which is [column({ ...options, primary: true })] *)
Definition primaryColumn (opts : ColumnOptions) (constructor : option Ctor)
    (propKey : string) (reg : Registry) : Registry * outcome unit :=
  column (spread opts (mkOptions (Some true) None)) constructor propKey reg.

End Decorators.

(** ** The database class [Database] of [./core] *)

Module Database.

(** The instance: its [name], the flag [initialized], and the declarations
    [this.version(version).stores(schema)] that the store has accepted so
    far. *)
Record Database : Type := mkDatabase {
  name : string;
  initialized : bool;
  versions : list (jsvalue * list (string * string))
}.

(** [new Database(name)] before its constructor calls [init]. *)
Definition create (name : option string) : Database :=
  mkDatabase (match name with Some n => n | None => "default" end) false [].

Section Init.

Variable localeCompare : string -> string -> Z.
Variable JSON_parse : string -> option jsvalue.
Variable ToPrimitive : jsvalue -> outcome jsvalue.

(** Modelled from the spec: [this.version(version).stores(schema)], the
    declaration of the schema at that version (section 6), which the store
    accepts or refuses by throwing. *)
Variable version_stores : jsvalue -> list (string * string) -> outcome unit.

(** Modelled from the spec: [this.open()], which opens the store of that
    name with the versions declared, and may fail (section 6). *)
Variable open : string -> list (jsvalue * list (string * string)) -> outcome unit.

(** The instance, the registry and the host after the call.  A throw of
    [getVersion] or of the declaration leaves [init] before
    [sealRegistry]. *)
Definition init (db : Database) (reg : Registry) (host : Host)
    : (Database * Registry * Host) * outcome unit :=
  if initialized db then ((db, reg, host), Return tt)
  else
    match buildSchema localeCompare reg with
    | Throw e => ((db, reg, host), Throw e)
    | Return schema =>
        match getVersion localeCompare JSON_parse ToPrimitive host (name db) schema with
        | (host1, Throw e) => ((db, reg, host1), Throw e)
        | (host1, Return version) =>
            match version_stores version schema with
            | Throw e => ((db, reg, host1), Throw e)
            | Return _ =>
                let db1 :=
                  mkDatabase (name db) (initialized db)
                    (versions db ++ [(version, schema)]) in
                (* Prevent further registry mutations at runtime post open *)
                let reg1 := sealRegistry reg in
                match open (name db1) (versions db1) with
                | Throw e => ((db1, reg1, host1), Throw e)
                | Return _ =>
                    ((mkDatabase (name db1) true (versions db1), reg1, host1), Return tt)
                end
            end
        end
    end.

End Init.

(** [tableFor(entity)], as the name of the table that it asks of the
    database. *)
Definition tableFor (entity : Ctor) (reg : Registry) : outcome string :=
  let meta := getEntityMeta entity reg in
  let tableName_ :=
    match meta with
    | Some m => Some (tableName m)
    | None => None
    end in
  match tableName_ with
  | Some n =>
      if String.eqb n EmptyString then Throw ("Entity not registered: " +:+ ctor_name entity)
      else Return n
  | None => Throw ("Entity not registered: " +:+ ctor_name entity)
  end.

End Database.

(** ** Notions used by the further properties *)

(** The opposite direction, and an ordering with every direction turned. *)
Definition opposite (dir : direction) : direction :=
  match dir with asc => desc | desc => asc end.

Definition reversed (ob : OrderBy) : OrderBy :=
  map (fun e => (fst e, option_map opposite (snd e))) ob.

Definition reversed_arg (orderBy : OrderByArg) : OrderByArg :=
  match orderBy with
  | OrderByAbsent => OrderByAbsent
  | OrderByOne ob => OrderByOne (reversed ob)
  | OrderByList obs => OrderByList (map reversed obs)
  end.

(** Two records, and an ordering by descending [age], then [name]. *)
Definition ann : jsvalue := VObj 10 [("name", VStr "Ann"); ("age", VNum (Fin 20))].
Definition bob : jsvalue := VObj 11 [("name", VStr "Bob"); ("age", VNum (Fin 20))].
Definition by_age_then_name : OrderByArg :=
  OrderByList [[("age", Some desc)]; [("name", Some asc)]].

(** Every stored record holds a value at the key path. *)
Definition holds_keys (t : Table) : Prop :=
  forall key rec, In (key, rec) (rows t) -> getKeyFromEntity (keyPath t) rec <> VUndefined.

(** No key is answered by two rows of the table. *)
Definition unique_keys (t : Table) : Prop :=
  forall i j row1 row2 key,
    rows t !! i = Some row1 -> rows t !! j = Some row2 ->
    key_eqb (fst row1) key = true -> key_eqb (fst row2) key = true -> i = j.

(** The conditions that name a simple key and nothing else: the key as a
    literal, or under [equals]. *)
Definition key_probe (k : string) (lit w : jsvalue) : Prop :=
  (exists r, w = VObj r [(k, lit)]) \/
  (exists r r', w = VObj r [(k, VObj r' [("equals", lit)])]).

(** A number other than [NaN], or a string. *)
Definition is_scalar_key (v : jsvalue) : bool :=
  match v with
  | VNum (Fin _) | VStr _ => true
  | _ => false
  end.

(** The records that [deleteMany] is to remove: those the predicate accepts
    and that hold a key. *)
Definition to_delete (IsLessThan : jsvalue -> jsvalue -> option bool)
    (t : Table) (w rec : jsvalue) : bool :=
  buildPredicate IsLessThan w rec
  && negb (strict_eq (getKeyFromEntity (keyPath t) rec) VUndefined).

(** The results of inserting records one by one, each into the table that
    the call before has left, whether it returned or threw; and the table
    after the last of them. *)
Fixpoint add_one_by_one (table_add : Table -> jsvalue -> Table * outcome jsvalue)
    (t : Table) (data : list jsvalue) : list (Table * outcome jsvalue) :=
  match data with
  | [] => []
  | item :: rest =>
      let result := table_add t item in
      result :: add_one_by_one table_add (fst result) rest
  end.

Definition returned {A : Type} (r : outcome A) : bool :=
  match r with
  | Return _ => true
  | Throw _ => false
  end.

Definition table_after (t : Table) (results : list (Table * outcome jsvalue)) : Table :=
  match last results with
  | Some result => fst result
  | None => t
  end.

(** A store that takes every record under the next number as its key, and
    whose bulk insertion always fails. *)
Definition appending_add (t : Table) (item : jsvalue) : Table * outcome jsvalue :=
  let key := VNum (Fin (Z.of_nat (length (rows t)) + 1)) in
  (mkTable (keyPath t) (rows t ++ [(key, item)]), Return key).

Definition failing_bulkAdd (t : Table) (data : list jsvalue)
    : Table * outcome (list jsvalue) :=
  (t, Throw "BulkError").

(** The two indexes of the registry hold the same descriptors: a table name
    leads to the identity whose descriptor bears that name, no name is
    listed twice, and a descriptor is filed under the identity of its
    target with a name that is not empty. *)
Definition indexes_agree (reg : Registry) : Prop :=
  NoDup (map fst (byTable reg)) /\
  (forall n i, In (n, i) (byTable reg) <->
     exists meta, byCtor reg !! i = Some meta /\ tableName meta = n) /\
  (forall i meta, byCtor reg !! i = Some meta ->
     ctor_id (target meta) = i /\ tableName meta <> EmptyString).

(** The message of [assertNotSealed]. *)
Definition sealed_message (action : string) : string :=
  "Registry is sealed; cannot " +:+ action +:+ " after database initialization.".

(** The columns registered for a class, none when the class has no
    descriptor; and the column of a property among them. *)
Definition declared_columns (c : Ctor) (reg : Registry) : list ColumnMeta :=
  match getEntityMeta c reg with
  | Some m => columns m
  | None => []
  end.

Definition column_of (key : string) (cols : list ColumnMeta) : option ColumnMeta :=
  List.find (fun col => String.eqb (propertyKey col) key) cols.

(** The column that the class nearest to the leaf declares for a property,
    the classes being listed from the leaf up to the root. *)
Fixpoint nearest_declaration (reg : Registry) (leaf_first : list Ctor) (key : string)
    : option ColumnMeta :=
  match leaf_first with
  | [] => None
  | c :: ancestors =>
      match column_of key (declared_columns c reg) with
      | Some col => Some col
      | None => nearest_declaration reg ancestors key
      end
  end.

(** A registry in which [Admin] overrides the primary column of [User] and
    adds a column of its own. *)
Definition registry_with_admin : Registry :=
  fst (run_ops
         [OpAddColumn (Some User) "id" primary_options;
          OpAddColumn (Some Admin) "id" (auto_options true);
          OpAddColumn (Some Admin) "name" no_options]
         empty_registry).

(** A store that accepts every declaration, and opens. *)
Definition accepts_declaration (version : jsvalue) (schema : list (string * string)) : outcome unit :=
  Return tt.

Definition opens (name : string) (versions : list (jsvalue * list (string * string)))
    : outcome unit :=
  Return tt.

(** * Properties *)

(** ** The examples of the specification, evaluated *)

Example predicate_age_range :
  let w := VObj 1 [("age", VObj 2 [("gte", VNum (Fin 18)); ("lt", VNum (Fin 65))])] in
  buildPredicate IsLessThan_same_type w (VObj 3 [("age", VNum (Fin 30))]) = true /\
  buildPredicate IsLessThan_same_type w (VObj 4 [("age", VNum (Fin 17))]) = false /\
  buildPredicate IsLessThan_same_type w (VObj 5 [("age", VNum (Fin 70))]) = false.
Proof. repeat split. Qed.

Example predicate_startsWith :
  let w := VObj 1 [("name", VObj 2 [("startsWith", VStr "A")])] in
  buildPredicate IsLessThan_same_type w (VObj 3 [("name", VStr "Alice")]) = true /\
  buildPredicate IsLessThan_same_type w (VObj 4 [("name", VStr "bob")]) = false.
Proof. repeat split. Qed.

Example predicate_OR :
  let w := VObj 1 [("OR", VArr 2 [VObj 3 [("status", VStr "active")];
                                   VObj 4 [("status", VStr "pending")]])] in
  buildPredicate IsLessThan_same_type w (VObj 5 [("status", VStr "active")]) = true /\
  buildPredicate IsLessThan_same_type w (VObj 6 [("status", VStr "pending")]) = true /\
  buildPredicate IsLessThan_same_type w (VObj 7 [("status", VStr "closed")]) = false.
Proof. repeat split. Qed.

Example predicate_NOT :
  let w := VObj 1 [("NOT", VObj 2 [("status", VStr "closed")])] in
  buildPredicate IsLessThan_same_type w (VObj 3 [("status", VStr "open")]) = true /\
  buildPredicate IsLessThan_same_type w (VObj 4 [("status", VStr "closed")]) = false.
Proof. repeat split. Qed.

Example key_fast_path :
  tryBuildKeyFromWhere (KeyPathSimple "id") (VObj 1 [("id", VNum (Fin 1))]) = VNum (Fin 1) /\
  tryBuildKeyFromWhere (KeyPathSimple "id")
    (VObj 1 [("id", VNum (Fin 1)); ("name", VStr "Ann")]) = VUndefined /\
  tryBuildKeyFromWhere (KeyPathCompound ["a"; "b"])
    (VObj 1 [("b", VNum (Fin 2)); ("a", VObj 2 [("equals", VStr "x")])])
  = VArr fresh_ref [VStr "x"; VNum (Fin 2)].
Proof. repeat split. Qed.

Example schema_of_user :
  let reg1 := fst (addColumn (Some User) "id" (auto_options true) empty_registry) in
  let reg2 := fst (addColumn (Some User) "name" no_options reg1) in
  let reg3 := fst (addColumn (Some User) "age" no_options reg2) in
  buildSchema codeunit_collation reg3 = Return [("User", "++id, age, name")].
Proof. reflexivity. Qed.

Example signature_of_schema :
  computeSignature codeunit_collation [("b", "x, y"); ("a", "++id")] =
  "[[" +:+ dquote +:+ "a" +:+ dquote +:+ "," +:+ dquote +:+ "++id" +:+ dquote +:+ "],[" +:+
  dquote +:+ "b" +:+ dquote +:+ "," +:+ dquote +:+ "x, y" +:+ dquote +:+ "]]".
Proof. reflexivity. Qed.

(** ** Lists *)

Lemma forallb_ext_in {A : Type} (f g : A -> bool) (l : list A) :
  (forall x, In x l -> f x = g x) -> forallb f l = forallb g l.
Proof.
  induction l as [|x l IH]; intros H; [done|]. cbn.
  rewrite (H x (or_introl eq_refl)), IH; [done|].
  intros y Hy. apply H. by right.
Qed.

Lemma existsb_ext_in {A : Type} (f g : A -> bool) (l : list A) :
  (forall x, In x l -> f x = g x) -> existsb f l = existsb g l.
Proof.
  induction l as [|x l IH]; intros H; [done|]. cbn.
  rewrite (H x (or_introl eq_refl)), IH; [done|].
  intros y Hy. apply H. by right.
Qed.

(** ** Values and depth *)

Lemma depth_lookup_prop k props r :
  (depth (lookup_prop k props) < depth (VObj r props))%nat \/
  lookup_prop k props = VUndefined.
Proof.
  induction props as [|[k' v] rest IH]; [by right|].
  cbn [lookup_prop]. destruct (String.eqb k' k).
  - left. cbn. lia.
  - destruct IH as [IH|IH]; [left|by right]. cbn in *. lia.
Qed.

Lemma depth_lookup_index k i items r :
  (depth (lookup_index k i items) < depth (VArr r items))%nat \/
  lookup_index k i items = VUndefined.
Proof.
  revert i. induction items as [|x rest IH]; intros i; [by right|].
  cbn [lookup_index]. destruct (String.eqb (index_key i) k).
  - left. cbn. lia.
  - destruct (IH (S i)) as [H|H]; [left|by right]. cbn in *. lia.
Qed.

Lemma depth_item x items r :
  In x items -> (depth x < depth (VArr r items))%nat.
Proof.
  induction items as [|y rest IH]; intros Hin; [destruct Hin|].
  destruct Hin as [->|Hin]; cbn in *; [lia|].
  specialize (IH Hin). lia.
Qed.

Lemma lookup_index_chars k i s :
  isArray (lookup_index k i (chars s)) = false /\
  isObject (lookup_index k i (chars s)) = false.
Proof.
  revert i. induction s as [|c s IH]; intros i; cbn; [done|].
  destruct (String.eqb (index_key i) k); [done|apply IH].
Qed.

(** A property that is an array or an object lies strictly deeper. *)
Lemma depth_get_prop w k :
  isArray (get_prop w k) || isObject (get_prop w k) = true ->
  (depth (get_prop w k) < depth w)%nat.
Proof.
  destruct w as [| | | | s | | r items | r props]; cbn [get_prop]; try discriminate.
  - destruct (String.eqb k "length"); [discriminate|].
    destruct (lookup_index_chars k 0 s) as [-> ->]. discriminate.
  - destruct (String.eqb k "length"); [discriminate|].
    destruct (depth_lookup_index k 0 items r) as [H | ->]; [auto|discriminate].
  - destruct (depth_lookup_prop k props r) as [H | ->]; [auto|discriminate].
Qed.

Section QueryEngineProperties.

Variable IsLessThan : jsvalue -> jsvalue -> option bool.

(** The body reads [self] only at conditions nested strictly deeper. *)
Lemma buildPredicate_body_ext (self1 self2 : jsvalue -> jsvalue -> bool) w item :
  (forall sub, (depth sub < depth w)%nat -> self1 sub item = self2 sub item) ->
  buildPredicate_body IsLessThan self1 w item = buildPredicate_body IsLessThan self2 w item.
Proof.
  intros Hself. unfold buildPredicate_body.
  assert (Hnode : forall k, isArray (get_prop w k) || isObject (get_prop w k) = true ->
                            self1 (get_prop w k) item = self2 (get_prop w k) item).
  { intros k Hk. apply Hself, depth_get_prop, Hk. }
  assert (Hsubs : forall k r subs sub, get_prop w k = VArr r subs -> In sub subs ->
                                       self1 sub item = self2 sub item).
  { intros k r subs sub Hk Hin. apply Hself.
    transitivity (depth (get_prop w k)).
    - rewrite Hk. by apply depth_item.
    - apply depth_get_prop. by rewrite Hk. }
  destruct (negb (truthy w)); [done|].
  destruct (negb (forallb _ _)); [done|].
  assert (HAND :
    match get_prop w "AND" with
    | VArr _ subs => forallb (fun sub => self1 sub item) subs
    | _ => if truthy (get_prop w "AND") && isObject (get_prop w "AND")
           then self1 (get_prop w "AND") item else true
    end =
    match get_prop w "AND" with
    | VArr _ subs => forallb (fun sub => self2 sub item) subs
    | _ => if truthy (get_prop w "AND") && isObject (get_prop w "AND")
           then self2 (get_prop w "AND") item else true
    end).
  { specialize (Hnode "AND"). specialize (Hsubs "AND").
    destruct (get_prop w "AND") as [| | | | | | r subs | ];
      cbn in *; rewrite ?andb_false_r; try done.
    - by rewrite Hnode.
    - apply forallb_ext_in. intros sub Hin. exact (Hsubs _ _ sub eq_refl Hin).
    - by rewrite Hnode. }
  rewrite HAND. destruct (negb _); [done|].
  assert (HOR :
    match get_prop w "OR" with
    | VArr _ subs =>
        if negb (Nat.eqb (length subs) 0)
        then existsb (fun sub => self1 sub item) subs else true
    | _ => true
    end =
    match get_prop w "OR" with
    | VArr _ subs =>
        if negb (Nat.eqb (length subs) 0)
        then existsb (fun sub => self2 sub item) subs else true
    | _ => true
    end).
  { specialize (Hsubs "OR").
    destruct (get_prop w "OR") as [| | | | | | r subs | ]; auto.
    destruct (negb _); [|done].
    apply existsb_ext_in. intros sub Hin. exact (Hsubs _ _ sub eq_refl Hin). }
  rewrite HOR. destruct (negb _); [done|].
  specialize (Hnode "NOT"). specialize (Hsubs "NOT").
  destruct (get_prop w "NOT") as [| | | | | | r subs | ];
    cbn in *; rewrite ?andb_false_r; try done.
  - by rewrite Hnode.
  - apply forallb_ext_in. intros sub Hin. f_equal. exact (Hsubs _ _ sub eq_refl Hin).
  - by rewrite Hnode.
Qed.

(** Any fuel above the depth of the condition gives the same verdict. *)
Lemma buildPredicate_fuel_enough n m w item :
  (depth w < n)%nat -> (depth w < m)%nat ->
  buildPredicate_fuel IsLessThan n w item = buildPredicate_fuel IsLessThan m w item.
Proof.
  revert m w. induction n as [|n IH]; intros m w Hn Hm; [lia|].
  destruct m as [|m]; [lia|]. cbn [buildPredicate_fuel].
  apply buildPredicate_body_ext. intros sub Hsub. apply IH; lia.
Qed.

(** [buildPredicate] satisfies the recursive equation of the source. *)
Lemma buildPredicate_unfold w item :
  buildPredicate IsLessThan w item = buildPredicate_body IsLessThan (buildPredicate IsLessThan) w item.
Proof.
  unfold buildPredicate at 1. cbn [buildPredicate_fuel].
  apply buildPredicate_body_ext. intros sub Hsub.
  unfold buildPredicate. apply buildPredicate_fuel_enough; lia.
Qed.

End QueryEngineProperties.

Lemma str_in_In l k : str_in l k = true <-> In k l.
Proof.
  unfold str_in. rewrite existsb_exists. split.
  - intros (x & Hx & E). apply String.eqb_eq in E. by subst.
  - intros H. exists k. split; [done|apply String.eqb_refl].
Qed.

Lemma str_in_not_In l k : str_in l k = false <-> ~ In k l.
Proof.
  rewrite <- str_in_In. destruct (str_in l k); split; done.
Qed.

Lemma lookup_prop_filter (f : string -> bool) k props :
  f k = true ->
  lookup_prop k (List.filter (fun e => f (fst e)) props) = lookup_prop k props.
Proof.
  intros Hk. induction props as [|[k' v] rest IH]; [done|]. cbn.
  destruct (String.eqb k' k) eqn:E.
  - apply String.eqb_eq in E. subst k'. rewrite Hk. cbn. by rewrite String.eqb_refl.
  - destruct (f k'); cbn; [by rewrite E|done].
Qed.

Lemma get_prop_strip_logical item k :
  str_in logical k = false -> get_prop (strip_logical item) k = get_prop item k.
Proof.
  intros Hk. destruct item; try done. cbn.
  apply (lookup_prop_filter (fun x => negb (str_in logical x))). by rewrite Hk.
Qed.

Section PredicateProperties.

Variable IsLessThan : jsvalue -> jsvalue -> option bool.

(** The body reads the record only at keys that are not logical keys. *)
Lemma buildPredicate_body_item_ext (self : jsvalue -> jsvalue -> bool) w item item' :
  (forall k, str_in logical k = false -> get_prop item k = get_prop item' k) ->
  (forall sub, self sub item = self sub item') ->
  buildPredicate_body IsLessThan self w item = buildPredicate_body IsLessThan self w item'.
Proof.
  intros Hitem Hself. unfold buildPredicate_body.
  destruct (negb (truthy w)); [done|].
  rewrite (forallb_ext_in
             (fun k => evalFieldFilter IsLessThan (get_prop item k) (get_prop w k))
             (fun k => evalFieldFilter IsLessThan (get_prop item' k) (get_prop w k))).
  2:{ intros k Hk. apply filter_In in Hk as [_ Hk].
      rewrite Hitem; [done|]. by destruct (str_in logical k). }
  destruct (negb (forallb _ _)); [done|].
  assert (HA : forall node,
    match node with
    | VArr _ subs => forallb (fun sub => self sub item) subs
    | _ => if truthy node && isObject node then self node item else true
    end =
    match node with
    | VArr _ subs => forallb (fun sub => self sub item') subs
    | _ => if truthy node && isObject node then self node item' else true
    end).
  { intros node. destruct node; rewrite ?Hself; try done.
    apply forallb_ext_in. intros; apply Hself. }
  rewrite HA. destruct (negb _); [done|].
  assert (HO : forall node,
    match node with
    | VArr _ subs =>
        if negb (Nat.eqb (length subs) 0)
        then existsb (fun sub => self sub item) subs else true
    | _ => true
    end =
    match node with
    | VArr _ subs =>
        if negb (Nat.eqb (length subs) 0)
        then existsb (fun sub => self sub item') subs else true
    | _ => true
    end).
  { intros node. destruct node; try done. destruct (negb _); [|done].
    apply existsb_ext_in. intros; apply Hself. }
  rewrite HO. destruct (negb _); [done|].
  destruct (get_prop w "NOT"); rewrite ?Hself; try done.
  apply forallb_ext_in. intros sub _. by rewrite Hself.
Qed.

Lemma buildPredicate_item_ext w item item' :
  (forall k, str_in logical k = false -> get_prop item k = get_prop item' k) ->
  buildPredicate IsLessThan w item = buildPredicate IsLessThan w item'.
Proof.
  intros Hitem. unfold buildPredicate.
  generalize (S (depth w)). intros n. revert w.
  induction n as [|n IH]; intros w; [done|]. cbn [buildPredicate_fuel].
  by apply buildPredicate_body_item_ext.
Qed.

(** C6: for every where-condition and every record, the compiled predicate
    accepts the record if and only if every field-level filter holds,
    every condition under [AND] holds, at least one condition of a
    non-empty [OR] list holds, and no condition under [NOT] holds. *)
Theorem buildPredicate_accepts_iff (r : nat) (props : list (string * jsvalue))
    (item : jsvalue) :
  let w := VObj r props in
  let accepts := fun sub => buildPredicate IsLessThan sub item in
  buildPredicate IsLessThan w item = true <->
    fields_hold IsLessThan w item /\
    AND_holds accepts (get_prop w "AND") /\
    OR_holds accepts (get_prop w "OR") /\
    NOT_holds accepts (get_prop w "NOT").
Proof.
  intros w accepts. rewrite buildPredicate_unfold.
  unfold buildPredicate_body. change (truthy w) with true. cbn [negb].
  set (F := forallb _ (List.filter _ _)).
  assert (HF : F = true <-> fields_hold IsLessThan w item).
  { unfold F, fields_hold. rewrite forallb_forall. split.
    - intros H k Hk Hl. apply H, filter_In. split; [done|].
      apply str_in_not_In in Hl. by rewrite Hl.
    - intros H k Hk. apply filter_In in Hk as [Hk Hl]. apply H; [done|].
      apply str_in_not_In. by destruct (str_in logical k). }
  set (A := match get_prop w "AND" with VArr _ _ => _ | _ => _ end).
  assert (HA : A = true <-> AND_holds accepts (get_prop w "AND")).
  { unfold A, AND_holds. destruct (get_prop w "AND");
      cbn [truthy isObject andb]; rewrite ?andb_false_r; try done.
    by rewrite forallb_forall. }
  set (O := match get_prop w "OR" with VArr _ _ => _ | _ => _ end).
  assert (HO : O = true <-> OR_holds accepts (get_prop w "OR")).
  { unfold O, OR_holds. destruct (get_prop w "OR") as [| | | | | | r' subs|]; try done.
    destruct subs as [|s subs]; [cbn; by intuition|].
    change (negb (Nat.eqb (length (s :: subs)) 0)) with true. cbv iota.
    rewrite existsb_exists. split; [by right|]. by intros [?|?]. }
  set (N := match get_prop w "NOT" with VArr _ _ => _ | _ => _ end).
  assert (HN : N = true <-> NOT_holds accepts (get_prop w "NOT")).
  { unfold N, NOT_holds. destruct (get_prop w "NOT");
      cbn [truthy isObject andb]; rewrite ?andb_false_r; try done.
    all: unfold accepts; try apply negb_true_iff.
    rewrite forallb_forall.
    split; intros H sub Hin; specialize (H sub Hin); by apply negb_true_iff. }
  rewrite <- HF, <- HA, <- HO, <- HN.
  destruct F, A, O, N; cbn; intuition congruence.
Qed.

(** C9: for every field value and every operand that is not an array,
    [{notIn: x}] accepts the value and [{in: x}] rejects it. *)
Theorem notIn_accepts_in_rejects_non_array (r : nat) (value x : jsvalue) :
  isArray x = false ->
  evalFieldFilter IsLessThan value (VObj r [("notIn", x)]) = true /\
  evalFieldFilter IsLessThan value (VObj r [("in", x)]) = false.
Proof.
  intros Hx. destruct x; try discriminate; by cbn.
Qed.

End PredicateProperties.

Lemma notIn_accepts_in_rejects_non_array_witness :
  evalFieldFilter IsLessThan_same_type (VStr "a") (VObj 1 [("notIn", VNum (Fin 5))]) = true /\
  evalFieldFilter IsLessThan_same_type (VStr "a") (VObj 1 [("in", VNum (Fin 5))]) = false.
Proof.
  apply (notIn_accepts_in_rejects_non_array IsLessThan_same_type 1 (VStr "a") (VNum (Fin 5))).
  reflexivity.
Defined.

(** ** Ordering *)

Lemma strict_eq_undefined v : strict_eq v VUndefined = true <-> v = VUndefined.
Proof. destruct v; cbn; split; congruence. Qed.

Lemma strict_eq_null v : strict_eq v VNull = true <-> v = VNull.
Proof. destruct v; cbn; split; congruence. Qed.

Lemma strict_eq_undefined_false v : v <> VUndefined -> strict_eq v VUndefined = false.
Proof. intros H. destruct v; cbn; congruence. Qed.

Lemma strict_eq_null_false v : v <> VNull -> strict_eq v VNull = false.
Proof. intros H. destruct v; cbn; congruence. Qed.

Section OrderingProperties.

Variable IsLessThan : jsvalue -> jsvalue -> option bool.

Lemma compareUnknown_undefined_l b dir :
  b <> VUndefined -> compareUnknown IsLessThan VUndefined b dir = - sign_of dir.
Proof. intros Hb. destruct b, dir; try congruence; reflexivity. Qed.

Lemma compareUnknown_undefined_r a dir :
  a <> VUndefined -> compareUnknown IsLessThan a VUndefined dir = sign_of dir.
Proof. intros Ha. destruct a, dir; try congruence; reflexivity. Qed.

Lemma compareUnknown_null_l b dir :
  b <> VUndefined -> b <> VNull -> compareUnknown IsLessThan VNull b dir = - sign_of dir.
Proof. intros Hb Hb'. destruct b, dir; try congruence; reflexivity. Qed.

Lemma compareUnknown_null_r a dir :
  a <> VUndefined -> a <> VNull -> compareUnknown IsLessThan a VNull dir = sign_of dir.
Proof. intros Ha Ha'. destruct a, dir; try congruence; reflexivity. Qed.

Lemma compareParts_app pre parts a b :
  compareParts IsLessThan (pre ++ parts) a b =
  if negb (Z.eqb (compareParts IsLessThan pre a b) 0)
  then compareParts IsLessThan pre a b
  else compareParts IsLessThan parts a b.
Proof.
  induction pre as [|[k dir] pre IH]; [done|]. cbn [app compareParts].
  destruct (negb (Z.eqb (compareUnknown IsLessThan (get_prop a k) (get_prop b k) dir) 0))
    eqn:E; [by rewrite E|exact IH].
Qed.

(** C3, amended: let [k] be the first field of the ordering on which the
    comparator separates two records.  When the value of [k] is [undefined]
    (or absent) in one record and not in the other, or [null] in one and
    defined in the other, the comparator answers [-1] times the sign of the
    direction: [undefined] before [null] before defined values under [asc],
    and the reverse under [desc]. *)
Theorem comparator_places_undefined_null (orderBy : OrderByArg)
    (pre : list (string * direction)) (k : string) (dir : direction)
    (rest : list (string * direction)) (a b : jsvalue) :
  normalizeOrderBy orderBy = pre ++ (k, dir) :: rest ->
  compareParts IsLessThan pre a b = 0 -> compareParts IsLessThan pre b a = 0 ->
  exists cmp, toComparator IsLessThan orderBy = Some cmp /\
    (get_prop a k = VUndefined -> get_prop b k <> VUndefined ->
     cmp a b = - sign_of dir /\ cmp b a = sign_of dir) /\
    (get_prop a k = VNull -> get_prop b k <> VUndefined -> get_prop b k <> VNull ->
     cmp a b = - sign_of dir /\ cmp b a = sign_of dir).
Proof.
  intros Hparts Hab Hba. exists (compareParts IsLessThan (pre ++ (k, dir) :: rest)). split.
  { unfold toComparator. rewrite Hparts. by destruct pre. }
  rewrite !compareParts_app, Hab, Hba. cbn [Z.eqb negb].
  split.
  - intros Ha Hb. cbn [compareParts]. rewrite Ha.
    rewrite compareUnknown_undefined_l, compareUnknown_undefined_r by done.
    by destruct dir.
  - intros Ha Hb Hb'. cbn [compareParts]. rewrite Ha.
    rewrite compareUnknown_null_l, compareUnknown_null_r by done.
    by destruct dir.
Qed.

End OrderingProperties.

(** C3 as stated fails: under [desc] a record whose field is absent sorts
    after a record whose field is [null], and that one after a record with a
    defined value. *)
Lemma comparator_desc_reverses_placement :
  exists cmp,
    toComparator IsLessThan_same_type (OrderByOne [("x", Some desc)]) = Some cmp /\
    cmp (VObj 1 [("id", VNum (Fin 1))])
        (VObj 2 [("id", VNum (Fin 2)); ("x", VNull)]) = 1 /\
    cmp (VObj 2 [("id", VNum (Fin 2)); ("x", VNull)])
        (VObj 3 [("id", VNum (Fin 3)); ("x", VNum (Fin 7))]) = 1.
Proof. eexists. split; [reflexivity|]. split; reflexivity. Qed.

Lemma comparator_places_undefined_null_witness :
  (exists cmp,
     toComparator IsLessThan_same_type (OrderByOne [("x", Some desc)]) = Some cmp /\
     cmp (VObj 1 []) (VObj 2 [("x", VNull)]) = - sign_of desc /\
     cmp (VObj 2 [("x", VNull)]) (VObj 1 []) = sign_of desc) /\
  (exists cmp,
     toComparator IsLessThan_same_type
       (OrderByList [[("team", Some desc)]; [("x", Some asc)]]) = Some cmp /\
     cmp (VObj 2 [("team", VStr "a"); ("x", VNull)])
         (VObj 3 [("team", VStr "a"); ("x", VNum (Fin 7))]) = - sign_of asc /\
     cmp (VObj 3 [("team", VStr "a"); ("x", VNum (Fin 7))])
         (VObj 2 [("team", VStr "a"); ("x", VNull)]) = sign_of asc).
Proof.
  split.
  - destruct (comparator_places_undefined_null IsLessThan_same_type
                (OrderByOne [("x", Some desc)]) [] "x" desc []
                (VObj 1 []) (VObj 2 [("x", VNull)]) eq_refl eq_refl eq_refl)
      as (cmp & Hcmp & Hundef & _).
    exists cmp. split; [exact Hcmp|]. apply Hundef; [reflexivity|discriminate].
  - destruct (comparator_places_undefined_null IsLessThan_same_type
                (OrderByList [[("team", Some desc)]; [("x", Some asc)]])
                [("team", desc)] "x" asc []
                (VObj 2 [("team", VStr "a"); ("x", VNull)])
                (VObj 3 [("team", VStr "a"); ("x", VNum (Fin 7))])
                eq_refl eq_refl eq_refl)
      as (cmp & Hcmp & _ & Hnull).
    exists cmp. split; [exact Hcmp|]. apply Hnull; [reflexivity|discriminate|discriminate].
Defined.

(** ** Insertion-ordered maps *)

Lemma Map_set_keys {V : Type} (m : list (string * V)) k v :
  map fst (Map_set m k v) =
  if str_in (map fst m) k then map fst m else map fst m ++ [k].
Proof.
  induction m as [|[k' v'] rest IH]; [done|]. cbn.
  destruct (String.eqb k' k) eqn:E; cbn; [done|].
  rewrite IH. unfold str_in. by destruct (existsb _ _).
Qed.

Lemma Map_set_In {V : Type} (m : list (string * V)) k v e :
  In e (Map_set m k v) -> e = (k, v) \/ In e m.
Proof.
  induction m as [|[k' v'] rest IH]; cbn.
  - intros [<-|[]]. by left.
  - destruct (String.eqb k' k) eqn:E.
    + apply String.eqb_eq in E as ->. intros [<-|H]; [by left|right; by right].
    + intros [<-|H]; [right; by left|]. destruct (IH H); [by left|right; by right].
Qed.

Lemma Map_set_NoDup {V : Type} (m : list (string * V)) k v :
  NoDup (map fst m) -> NoDup (map fst (Map_set m k v)).
Proof.
  intros Hnd. rewrite Map_set_keys. destruct (str_in (map fst m) k) eqn:E; [done|].
  apply str_in_not_In in E. apply NoDup_app. split; [done|]. split; [|apply NoDup_singleton].
  intros x Hx Hx'. apply list_elem_of_singleton in Hx'. subst x.
  by apply list_elem_of_In in Hx.
Qed.

(** ** Key extraction *)

Lemma fromEntries_keys_aux (keys : list string) (acc : list (string * jsvalue)) :
  NoDup (map fst acc) ->
  let props := fold_left (fun acc e => Map_set acc (fst e) (snd e))
                 (map (fun k => (k, VBool true)) keys) acc in
  NoDup (map fst props) /\
  (forall x, In x (map fst props) <-> In x (map fst acc) \/ In x keys).
Proof.
  revert acc. induction keys as [|k keys IH]; intros acc Hacc; cbn.
  { split; [done|]. intros x. by intuition. }
  assert (Hstep : NoDup (map fst (Map_set acc k (VBool true))) /\
                  forall x, In x (map fst (Map_set acc k (VBool true))) <->
                            In x (map fst acc) \/ x = k).
  { rewrite Map_set_keys. destruct (str_in (map fst acc) k) eqn:E.
    - apply str_in_In in E. split; [done|]. intros x. split; [by left|].
      intros [?| ->]; done.
    - apply str_in_not_In in E. split.
      + apply NoDup_app. split; [done|]. split; [|apply NoDup_singleton].
        intros x Hx Hx'. apply list_elem_of_In in Hx. apply list_elem_of_singleton in Hx'.
        by subst.
      + intros x. rewrite in_app_iff. cbn. by intuition. }
  destruct Hstep as [Hnd Hin]. destruct (IH _ Hnd) as [IH1 IH2]. split; [done|].
  intros x. rewrite IH2, Hin. by intuition.
Qed.

(** The keys of [Object.fromEntries(keys.map(k => [k, true]))] are the
    distinct members of [keys]. *)
Lemma fromEntries_keys (keys : list string) :
  let objKeys := Object_keys (Object_fromEntries (map (fun k => (k, VBool true)) keys)) in
  NoDup objKeys /\ forall x, In x objKeys <-> In x keys.
Proof.
  cbn. destruct (fromEntries_keys_aux keys [] (NoDup_nil_2 : NoDup (map fst (@nil (string * jsvalue))))) as [H1 H2].
  split; [done|]. intros x. rewrite H2. cbn. by intuition.
Qed.

Lemma hasOnlyKeys_true obj keys :
  hasOnlyKeys obj keys = true ->
  length (Object_keys obj) = length keys /\
  forall k, In k keys -> In k (Object_keys obj).
Proof.
  unfold hasOnlyKeys. destruct (Nat.eqb _ _) eqn:E; [|discriminate]. cbn.
  intros H. split; [by apply Nat.eqb_eq|].
  intros k Hk. apply str_in_In. by eapply forallb_forall in H.
Qed.

Lemma lookup_map {A B : Type} (f : A -> B) (l : list A) (i : nat) :
  map f l !! i = f <$> (l !! i).
Proof.
  revert i. induction l as [|x l IH]; intros [|i]; cbn; done.
Qed.

Lemma singleton_of_length {A : Type} (l : list A) (k : A) :
  length l = 1%nat -> In k l -> l = [k].
Proof.
  destruct l as [|x [|y l]]; try done. by intros _ [->|[]].
Qed.

(** C2, amended: a key is extracted only if the field-level keys of the
    condition are exactly the components of the primary key.  For a simple
    key the filter of that field is then either a value that is not an
    object, which is the key, or an object, whose [equals] entry is the key
    whatever other operators it carries.  For a compound key the result is
    the tuple, in declared order, of the literal or the [equals] entry of
    each component. *)
Theorem tryBuildKeyFromWhere_extracts (kp : KeyPath) (w key : jsvalue) :
  tryBuildKeyFromWhere kp w = key -> key <> VUndefined ->
  let fieldKeys := List.filter (fun k => negb (str_in logical k)) (Object_keys w) in
  match kp with
  | KeyPathNone => False
  | KeyPathSimple k =>
      (forall x, In x fieldKeys <-> x = k) /\
      let raw := get_prop w k in
      (isObject raw = false /\ key = raw) \/
      (isObject raw = true /\ key = get_prop raw "equals")
  | KeyPathCompound ks =>
      (NoDup ks -> forall x, In x fieldKeys <-> In x ks) /\
      exists r parts, key = VArr r parts /\ length parts = length ks /\
        forall i k, ks !! i = Some k ->
          let raw := get_prop w k in
          (isObject raw = false -> parts !! i = Some raw) /\
          (isObject raw = true -> get_prop raw "equals" <> VUndefined ->
           parts !! i = Some (get_prop raw "equals"))
  end.
Proof.
  intros <- Hkey fieldKeys. unfold tryBuildKeyFromWhere in *.
  destruct (negb (truthy w)); [done|].
  fold fieldKeys in Hkey |- *.
  destruct (fromEntries_keys fieldKeys) as [Hnd Hin].
  destruct kp as [|k|ks]; [done| |].
  - destruct (String.eqb k EmptyString); [done|].
    destruct (hasOnlyKeys _ [k]) eqn:E; [|done]. cbn [negb] in *.
    apply hasOnlyKeys_true in E as [Hlen Hk].
    apply singleton_of_length with (k := k) in Hlen; [|apply Hk; by left].
    split.
    { intros x. rewrite <- Hin, Hlen. cbn. by intuition. }
    destruct (strict_eq (get_prop w k) VUndefined); [done|].
    destruct (isObject (get_prop w k)); [by right|by left].
  - destruct (hasOnlyKeys _ ks) eqn:E; [|done]. cbn [negb] in *.
    apply hasOnlyKeys_true in E as [Hlen Hk].
    split.
    { intros Hks x. rewrite <- Hin. split; [|apply Hk].
      revert x. apply NoDup_length_incl; [by apply NoDup_ListNoDup|lia|done]. }
    eexists _, _. split; [reflexivity|]. split; [apply length_map|].
    intros i k Hi. rewrite lookup_map, Hi. cbn.
    split; [by intros ->|by intros -> _].
Qed.

(** C2 as stated fails: the key is extracted from a filter that carries
    another operator besides [equals]. *)
Lemma tryBuildKeyFromWhere_ignores_other_operators :
  tryBuildKeyFromWhere (KeyPathSimple "id")
    (VObj 1 [("id", VObj 2 [("equals", VNum (Fin 1)); ("gt", VNum (Fin 0))])])
  = VNum (Fin 1).
Proof. reflexivity. Qed.

Lemma tryBuildKeyFromWhere_extracts_witness :
  (forall x, In x ["id"] <-> x = "id") /\
  ((isObject (VObj 2 [("equals", VNum (Fin 1))]) = false /\
    VNum (Fin 1) = VObj 2 [("equals", VNum (Fin 1))]) \/
   (isObject (VObj 2 [("equals", VNum (Fin 1))]) = true /\
    VNum (Fin 1) = get_prop (VObj 2 [("equals", VNum (Fin 1))]) "equals")).
Proof.
  apply (tryBuildKeyFromWhere_extracts (KeyPathSimple "id")
           (VObj 1 [("id", VObj 2 [("equals", VNum (Fin 1))]); ("AND", VArr 3 [])])
           (VNum (Fin 1))).
  - reflexivity.
  - discriminate.
Defined.

(** ** Logical keys *)

Lemma filter_keys_strip (props : list (string * jsvalue)) :
  List.filter (fun k => negb (str_in logical k))
    (map fst (List.filter (fun e => negb (str_in logical (fst e))) props)) =
  List.filter (fun k => negb (str_in logical k)) (map fst props).
Proof.
  induction props as [|[k v] rest IH]; [done|]. cbn [List.filter map fst].
  destruct (negb (str_in logical k)) eqn:E; cbn [List.filter map fst]; rewrite ?E, IH; done.
Qed.

Lemma fieldKeys_strip_logical w :
  List.filter (fun k => negb (str_in logical k)) (Object_keys (strip_logical w)) =
  List.filter (fun k => negb (str_in logical k)) (Object_keys w).
Proof. destruct w; try done. apply filter_keys_strip. Qed.

Lemma truthy_strip_logical w : truthy (strip_logical w) = truthy w.
Proof. by destruct w. Qed.

(** A key that passed [hasOnlyKeys] is one of the field-level keys. *)
Lemma hasOnlyKeys_fieldKeys w ks k :
  hasOnlyKeys
    (Object_fromEntries
       (map (fun k => (k, VBool true))
          (List.filter (fun k => negb (str_in logical k)) (Object_keys w)))) ks = true ->
  In k ks -> str_in logical k = false.
Proof.
  intros H Hk. apply hasOnlyKeys_true in H as [_ H].
  apply H, fromEntries_keys, filter_In in Hk as [_ Hk]. by destruct (str_in logical k).
Qed.

Lemma tryBuildKeyFromWhere_strip_logical kp w :
  tryBuildKeyFromWhere kp w = tryBuildKeyFromWhere kp (strip_logical w).
Proof.
  unfold tryBuildKeyFromWhere.
  rewrite truthy_strip_logical, fieldKeys_strip_logical.
  destruct (negb (truthy w)); [done|]. destruct kp as [|k|ks]; [done| |].
  - destruct (String.eqb k EmptyString); [done|].
    destruct (hasOnlyKeys _ [k]) eqn:E; [|done]. cbn [negb].
    rewrite get_prop_strip_logical; [done|].
    eapply hasOnlyKeys_fieldKeys; [exact E|by left].
  - destruct (hasOnlyKeys _ ks) eqn:E; [|done]. cbn [negb]. f_equal.
    apply map_ext_in. intros k Hk.
    rewrite get_prop_strip_logical; [done|]. by eapply hasOnlyKeys_fieldKeys.
Qed.

Lemma tryBuildKeyFromWhere_logical_simple k w :
  In k logical -> tryBuildKeyFromWhere (KeyPathSimple k) w = VUndefined.
Proof.
  intros Hk. unfold tryBuildKeyFromWhere.
  destruct (negb (truthy w)); [done|]. destruct (String.eqb k EmptyString); [done|].
  destruct (hasOnlyKeys _ [k]) eqn:E; [|done].
  apply hasOnlyKeys_fieldKeys with (k := k) in E; [|by left].
  apply str_in_not_In in E. done.
Qed.

Lemma tryBuildKeyFromWhere_logical_compound ks k w :
  In k logical -> In k ks -> tryBuildKeyFromWhere (KeyPathCompound ks) w = VUndefined.
Proof.
  intros Hk Hks. unfold tryBuildKeyFromWhere.
  destruct (negb (truthy w)); [done|].
  destruct (hasOnlyKeys _ ks) eqn:E; [|done].
  apply hasOnlyKeys_fieldKeys with (k := k) in E; [|done].
  apply str_in_not_In in E. done.
Qed.

Section LogicalKeys.

Variable IsLessThan : jsvalue -> jsvalue -> option bool.

(** The clauses that the compiled predicate checks: the filters of the
    keys that are not logical, and the combinators under the logical
    keys. *)
Lemma buildPredicate_clauses (r : nat) (props : list (string * jsvalue)) (item : jsvalue) :
  let w := VObj r props in
  let accepts := fun sub => buildPredicate IsLessThan sub item in
  buildPredicate IsLessThan w item = true <->
    fields_hold IsLessThan w item /\
    AND_holds accepts (get_prop w "AND") /\
    OR_holds accepts (get_prop w "OR") /\
    NOT_holds accepts (get_prop w "NOT").
Proof.
  intros w accepts. rewrite buildPredicate_unfold.
  unfold buildPredicate_body. change (truthy w) with true. cbn [negb].
  set (F := forallb _ (List.filter _ _)).
  set (A := match get_prop w "AND" with VArr _ _ => _ | _ => _ end).
  set (O := match get_prop w "OR" with VArr _ _ => _ | _ => _ end).
  set (N := match get_prop w "NOT" with VArr _ _ => _ | _ => _ end).
  assert (HF : F = true <-> fields_hold IsLessThan w item).
  { unfold F, fields_hold. rewrite forallb_forall. split.
    - intros H k Hk Hl. apply H, filter_In. split; [done|].
      apply str_in_not_In in Hl. by rewrite Hl.
    - intros H k Hk. apply filter_In in Hk as [Hk Hl]. apply H; [done|].
      apply str_in_not_In. by destruct (str_in logical k). }
  assert (HA : A = true <-> AND_holds accepts (get_prop w "AND")).
  { unfold A, AND_holds. destruct (get_prop w "AND");
      cbn [truthy isObject andb]; rewrite ?andb_false_r; try done.
    by rewrite forallb_forall. }
  assert (HO : O = true <-> OR_holds accepts (get_prop w "OR")).
  { unfold O, OR_holds. destruct (get_prop w "OR") as [| | | | | | r' subs|]; try done.
    destruct subs as [|s subs]; [cbn; by intuition|].
    change (negb (Nat.eqb (length (s :: subs)) 0)) with true. cbv iota.
    rewrite existsb_exists. split; [by right|]. by intros [?|?]. }
  assert (HN : N = true <-> NOT_holds accepts (get_prop w "NOT")).
  { unfold N, NOT_holds. destruct (get_prop w "NOT");
      cbn [truthy isObject andb]; rewrite ?andb_false_r; try done.
    all: unfold accepts; try apply negb_true_iff.
    rewrite forallb_forall.
    split; intros H sub Hin; specialize (H sub Hin); by apply negb_true_iff. }
  rewrite <- HF, <- HA, <- HO, <- HN.
  destruct F, A, O, N; cbn; intuition congruence.
Qed.

(** C10: the keys [AND], [OR] and [NOT] are read as the logical
    combinators and never as field-level keys.  The compiled predicate
    accepts a record exactly when the filters under the other keys hold
    and what stands under [AND], [OR] and [NOT] holds as a combinator; its
    verdict does not depend on the fields of the record that carry these
    names; the key extraction reads nothing under them, and a primary key
    that has such a name as a component is never extracted. *)
Theorem logical_keys_are_never_fields :
  (forall r props item,
     let w := VObj r props in
     let accepts := fun sub => buildPredicate IsLessThan sub item in
     buildPredicate IsLessThan w item = true <->
       fields_hold IsLessThan w item /\
       AND_holds accepts (get_prop w "AND") /\
       OR_holds accepts (get_prop w "OR") /\
       NOT_holds accepts (get_prop w "NOT")) /\
  (forall w item,
     buildPredicate IsLessThan w item = buildPredicate IsLessThan w (strip_logical item)) /\
  (forall kp w, tryBuildKeyFromWhere kp w = tryBuildKeyFromWhere kp (strip_logical w)) /\
  (forall k w, In k logical -> tryBuildKeyFromWhere (KeyPathSimple k) w = VUndefined) /\
  (forall ks k w, In k logical -> In k ks ->
     tryBuildKeyFromWhere (KeyPathCompound ks) w = VUndefined).
Proof.
  split; [|split; [|split; [|split]]].
  - apply buildPredicate_clauses.
  - intros w item. apply buildPredicate_item_ext. intros k Hk.
    symmetry. by apply get_prop_strip_logical.
  - apply tryBuildKeyFromWhere_strip_logical.
  - apply tryBuildKeyFromWhere_logical_simple.
  - apply tryBuildKeyFromWhere_logical_compound.
Qed.

End LogicalKeys.

Lemma logical_keys_are_never_fields_witness :
  (buildPredicate IsLessThan_same_type
     (VObj 1 [("NOT", VObj 2 [("age", VNum (Fin 7))])])
     (VObj 3 [("age", VNum (Fin 7)); ("NOT", VObj 2 [("age", VNum (Fin 7))])]) = true
   <-> False) /\
  tryBuildKeyFromWhere (KeyPathSimple "NOT") (VObj 1 [("NOT", VNum (Fin 1))]) = VUndefined /\
  tryBuildKeyFromWhere (KeyPathCompound ["id"; "OR"])
    (VObj 1 [("id", VNum (Fin 1)); ("OR", VNum (Fin 2))]) = VUndefined.
Proof.
  destruct (logical_keys_are_never_fields IsLessThan_same_type)
    as (Hclauses & _ & _ & Hsimple & Hcompound).
  split; [|split].
  - rewrite Hclauses. split; [|done]. intros (_ & _ & _ & Hnot). discriminate Hnot.
  - apply Hsimple. cbn. auto.
  - apply (Hcompound _ "OR"); cbn; auto.
Defined.

(** ** The query service *)

Lemma truthy_nullish_null got :
  truthy (nullish got VNull) = true -> nullish got VNull = got.
Proof. by destruct got. Qed.

Lemma first_filter_In (f : jsvalue -> bool) (l : list jsvalue) :
  truthy (nullish (first (List.filter f l)) VNull) = true ->
  In (nullish (first (List.filter f l)) VNull) l.
Proof.
  intros H. rewrite (truthy_nullish_null _ H) in *.
  destruct (List.filter f l) as [|x rest] eqn:E; [done|]. cbn.
  assert (Hx : In x (List.filter f l)) by (rewrite E; by left).
  by apply filter_In in Hx as [Hx _].
Qed.

Lemma first_In (l : list jsvalue) :
  truthy (nullish (first l) VNull) = true -> In (nullish (first l) VNull) l.
Proof.
  intros H. rewrite (truthy_nullish_null _ H) in *.
  destruct l as [|x rest]; [done|]. by left.
Qed.

Section ServiceProperties.

Variable IsLessThan : jsvalue -> jsvalue -> option bool.

(** A record that [findUnique] resolves by a scan is a stored record. *)
Lemma collectionForWhere_first_In t w :
  let target := nullish (first (PrismaService.collectionForWhere IsLessThan t w)) VNull in
  truthy target = true -> exists k0, In (k0, target) (rows t).
Proof.
  intros target Htarget. unfold target, PrismaService.collectionForWhere in *.
  assert (Hin : In target (toCollection t)).
  { unfold target. destruct (negb (truthy w)).
    - by apply first_In.
    - by apply first_filter_In. }
  unfold toCollection in Hin. apply in_map_iff in Hin as ([k0 r] & Hr & Hin).
  cbn in Hr. subst r. by exists k0.
Qed.

(** C8, amended: [delete] fails with the not-found error, the table
    unchanged, when [findUnique] resolves no record.  When it resolves a
    record, the key is the one extracted from the condition, else the one
    read from the record; if there is none, [delete] fails with the
    key-resolution error, the table unchanged; otherwise the record is
    stored under that key, the rows under that key are removed, and the
    record is returned as it was. *)
Theorem delete_resolves_or_fails (t : Table) (w : jsvalue) :
  wf_table t ->
  (forall target, PrismaService.findUnique IsLessThan t w = Return target -> truthy target = false ->
     PrismaService.delete IsLessThan t w = (t, Throw "Record to delete not found.")) /\
  (forall target, PrismaService.findUnique IsLessThan t w = Return target -> truthy target = true ->
     let key := nullish (tryBuildKeyFromWhere (keyPath t) w)
                        (getKeyFromEntity (keyPath t) target) in
     (key = VUndefined ->
      PrismaService.delete IsLessThan t w = (t, Throw "Unable to resolve primary key for delete.")) /\
     (key <> VUndefined ->
      (exists k0, In (k0, target) (rows t) /\ key_eqb k0 key = true) /\
      PrismaService.delete IsLessThan t w =
        (mkTable (keyPath t)
           (List.filter (fun row => negb (key_eqb (fst row) key)) (rows t)),
         Return target))).
Proof.
  intros Hwf. split.
  - intros target Hfind Hfalsy. unfold PrismaService.delete. by rewrite Hfind, Hfalsy.
  - intros target Hfind Htruthy key. unfold PrismaService.delete.
    rewrite Hfind, Htruthy. cbn [negb]. fold key. split.
    + intros ->. done.
    + intros Hkey. rewrite (strict_eq_undefined_false _ Hkey).
      unfold PrismaService.findUnique in Hfind.
      destruct (strict_eq (tryBuildKeyFromWhere (keyPath t) w) VUndefined) eqn:Efast;
        cbn [negb] in Hfind.
      * (* scan *)
        apply strict_eq_undefined in Efast.
        injection Hfind as Hfind. subst target.
        destruct (collectionForWhere_first_In t w Htruthy) as [k0 Hin].
        unfold key in *. rewrite Efast in *. cbn [nullish] in *.
        destruct (Hwf _ _ Hin) as [_ Hrec]. destruct (Hrec Hkey) as [Hvalid Heq].
        split; [by exists k0|]. unfold table_delete. by rewrite Hvalid.
      * (* direct lookup *)
        unfold table_get in Hfind.
        destruct (valid_key (tryBuildKeyFromWhere (keyPath t) w)) eqn:Hvalid; [|done].
        assert (Hk : key = tryBuildKeyFromWhere (keyPath t) w).
        { unfold key. by destruct (tryBuildKeyFromWhere (keyPath t) w). }
        rewrite Hk. unfold table_delete. rewrite Hvalid.
        split; [|done].
        destruct (List.find _ (rows t)) as [[k0 r]|] eqn:Efind.
        -- apply find_some in Efind as [Hin Heq]. cbn in Heq, Hfind.
           injection Hfind as Hfind. rewrite <- Hfind in Htruthy.
           rewrite (truthy_nullish_null _ Htruthy) in Hfind. subst r. by exists k0.
        -- injection Hfind as Hfind. by subst target.
Qed.

End ServiceProperties.

(** C8 as stated fails: [findUnique] resolves a record of a table without a
    key path, and [delete] neither reports it as not found nor removes it. *)
Lemma delete_unresolved_key_keeps_record :
  let w := VObj 1 [("name", VStr "Ann")] in
  wf_table notes_table /\
  PrismaService.findUnique IsLessThan_same_type notes_table w =
    Return (VObj 10 [("name", VStr "Ann")]) /\
  PrismaService.delete IsLessThan_same_type notes_table w =
    (notes_table, Throw "Unable to resolve primary key for delete.").
Proof.
  split; [|split; reflexivity].
  intros k r [H|[]]. injection H as <- <-. by cbn.
Qed.

Lemma wf_users_table : wf_table users_table.
Proof.
  intros k r [H|[H|[]]]; injection H as <- <-; by cbn.
Qed.

Lemma delete_resolves_or_fails_witness :
  (exists k0,
     In (k0, VObj 11 [("id", VNum (Fin 2)); ("name", VStr "Bob")]) (rows users_table) /\
     key_eqb k0 (VNum (Fin 2)) = true) /\
  PrismaService.delete IsLessThan_same_type users_table (VObj 1 [("name", VStr "Bob")]) =
    (mkTable (KeyPathSimple "id")
       [(VNum (Fin 1), VObj 10 [("id", VNum (Fin 1)); ("name", VStr "Ann")])],
     Return (VObj 11 [("id", VNum (Fin 2)); ("name", VStr "Bob")])).
Proof.
  destruct (delete_resolves_or_fails IsLessThan_same_type users_table
              (VObj 1 [("name", VStr "Bob")]) wf_users_table) as [_ Hfound].
  apply (Hfound (VObj 11 [("id", VNum (Fin 2)); ("name", VStr "Bob")])).
  - reflexivity.
  - reflexivity.
  - discriminate.
Defined.

(** ** The registry: at most one primary column *)

Lemma columns_ok_at_most_one cols : columns_ok cols -> at_most_one_primary cols.
Proof.
  intros [Hnd Hprim]. unfold at_most_one_primary.
  induction cols as [|c cols IH]; [cbn; lia|].
  cbn in Hnd. apply NoDup_cons in Hnd as [Hc Hnd].
  assert (IH' : (length (List.filter is_primary cols) <= 1)%nat).
  { apply IH; [done|]. intros c1 c2 H1 H2. apply Hprim; by right. }
  cbn. destruct (is_primary c) eqn:Ec; [|done]. cbn.
  destruct (List.filter is_primary cols) as [|c' rest] eqn:E; [cbn; lia|].
  exfalso. assert (Hc' : In c' (List.filter is_primary cols)) by (rewrite E; by left).
  apply filter_In in Hc' as [Hin Hp].
  apply Hc. rewrite (Hprim c c'); [|by left|by right|done|done].
  apply list_elem_of_In, in_map, Hin.
Qed.

Lemma findIndex_Some {A : Type} (f : A -> bool) (l : list A) (i : nat) :
  findIndex f l = Some i ->
  exists l1 x l2, l = l1 ++ x :: l2 /\ length l1 = i /\ f x = true.
Proof.
  revert i. induction l as [|y l IH]; intros i; [done|]. cbn.
  destruct (f y) eqn:E.
  - intros [= <-]. by exists [], y, l.
  - destruct (findIndex f l) as [j|]; [|done]. intros [= <-].
    destruct (IH j eq_refl) as (l1 & x & l2 & -> & <- & Hx).
    by exists (y :: l1), x, l2.
Qed.

Lemma findIndex_None {A : Type} (f : A -> bool) (l : list A) :
  findIndex f l = None -> forall x, In x l -> f x = false.
Proof.
  induction l as [|y l IH]; [done|]. cbn.
  destruct (f y) eqn:E; [done|].
  destruct (findIndex f l); [done|]. intros _ x [<-|Hx]; [done|by apply IH].
Qed.

(** The upsert of [addColumn], given that its guard has passed. *)
Lemma columns_ok_upsert cols key opts :
  columns_ok cols ->
  (is_true_opt (primary opts) = true ->
   forall c, In c cols -> is_primary c = true -> propertyKey c = key) ->
  let idx := findIndex (fun c => String.eqb (propertyKey c) key) cols in
  let col :=
    mkColumn key
      (spread
         (match idx with
          | Some i => match cols !! i with Some c => options c | None => no_options end
          | None => no_options
          end) opts) in
  columns_ok (match idx with Some i => <[i := col]> cols | None => cols ++ [col] end).
Proof.
  intros [Hnd Hprim] Hguard idx col.
  assert (Hcol : is_primary col = true ->
            forall c, In c cols -> is_primary c = true -> propertyKey c = key).
  { intros Hp. destruct (is_true_opt (primary opts)) eqn:Eo; [by apply Hguard|].
    unfold col, is_primary, spread in Hp. cbn in Hp.
    destruct (primary opts) as [[|]|] eqn:Ep; try done.
    destruct idx as [i|] eqn:Ei; [|done].
    apply findIndex_Some in Ei as (l1 & x & l2 & -> & <- & Hx).
    rewrite list_lookup_middle in Hp by done.
    intros c Hc Hpc. apply String.eqb_eq in Hx. rewrite <- Hx.
    apply Hprim; [done|apply in_elt|done|done]. }
  assert (Hpair : forall new,
            (forall c, In c new -> c = col \/ In c cols) ->
            forall c1 c2, In c1 new -> In c2 new ->
              is_primary c1 = true -> is_primary c2 = true ->
              propertyKey c1 = propertyKey c2).
  { intros new Hnew c1 c2 H1 H2 Hp1 Hp2.
    destruct (Hnew _ H1) as [->|H1'], (Hnew _ H2) as [->|H2']; [done| | |by apply Hprim].
    - symmetry. by apply Hcol.
    - by apply Hcol. }
  destruct idx as [i|] eqn:Ei.
  - apply findIndex_Some in Ei as (l1 & x & l2 & -> & <- & Hx).
    apply String.eqb_eq in Hx.
    replace (<[length l1 := col]> (l1 ++ x :: l2)) with (l1 ++ col :: l2).
    2:{ rewrite insert_app_r_alt by lia. by rewrite Nat.sub_diag. }
    split.
    + rewrite map_app in *. cbn in *. by rewrite <- Hx.
    + apply Hpair. intros c Hc. rewrite in_app_iff in *. cbn in *. by intuition.
  - split.
    + rewrite map_app. cbn. apply NoDup_app. split; [done|]. split; [|apply NoDup_singleton].
      intros k Hk Hk'. apply list_elem_of_singleton in Hk'. subst k.
      apply list_elem_of_In, in_map_iff in Hk as (c & Hc & Hin).
      apply (findIndex_None _ _ Ei) in Hin. cbn in Hin. rewrite Hc in Hin.
      by rewrite String.eqb_refl in Hin.
    + apply Hpair. intros c Hc. rewrite in_app_iff in Hc. cbn in Hc. by intuition.
Qed.

Lemma registry_ok_insert reg i meta :
  registry_ok reg -> columns_ok (columns meta) ->
  forall j m, <[i := meta]> (byCtor reg) !! j = Some m -> columns_ok (columns m).
Proof.
  intros Hreg Hmeta j m. rewrite lookup_insert. destruct (decide (i = j)).
  - by intros [= <-].
  - apply Hreg.
Qed.

Lemma columns_ok_nil : columns_ok [].
Proof. split; [apply NoDup_nil_2|]. by intros c1 c2 []. Qed.

(** [ensureEntityMeta] returns the descriptor that [byCtor] holds, and
    changes nothing when it throws. *)
Lemma ensureEntityMeta_Return target name reg reg' meta :
  ensureEntityMeta target name reg = (reg', Return meta) ->
  byCtor reg' !! ctor_id target = Some meta /\
  sealed reg' = sealed reg /\
  (registry_ok reg -> registry_ok reg').
Proof.
  unfold ensureEntityMeta.
  destruct (byCtor reg !! ctor_id target) as [m|] eqn:Em.
  - destruct name as [name|].
    + destruct (negb (String.eqb name EmptyString) && negb (String.eqb (tableName m) name)).
      * destruct (match Map_get (byTable reg) name with Some _ => _ | None => _ end); [done|].
        destruct (String.eqb (tableName m) (ctor_name target)); [|done].
        intros [= <- <-]. cbn. rewrite lookup_insert_eq. split; [done|]. split; [done|].
        intros Hreg j mj. apply registry_ok_insert; [done|]. cbn. by eapply Hreg.
      * by intros [= <- <-].
    + by intros [= <- <-].
  - destruct (String.eqb _ EmptyString); [done|].
    destruct (match Map_get (byTable reg) _ with Some _ => _ | None => _ end); [done|].
    intros [= <- <-]. cbn. rewrite lookup_insert_eq. split; [done|]. split; [done|].
    intros Hreg j mj. apply registry_ok_insert; [done|]. apply columns_ok_nil.
Qed.

Lemma ensureEntityMeta_Throw target name reg reg' e :
  ensureEntityMeta target name reg = (reg', Throw e) -> reg' = reg.
Proof.
  unfold ensureEntityMeta.
  destruct (byCtor reg !! ctor_id target) as [m|].
  - destruct name as [name|]; [|done].
    destruct (negb (String.eqb name EmptyString) && negb (String.eqb (tableName m) name));
      [|done].
    destruct (match Map_get (byTable reg) name with Some _ => _ | None => _ end);
      [by intros [= <- _]|].
    destruct (String.eqb (tableName m) (ctor_name target)); [done|by intros [= <- _]].
  - destruct (String.eqb _ EmptyString); [by intros [= <- _]|].
    destruct (match Map_get (byTable reg) _ with Some _ => _ | None => _ end);
      [by intros [= <- _]|done].
Qed.

Lemma addEntity_ok target name reg :
  registry_ok reg -> registry_ok (fst (addEntity target name reg)).
Proof.
  intros Hreg. unfold addEntity. destruct (assertNotSealed _ reg); [|done].
  destruct (ensureEntityMeta target name reg) as [reg' [meta|e]] eqn:E; cbn.
  - by apply ensureEntityMeta_Return in E as (_ & _ & H); auto.
  - by apply ensureEntityMeta_Throw in E as ->.
Qed.

Lemma addColumn_ok constructor propKey opts reg :
  registry_ok reg -> registry_ok (fst (addColumn constructor propKey opts reg)).
Proof.
  intros Hreg. unfold addColumn. destruct (assertNotSealed _ reg); [|done].
  destruct constructor as [ctor|]; [|done].
  destruct (ensureEntityMeta ctor None reg) as [reg1 [meta|e]] eqn:E.
  2:{ by apply ensureEntityMeta_Throw in E as ->. }
  apply ensureEntityMeta_Return in E as (Hmeta & _ & Hreg1). specialize (Hreg1 Hreg).
  destruct (is_true_opt (autoIncrement opts) && negb (is_true_opt (primary opts))); [done|].
  destruct (if is_true_opt (primary opts) then List.find _ (columns meta) else None)
    as [existing|] eqn:Eguard; [done|].
  cbn [fst byCtor]. intros j m. apply registry_ok_insert; [done|]. cbn [columns set_columns].
  apply columns_ok_upsert; [by eapply Hreg1|].
  intros Hp c Hc Hpc. rewrite Hp in Eguard.
  apply (find_none _ _ Eguard) in Hc. cbn in Hc. unfold is_primary in Hpc.
  rewrite Hpc in Hc. cbn in Hc. apply negb_false_iff, String.eqb_eq in Hc. done.
Qed.

Lemma reachable_ok reg : reachable reg -> registry_ok reg.
Proof.
  induction 1 as [|op reg Hreach IH].
  - intros i meta. cbn. by rewrite lookup_empty.
  - destruct op as [target name|constructor propKey opts| |]; cbn [run_op].
    + by apply addEntity_ok.
    + by apply addColumn_ok.
    + intros i meta. cbn. by rewrite lookup_empty.
    + exact IH.
Qed.

(** ** Resolution across an inheritance chain *)

Lemma merged_ok_columns cols m :
  merged_ok m ->
  merged_ok
    (fold_left
       (fun columnsMap c =>
          let cloned := mkColumn (propertyKey c) (options c) in
          Map_set columnsMap (propertyKey cloned) cloned)
       cols m).
Proof.
  revert m. induction cols as [|c cols IH]; intros m Hm; [done|]. cbn.
  apply IH. destruct Hm as [Hnd Hkeys]. split.
  - by apply Map_set_NoDup.
  - intros e He. apply Map_set_In in He as [->|He]; [done|by apply Hkeys].
Qed.

Lemma merged_ok_chain_from chain reg m :
  merged_ok m ->
  merged_ok
    (fold_left
       (fun (columnsMap : list (string * ColumnMeta)) ctor =>
          match byCtor reg !! ctor_id ctor with
          | None => columnsMap
          | Some m =>
              fold_left
                (fun columnsMap c =>
                   let cloned := mkColumn (propertyKey c) (options c) in
                   Map_set columnsMap (propertyKey cloned) cloned)
                (columns m) columnsMap
          end)
       chain m).
Proof.
  revert m. induction chain as [|ctor chain IH]; intros m Hm; [done|]. cbn.
  apply IH. destruct (byCtor reg !! ctor_id ctor); [|done]. by apply merged_ok_columns.
Qed.

Lemma mergedColumns_ok chain reg : merged_ok (mergedColumns chain reg).
Proof.
  apply merged_ok_chain_from. split; [apply NoDup_nil_2|]. by intros e [].
Qed.

Lemma merged_ok_values m : merged_ok m -> NoDup (map propertyKey (map snd m)).
Proof.
  intros [Hnd Hkeys]. rewrite map_map.
  rewrite (map_ext_in (fun x => propertyKey (snd x)) fst); [done|].
  intros e He. by apply Hkeys.
Qed.

Lemma Set_of_from (acc keys : list string) :
  NoDup (acc ++ keys) ->
  fold_left (fun acc k => if str_in acc k then acc else acc ++ [k]) keys acc = acc ++ keys.
Proof.
  revert acc. induction keys as [|k keys IH]; intros acc Hnd; cbn.
  - by rewrite app_nil_r.
  - assert (E : str_in acc k = false).
    { apply str_in_not_In. intros Hk. apply NoDup_app in Hnd as (_ & Hnd & _).
      apply (Hnd k); [by apply list_elem_of_In|by left]. }
    rewrite E, IH; rewrite <- app_assoc; done.
Qed.

Lemma Set_of_NoDup keys : NoDup keys -> Set_of keys = keys.
Proof. intros H. unfold Set_of. by rewrite Set_of_from. Qed.

Lemma NoDup_filter_map (f : ColumnMeta -> bool) cols :
  NoDup (map propertyKey cols) -> NoDup (map propertyKey (List.filter f cols)).
Proof.
  induction cols as [|c cols IH]; [done|]. cbn. intros Hnd.
  apply NoDup_cons in Hnd as [Hc Hnd]. destruct (f c); [|by apply IH].
  cbn. apply NoDup_cons. split; [|by apply IH].
  intros Hin. apply Hc. apply list_elem_of_In, in_map_iff in Hin as (c' & E & Hin).
  apply filter_In in Hin as [Hin _]. apply list_elem_of_In, in_map_iff. by exists c'.
Qed.

(** The number of distinct primary keys is the number of primary columns. *)
Lemma distinct_primaries_length chain reg :
  length (Set_of (map propertyKey
            (List.filter (fun c => is_true_opt (primary (options c)))
               (map snd (mergedColumns chain reg))))) =
  length (List.filter is_primary (map snd (mergedColumns chain reg))).
Proof.
  rewrite Set_of_NoDup.
  - by rewrite length_map.
  - apply NoDup_filter_map, merged_ok_values, mergedColumns_ok.
Qed.

Lemma resolveEntity_Return meta reg cols :
  resolveEntity meta reg = Return cols -> at_most_one_primary cols.
Proof.
  unfold resolveEntity. rewrite distinct_primaries_length.
  destruct (Nat.ltb 1 _) eqn:E; [done|]. intros [= <-].
  apply Nat.ltb_ge in E. exact E.
Qed.

Lemma resolveEntity_Throw meta reg c1 c2 :
  let merged := map snd (mergedColumns (chain_of (target meta)) reg) in
  In c1 merged -> In c2 merged ->
  is_primary c1 = true -> is_primary c2 = true ->
  propertyKey c1 <> propertyKey c2 ->
  exists e, resolveEntity meta reg = Throw e.
Proof.
  intros merged H1 H2 Hp1 Hp2 Hne. unfold resolveEntity.
  rewrite distinct_primaries_length. fold merged.
  assert (Hlen : (1 < length (List.filter is_primary merged))%nat).
  { assert (F1 : In c1 (List.filter is_primary merged)) by by apply filter_In.
    assert (F2 : In c2 (List.filter is_primary merged)) by by apply filter_In.
    destruct (List.filter is_primary merged) as [|x [|y rest]]; [done| |cbn; lia].
    destruct F1 as [<-|[]], F2 as [<-|[]]. done. }
  apply Nat.ltb_lt in Hlen. rewrite Hlen. by eexists.
Qed.

(** C7: every descriptor of a registry that the registry calls can produce
    carries at most one primary column; [addColumn] fails when another
    property of the descriptor is primary and the registration requests
    primary; a resolved entity has at most one primary column, and
    [resolveEntity] fails when the merged columns hold two primary columns of
    different property keys. *)
Theorem at_most_one_primary_column :
  (forall reg, reachable reg ->
     forall i meta, byCtor reg !! i = Some meta -> at_most_one_primary (columns meta)) /\
  (forall reg ctor meta other key opts,
     byCtor reg !! ctor_id ctor = Some meta ->
     In other (columns meta) -> is_primary other = true -> propertyKey other <> key ->
     is_true_opt (primary opts) = true ->
     exists e, addColumn (Some ctor) key opts reg = (reg, Throw e)) /\
  (forall reg meta cols,
     resolveEntity meta reg = Return cols -> at_most_one_primary cols) /\
  (forall reg meta c1 c2,
     let merged := map snd (mergedColumns (chain_of (target meta)) reg) in
     In c1 merged -> In c2 merged ->
     is_primary c1 = true -> is_primary c2 = true ->
     propertyKey c1 <> propertyKey c2 ->
     exists e, resolveEntity meta reg = Throw e).
Proof.
  split; [|split; [|split]].
  - intros reg Hreach i meta Hmeta.
    apply columns_ok_at_most_one. by eapply reachable_ok.
  - intros reg ctor meta other key opts Hmeta Hother Hprim Hkey Hopts.
    unfold addColumn. destruct (assertNotSealed _ reg); [|by eexists].
    unfold ensureEntityMeta. rewrite Hmeta, Hopts. cbn [negb andb].
    rewrite andb_false_r.
    destruct (List.find _ (columns meta)) as [existing|] eqn:E; [by eexists|].
    apply (find_none _ _ E) in Hother. cbn in Hother.
    unfold is_primary in Hprim. rewrite Hprim in Hother. cbn in Hother.
    apply negb_false_iff, String.eqb_eq in Hother. done.
  - intros reg meta cols. apply resolveEntity_Return.
  - intros reg meta c1 c2. apply resolveEntity_Throw.
Qed.

Lemma at_most_one_primary_column_witness :
  at_most_one_primary [mkColumn "id" primary_options] /\
  (exists e,
     addColumn (Some User) "email" (auto_options false) registry_with_id =
       (registry_with_id, Throw e)).
Proof.
  destruct at_most_one_primary_column as (Hreg & Hadd & _).
  split.
  - apply (Hreg registry_with_id (reachable_step _ _ reachable_init) 1%nat
             (mkMeta User "User" [mkColumn "id" primary_options])).
    reflexivity.
  - apply (Hadd registry_with_id User
             (mkMeta User "User" [mkColumn "id" primary_options])
             (mkColumn "id" primary_options)).
    + reflexivity.
    + by left.
    + reflexivity.
    + discriminate.
    + reflexivity.
Defined.

(** ** The version manager *)

Lemma round_to_double_safe (n : Z) :
  - 2 ^ 53 <= n <= 2 ^ 53 -> round_to_double n = n.
Proof.
  intros Hn. unfold round_to_double.
  destruct (Z.ltb_spec (Z.log2 (Z.abs n)) 53) as [Hlt|Hge]; [done|].
  assert (Habs : Z.abs n = 2 ^ 53).
  { destruct (Z.eq_dec (Z.abs n) (2 ^ 53)) as [|Hne]; [done|].
    assert (Hpos : 0 < Z.abs n).
    { destruct (Z.eq_dec (Z.abs n) 0) as [H0|]; [|lia].
      rewrite H0 in Hge. cbn in Hge. lia. }
    assert (Z.log2 (Z.abs n) < 53); [|lia].
    apply Z.log2_lt_pow2; lia. }
  assert (Hcases : n = 2 ^ 53 \/ n = - 2 ^ 53) by lia.
  clear Hge. destruct Hcases as [-> | ->]; vm_compute; reflexivity.
Qed.

Lemma strict_eq_VStr (s : string) (v : jsvalue) :
  strict_eq (VStr s) v = true <-> v = VStr s.
Proof.
  destruct v; cbn; try (split; [done|discriminate]).
  rewrite String.eqb_eq. split; [by intros ->|by intros [= ->]].
Qed.

Section VersionProperties.

Variable localeCompare : string -> string -> Z.
Variable JSON_parse : string -> option jsvalue.
Variable ToPrimitive : jsvalue -> outcome jsvalue.

(** A signature is never the empty string: it opens with a bracket. *)
Lemma computeSignature_not_empty schema :
  String.eqb (computeSignature localeCompare schema) EmptyString = false.
Proof. reflexivity. Qed.

Lemma JSON_stringify_record_not_empty version sig :
  String.eqb (JSON_stringify_record version sig) EmptyString = false.
Proof. reflexivity. Qed.

(** What [loadStoredVersion] reads after [storeVersion] has written. *)
Lemma loadStoredVersion_written (store : gmap string string) dbName written :
  loadStoredVersion JSON_parse (mkHost true (<[versionKey dbName := written]> store)) dbName
  = if String.eqb written EmptyString then default_version
    else match JSON_parse written with
         | Some stored => stored
         | None => default_version
         end.
Proof.
  unfold loadStoredVersion. cbn [window_defined localStorage negb].
  by rewrite lookup_insert_eq.
Qed.

(** The call on a stored object: the signature decides between the stored
    version and the sum. *)
Lemma getVersion_stored_object host dbName schema r props :
  loadStoredVersion JSON_parse host dbName = VObj r props ->
  getVersion localeCompare JSON_parse ToPrimitive host dbName schema =
  if strict_eq (VStr (computeSignature localeCompare schema)) (lookup_prop "signature" props)
  then (host, Return (lookup_prop "version" props))
  else
    match plus_one ToPrimitive (lookup_prop "version" props) with
    | Throw e => (host, Throw e)
    | Return sum =>
        let '(host', version') :=
          storeVersion host dbName sum (computeSignature localeCompare schema) in
        (host', Return (plus_to_value version'))
    end.
Proof. intros Hstored. unfold getVersion. by rewrite Hstored. Qed.

Lemma plus_one_safe v :
  - 2 ^ 53 <= v < 2 ^ 53 ->
  plus_one ToPrimitive (VNum (Fin v)) = Return (PlusNumber (Fin (v + 1))).
Proof.
  intros Hv. unfold plus_one. by rewrite round_to_double_safe by lia.
Qed.

(** C1, amended: without [window], [getVersion] reads and writes nothing
    and returns 2, the default version 1 plus one, for every database name
    and every schema. *)
Theorem getVersion_headless (host : Host) (dbName : string)
    (schema : list (string * string)) :
  window_defined host = false ->
  getVersion localeCompare JSON_parse ToPrimitive host dbName schema
  = (host, Return (VNum (Fin 2))).
Proof.
  intros Hwin.
  assert (Hstored : loadStoredVersion JSON_parse host dbName = default_version).
  { unfold loadStoredVersion. by rewrite Hwin. }
  rewrite (getVersion_stored_object host dbName schema _ _ Hstored).
  cbn [lookup_prop String.eqb Ascii.eqb Bool.eqb strict_eq].
  rewrite computeSignature_not_empty.
  unfold storeVersion. rewrite Hwin. reflexivity.
Qed.

(** C4, amended: with [window] available, the stored value an object whose
    [version] is an integer from -2^53 up to 2^53 - 1 (as is the default
    taken for an absent, empty or unparseable value), and the host reading
    back the record that is written: a second call with the same schema
    returns the version of the first and writes nothing; a signature that
    differs from the stored one gives the stored version plus one and
    stores it with the new signature; an equal signature gives the stored
    version and leaves the host untouched. *)
Theorem getVersion_stable_and_increments (host : Host) (dbName : string)
    (schema : list (string * string)) (r r' : nat) (props : list (string * jsvalue))
    (v : Z) :
  window_defined host = true ->
  loadStoredVersion JSON_parse host dbName = VObj r props ->
  lookup_prop "version" props = VNum (Fin v) ->
  - 2 ^ 53 <= v < 2 ^ 53 ->
  let sig := computeSignature localeCompare schema in
  let storedSig := lookup_prop "signature" props in
  let written := JSON_stringify_record (PlusNumber (Fin (v + 1))) sig in
  JSON_parse written = Some (version_record r' (v + 1) sig) ->
  let host1 := fst (getVersion localeCompare JSON_parse ToPrimitive host dbName schema) in
  let v1 := snd (getVersion localeCompare JSON_parse ToPrimitive host dbName schema) in
  getVersion localeCompare JSON_parse ToPrimitive host1 dbName schema = (host1, v1) /\
  (storedSig <> VStr sig ->
   v1 = Return (VNum (Fin (v + 1))) /\
   loadStoredVersion JSON_parse host1 dbName = version_record r' (v + 1) sig /\
   localStorage host1 = <[versionKey dbName := written]> (localStorage host)) /\
  (storedSig = VStr sig ->
   v1 = Return (VNum (Fin v)) /\ host1 = host).
Proof.
  intros Hwin Hstored Hversion Hv sig storedSig written Hparse host1 v1.
  pose proof (getVersion_stored_object host dbName schema r props Hstored) as Hfirst.
  fold sig storedSig in Hfirst. rewrite Hversion in Hfirst.
  destruct (strict_eq (VStr sig) storedSig) eqn:Esig.
  - apply strict_eq_VStr in Esig.
    unfold host1, v1. rewrite Hfirst. cbn [fst snd]. rewrite Hfirst.
    split; [done|]. split; [done|]. by intros _.
  - assert (Hne : storedSig <> VStr sig).
    { intros H. apply strict_eq_VStr in H. congruence. }
    rewrite plus_one_safe in Hfirst by done.
    unfold storeVersion in Hfirst. rewrite Hwin in Hfirst.
    cbn [negb plus_to_value] in Hfirst. fold written in Hfirst.
    assert (Hload : loadStoredVersion JSON_parse (fst
              (getVersion localeCompare JSON_parse ToPrimitive host dbName schema)) dbName
            = version_record r' (v + 1) sig).
    { rewrite Hfirst. cbn [fst].
      rewrite loadStoredVersion_written.
      unfold written at 1. by rewrite JSON_stringify_record_not_empty, Hparse. }
    fold host1 in Hload.
    split; [|split; [|done]].
    + rewrite (getVersion_stored_object host1 dbName schema _ _ Hload).
      cbn [lookup_prop String.eqb Ascii.eqb Bool.eqb]. fold sig.
      cbn [strict_eq]. rewrite String.eqb_refl.
      unfold v1. by rewrite Hfirst.
    + intros _. unfold v1. split; [by rewrite Hfirst|]. split; [done|].
      unfold host1. by rewrite Hfirst.
Qed.

End VersionProperties.

(** C1 as stated fails: without [window] the version returned is 2, not 1. *)
Lemma getVersion_headless_returns_2 :
  getVersion codeunit_collation JSON_parse_record ToPrimitive_plain headless "app"
    [("users", "++id, name")]
  = (headless, Return (VNum (Fin 2))).
Proof. reflexivity. Qed.

Lemma getVersion_headless_witness :
  getVersion codeunit_collation JSON_parse_record ToPrimitive_plain headless "app" []
  = (headless, Return (VNum (Fin 2))).
Proof.
  apply (getVersion_headless codeunit_collation JSON_parse_record ToPrimitive_plain
           headless "app" []).
  reflexivity.
Defined.

(** C4 as stated fails.  A stored version of 2^53 does not advance: the
    sum is rounded to the same double.  A stored [{}] has no version: the
    first call returns [NaN], which is written [null], and the second call
    returns that [null]. *)
Lemma getVersion_fails_on_stored_records :
  let schema := [("users", "++id, name")] in
  let full :=
    mkHost true {[ versionKey "app" := JSON_stringify_record (PlusNumber (Fin (2 ^ 53))) "old" ]} in
  let bare := mkHost true {[ versionKey "app" := "{}" ]} in
  let bare1 :=
    fst (getVersion codeunit_collation JSON_parse_record ToPrimitive_plain bare "app" schema) in
  (loadStoredVersion JSON_parse_record full "app" = version_record 1 (2 ^ 53) "old" /\
   computeSignature codeunit_collation schema <> "old" /\
   snd (getVersion codeunit_collation JSON_parse_record ToPrimitive_plain full "app" schema)
   = Return (VNum (Fin (2 ^ 53)))) /\
  (snd (getVersion codeunit_collation JSON_parse_record ToPrimitive_plain bare "app" schema)
   = Return (VNum NaN) /\
   snd (getVersion codeunit_collation JSON_parse_record ToPrimitive_plain bare1 "app" schema)
   = Return VNull).
Proof. vm_compute. repeat split; discriminate. Qed.

Lemma getVersion_stable_and_increments_witness :
  let schema := [("users", "++id, name")] in
  let host1 :=
    fst (getVersion codeunit_collation JSON_parse_record ToPrimitive_plain browser "app"
           schema) in
  getVersion codeunit_collation JSON_parse_record ToPrimitive_plain host1 "app" schema
  = (host1, Return (VNum (Fin 2))) /\
  loadStoredVersion JSON_parse_record host1 "app" =
    version_record 1 2 (computeSignature codeunit_collation schema).
Proof.
  intros schema host1.
  destruct (getVersion_stable_and_increments codeunit_collation JSON_parse_record
              ToPrimitive_plain browser "app" schema 0 1
              [("version", VNum (Fin 1)); ("signature", VStr EmptyString)] 1
              eq_refl eq_refl eq_refl) as (Htwice & Hchanged & _).
  - lia.
  - vm_compute. reflexivity.
  - split; [exact Htwice|].
    destruct Hchanged as (_ & Hload & _); [discriminate|exact Hload].
Defined.

(** ** Sorting *)

Section Sorting.

Context {A : Type} (cmp : A -> A -> Z).

Lemma sort_insert_Permutation x l : sort_insert cmp x l ≡ₚ x :: l.
Proof.
  induction l as [|y l IH]; [done|]. cbn.
  destruct (Z.leb (cmp x y) 0); [done|].
  rewrite IH. apply Permutation_swap.
Qed.

Lemma js_sort_Permutation l : js_sort cmp l ≡ₚ l.
Proof.
  induction l as [|x l IH]; [done|]. cbn.
  by rewrite sort_insert_Permutation, IH.
Qed.

Hypothesis cmp_total : forall a b, cmp a b <= 0 \/ cmp b a <= 0.

Lemma sort_insert_Sorted x l : Sorted (cmp_le cmp) l -> Sorted (cmp_le cmp) (sort_insert cmp x l).
Proof.
  induction l as [|y l IH]; intros Hl; cbn.
  - by repeat constructor.
  - destruct (Z.leb (cmp x y) 0) eqn:E.
    + apply Z.leb_le in E. constructor; [done|]. by constructor.
    + apply Z.leb_gt in E. apply Sorted_inv in Hl as [Hl Hhd].
      constructor; [by apply IH|].
      assert (Hyx : cmp_le cmp y x) by (destruct (cmp_total x y); [lia|done]).
      destruct l as [|z l]; cbn; [by constructor|].
      destruct (Z.leb (cmp x z) 0); constructor; [done|].
      by apply HdRel_inv in Hhd.
Qed.

Lemma js_sort_Sorted l : Sorted (cmp_le cmp) (js_sort cmp l).
Proof.
  induction l as [|x l IH]; cbn; [constructor|by apply sort_insert_Sorted].
Qed.

Hypothesis cmp_trans : forall a b c, cmp a b <= 0 -> cmp b c <= 0 -> cmp a c <= 0.

(** Two orders of the same elements sort to the same list when no two
    different elements compare equal. *)
Lemma js_sort_unique l1 l2 :
  l1 ≡ₚ l2 ->
  (forall x y, In x l1 -> In y l1 -> cmp x y <= 0 -> cmp y x <= 0 -> x = y) ->
  js_sort cmp l1 = js_sort cmp l2.
Proof.
  intros Hperm Hanti.
  assert (Htrans : Transitive (cmp_le cmp)) by (intros a b c; apply cmp_trans).
  apply (Sorted_unique_strong (cmp_le cmp)).
  - intros x y Hx Hy. apply Hanti.
    + apply list_elem_of_In. by rewrite <- (js_sort_Permutation l1).
    + apply list_elem_of_In. by rewrite Hperm, <- (js_sort_Permutation l2).
  - apply js_sort_Sorted.
  - apply js_sort_Sorted.
  - by rewrite !js_sort_Permutation.
Qed.

End Sorting.

Lemma js_sort_Forall2 {A B : Type} (R : A -> B -> Prop)
    (cmp1 : A -> A -> Z) (cmp2 : B -> B -> Z) l l' :
  (forall a a' b b', R a a' -> R b b' -> cmp1 a b = cmp2 a' b') ->
  Forall2 R l l' -> Forall2 R (js_sort cmp1 l) (js_sort cmp2 l').
Proof.
  intros Hcmp. induction 1 as [|x y l l' Hxy Hl IH]; cbn; [constructor|].
  clear Hl. induction IH as [|a b s s' Hab Hs IHs]; cbn.
  - by repeat constructor.
  - rewrite (Hcmp x y a b Hxy Hab). destruct (Z.leb _ 0); by repeat constructor.
Qed.

Lemma default_compare_total a b : default_compare a b <= 0 \/ default_compare b a <= 0.
Proof.
  unfold default_compare. rewrite (String.compare_antisym b a).
  destruct (String.compare a b); cbn; lia.
Qed.

Lemma default_compare_le a b :
  default_compare a b <= 0 <-> String.leb a b = true.
Proof.
  unfold default_compare, String.leb. destruct (String.compare a b); split; (done || lia).
Qed.

Lemma default_compare_antisym a b :
  default_compare a b <= 0 -> default_compare b a <= 0 -> a = b.
Proof. rewrite !default_compare_le. apply String.leb_antisym. Qed.

Lemma ascii_compare_lt_le a b c :
  Ascii.compare a b = Lt -> Ascii.compare b c <> Gt -> Ascii.compare a c = Lt.
Proof.
  unfold Ascii.compare. rewrite N.compare_le_iff, !N.compare_lt_iff. lia.
Qed.

Lemma string_compare_le_trans a b c :
  String.compare a b <> Gt -> String.compare b c <> Gt -> String.compare a c <> Gt.
Proof.
  revert b c. induction a as [|x a IH]; intros [|y b] [|z c]; cbn; try done.
  destruct (Ascii.compare x y) eqn:Exy; [| |done].
  - apply Ascii.compare_eq_iff in Exy as ->.
    destruct (Ascii.compare y z) eqn:Eyz; [|done|done]. apply IH.
  - intros _. destruct (Ascii.compare y z) eqn:Eyz; [| |done].
    + apply Ascii.compare_eq_iff in Eyz as <-. by rewrite Exy.
    + intros _. rewrite (ascii_compare_lt_le x y z); [done|done|by rewrite Eyz].
Qed.

Lemma default_compare_trans a b c :
  default_compare a b <= 0 -> default_compare b c <= 0 -> default_compare a c <= 0.
Proof.
  intros Hab Hbc.
  assert (H : String.compare a c <> Gt).
  { apply (string_compare_le_trans a b c).
    - unfold default_compare in Hab. destruct (String.compare a b); (done || lia).
    - unfold default_compare in Hbc. destruct (String.compare b c); (done || lia). }
  unfold default_compare. destruct (String.compare a c); (done || lia).
Qed.

(** ** Lookups in insertion-ordered maps *)

Lemma Map_get_Map_set {V : Type} (m : list (string * V)) k v k' :
  Map_get (Map_set m k v) k' = if String.eqb k k' then Some v else Map_get m k'.
Proof.
  unfold Map_get. induction m as [|[k0 v0] rest IH]; cbn.
  - by destruct (String.eqb k k').
  - destruct (String.eqb k0 k) eqn:E0; cbn.
    + apply String.eqb_eq in E0 as ->. by destruct (String.eqb k k').
    + destruct (String.eqb k0 k') eqn:E1; [|done].
      apply String.eqb_eq in E1 as ->. by rewrite String.eqb_sym, E0.
Qed.

Lemma Map_get_In {V : Type} (m : list (string * V)) k v :
  NoDup (map fst m) -> (Map_get m k = Some v <-> In (k, v) m).
Proof.
  unfold Map_get. induction m as [|[k0 v0] rest IH]; cbn; intros Hnd; [by split|].
  apply NoDup_cons in Hnd as [Hk0 Hnd]. destruct (String.eqb k0 k) eqn:E.
  - apply String.eqb_eq in E as ->. cbn. split.
    + intros [= ->]. by left.
    + intros [[= ->]|Hin]; [done|]. exfalso. apply Hk0.
      apply list_elem_of_In, in_map_iff. by exists (k, v).
  - rewrite (IH Hnd). split; [by right|]. intros [[= -> ->]|Hin]; [|done].
    by rewrite String.eqb_refl in E.
Qed.

Lemma NoDup_keys_NoDup {V : Type} (m : list (string * V)) :
  NoDup (map fst m) -> NoDup m.
Proof. apply (NoDup_fmap_1 fst). Qed.

(** Maps with distinct keys and the same lookups hold the same entries. *)
Lemma Map_get_ext_Permutation {V : Type} (m1 m2 : list (string * V)) :
  NoDup (map fst m1) -> NoDup (map fst m2) ->
  (forall k, Map_get m1 k = Map_get m2 k) -> m1 ≡ₚ m2.
Proof.
  intros H1 H2 Hget. apply NoDup_Permutation; [by apply NoDup_keys_NoDup..|].
  intros [k v]. rewrite !list_elem_of_In, <- !Map_get_In by done. by rewrite Hget.
Qed.

Lemma find_key_In cols k c :
  NoDup (map propertyKey cols) ->
  (List.find (fun c => String.eqb (propertyKey c) k) cols = Some c <->
   In c cols /\ propertyKey c = k).
Proof.
  induction cols as [|c0 cols IH]; cbn; intros Hnd; [by intuition|].
  apply NoDup_cons in Hnd as [Hc0 Hnd]. destruct (String.eqb (propertyKey c0) k) eqn:E.
  - apply String.eqb_eq in E. split.
    + intros [= <-]. split; [by left|done].
    + intros [[->|Hin] Hk]; [done|]. exfalso. apply Hc0.
      apply list_elem_of_In, in_map_iff. exists c. split; [congruence|done].
  - rewrite (IH Hnd). split; [intros [? ?]; split; [by right|done]|].
    intros [[->|Hin] Hk]; [|done]. rewrite Hk, String.eqb_refl in E. done.
Qed.

Lemma find_key_Permutation cols1 cols2 k :
  cols1 ≡ₚ cols2 -> NoDup (map propertyKey cols1) ->
  List.find (fun c => String.eqb (propertyKey c) k) cols1 =
  List.find (fun c => String.eqb (propertyKey c) k) cols2.
Proof.
  intros Hperm Hnd1.
  assert (Hnd2 : NoDup (map propertyKey cols2)).
  { by rewrite <- Hperm. }
  destruct (List.find _ cols1) as [c|] eqn:E1.
  - symmetry. apply find_key_In; [done|]. apply find_key_In in E1 as [Hin Hk]; [|done].
    split; [|done]. apply list_elem_of_In. rewrite <- Hperm. by apply list_elem_of_In.
  - destruct (List.find _ cols2) as [c|] eqn:E2; [|done].
    apply find_key_In in E2 as [Hin Hk]; [|done].
    assert (In c cols1) by (apply list_elem_of_In; rewrite Hperm; by apply list_elem_of_In).
    assert (F : List.find (fun c => String.eqb (propertyKey c) k) cols1 = Some c)
      by by apply find_key_In.
    congruence.
Qed.

(** What the inner loop of [mergedColumns] leaves under a key. *)
Lemma Map_get_merge_columns cols (m : list (string * ColumnMeta)) k :
  NoDup (map propertyKey cols) ->
  Map_get
    (fold_left
       (fun columnsMap c =>
          let cloned := mkColumn (propertyKey c) (options c) in
          Map_set columnsMap (propertyKey cloned) cloned)
       cols m) k =
  match List.find (fun c => String.eqb (propertyKey c) k) cols with
  | Some c => Some (mkColumn (propertyKey c) (options c))
  | None => Map_get m k
  end.
Proof.
  revert m. induction cols as [|c cols IH]; intros m Hnd; [done|]. cbn.
  apply NoDup_cons in Hnd as [Hc Hnd]. rewrite (IH _ Hnd), Map_get_Map_set.
  destruct (String.eqb (propertyKey c) k) eqn:E; [|done].
  apply String.eqb_eq in E.
  destruct (List.find _ cols) as [c'|] eqn:E'; [|done].
  apply find_key_In in E' as [Hin Hk]; [|done]. exfalso. apply Hc.
  apply list_elem_of_In, in_map_iff. exists c'. split; [congruence|done].
Qed.

(** ** Equivalent registries resolve to the same columns *)

Lemma mergedColumns_equiv_from chain r1 r2 (m1 m2 : list (string * ColumnMeta)) :
  registry_equiv r1 r2 -> registry_wf r1 -> registry_wf r2 ->
  (forall k, Map_get m1 k = Map_get m2 k) ->
  forall k,
    Map_get
      (fold_left
         (fun (columnsMap : list (string * ColumnMeta)) ctor =>
            match byCtor r1 !! ctor_id ctor with
            | None => columnsMap
            | Some m =>
                fold_left
                  (fun columnsMap c =>
                     let cloned := mkColumn (propertyKey c) (options c) in
                     Map_set columnsMap (propertyKey cloned) cloned)
                  (columns m) columnsMap
            end) chain m1) k =
    Map_get
      (fold_left
         (fun (columnsMap : list (string * ColumnMeta)) ctor =>
            match byCtor r2 !! ctor_id ctor with
            | None => columnsMap
            | Some m =>
                fold_left
                  (fun columnsMap c =>
                     let cloned := mkColumn (propertyKey c) (options c) in
                     Map_set columnsMap (propertyKey cloned) cloned)
                  (columns m) columnsMap
            end) chain m2) k.
Proof.
  intros [_ Hequiv] (_ & _ & Hnd1) (_ & _ & Hnd2).
  revert m1 m2. induction chain as [|ctor chain IH]; intros m1 m2 Hm; [done|]. cbn.
  apply IH. intros k. specialize (Hequiv (ctor_id ctor)).
  destruct (byCtor r1 !! ctor_id ctor) as [e1|] eqn:E1,
           (byCtor r2 !! ctor_id ctor) as [e2|] eqn:E2; try done.
  destruct Hequiv as (_ & _ & Hcols).
  rewrite !Map_get_merge_columns by eauto.
  rewrite (find_key_Permutation _ _ k Hcols) by eauto.
  by rewrite Hm.
Qed.

Lemma mergedColumns_equiv chain r1 r2 :
  registry_equiv r1 r2 -> registry_wf r1 -> registry_wf r2 ->
  mergedColumns chain r1 ≡ₚ mergedColumns chain r2.
Proof.
  intros Hequiv Hwf1 Hwf2. apply Map_get_ext_Permutation.
  - apply mergedColumns_ok.
  - apply mergedColumns_ok.
  - by apply mergedColumns_equiv_from.
Qed.

Lemma find_head_filter {A : Type} (f : A -> bool) (l : list A) :
  List.find f l = head (List.filter f l).
Proof.
  induction l as [|x l IH]; [done|]. cbn. by destruct (f x).
Qed.

Lemma Permutation_short {A : Type} (l1 l2 : list A) :
  l1 ≡ₚ l2 -> (length l1 <= 1)%nat -> l1 = l2.
Proof.
  intros Hperm Hlen. destruct l1 as [|x [|y l1]]; cbn in Hlen; [| |lia].
  - by apply Permutation_nil in Hperm.
  - by apply Permutation_singleton_l in Hperm.
Qed.

Lemma filter_Permutation' {A : Type} (f : A -> bool) (l1 l2 : list A) :
  l1 ≡ₚ l2 -> List.filter f l1 ≡ₚ List.filter f l2.
Proof.
  induction 1 as [|x l1 l2 H IH|x y l|l1 l2 l3 H1 IH1 H2 IH2]; cbn.
  - done.
  - destruct (f x); [by constructor|done].
  - destruct (f x), (f y); try done. apply Permutation_swap.
  - by etrans.
Qed.

Lemma buildTableSchema_equiv m1 m2 r1 r2 s :
  meta_equiv m1 m2 -> registry_equiv r1 r2 -> registry_wf r1 -> registry_wf r2 ->
  buildTableSchema m1 r1 = Return s -> buildTableSchema m2 r2 = Return s.
Proof.
  intros (Htarget & Hname & _) Hequiv Hwf1 Hwf2.
  unfold buildTableSchema.
  destruct (resolveEntity m1 r1) as [cols1|] eqn:R1; [|done].
  assert (Hone : at_most_one_primary cols1) by by eapply resolveEntity_Return.
  unfold resolveEntity in *. rewrite distinct_primaries_length in *.
  rewrite <- Htarget.
  pose proof (mergedColumns_equiv (chain_of (target m1)) r1 r2 Hequiv Hwf1 Hwf2) as Hperm.
  set (M1 := mergedColumns (chain_of (target m1)) r1) in *.
  set (M2 := mergedColumns (chain_of (target m1)) r2) in *.
  assert (Hvals : map snd M1 ≡ₚ map snd M2) by by apply Permutation_map.
  assert (Hprim : List.filter is_primary (map snd M1) ≡ₚ List.filter is_primary (map snd M2))
    by by apply filter_Permutation'.
  rewrite <- (Permutation_length Hprim).
  destruct (Nat.ltb 1 _); [done|]. injection R1 as <-.
  intros [= <-]. f_equal.
  rewrite !find_head_filter.
  change (fun c => is_true_opt (primary (options c))) with is_primary.
  rewrite <- (Permutation_short _ _ Hprim Hone).
  f_equal. f_equal.
  apply js_sort_unique.
  - apply default_compare_total.
  - apply default_compare_trans.
  - apply Permutation_map. by apply filter_Permutation'.
  - intros x y _ _. apply default_compare_antisym.
Qed.

(** ** Equivalent registries build the same schema *)

Lemma getAllEntities_In r m :
  registry_wf r -> In m (getAllEntities r) ->
  exists i, In (tableName m, i) (byTable r) /\ byCtor r !! i = Some m.
Proof.
  intros (_ & Hnames & _) Hin. unfold getAllEntities in Hin.
  apply list_elem_of_In, list_elem_of_omap in Hin as ([n i] & Hin & Hm). cbn in Hm.
  apply list_elem_of_In in Hin.
  destruct (Hnames _ _ Hin) as (m' & Hm' & Hn). exists i. split; [|done].
  rewrite Hm in Hm'. injection Hm' as <-. by rewrite Hn.
Qed.

Lemma getAllEntities_name_inj r m1 m2 :
  registry_wf r -> In m1 (getAllEntities r) -> In m2 (getAllEntities r) ->
  tableName m1 = tableName m2 -> m1 = m2.
Proof.
  intros Hwf H1 H2 Hname.
  destruct (getAllEntities_In _ _ Hwf H1) as (i1 & Hin1 & Hm1).
  destruct (getAllEntities_In _ _ Hwf H2) as (i2 & Hin2 & Hm2).
  destruct Hwf as (Hnd & _ & _). rewrite Hname in Hin1.
  apply Map_get_In in Hin1, Hin2; try done. congruence.
Qed.

Lemma entities_Forall2 r1 r2 (entries : list (string * nat)) :
  registry_equiv r1 r2 ->
  Forall2 meta_equiv
    (omap (fun e => byCtor r1 !! snd e) entries)
    (omap (fun e => byCtor r2 !! snd e) entries).
Proof.
  intros [_ Hequiv]. induction entries as [|[n i] entries IH]; cbn; [constructor|].
  specialize (Hequiv i).
  destruct (byCtor r1 !! i), (byCtor r2 !! i); try done. by constructor.
Qed.

Section SchemaInvariance.

Variable localeCompare : string -> string -> Z.

Hypothesis localeCompare_total :
  forall a b, localeCompare a b <= 0 \/ localeCompare b a <= 0.
Hypothesis localeCompare_trans :
  forall a b c, localeCompare a b <= 0 -> localeCompare b c <= 0 -> localeCompare a c <= 0.
Hypothesis localeCompare_antisym :
  forall a b, localeCompare a b <= 0 -> localeCompare b a <= 0 -> a = b.

Lemma buildSchema_fold_Throw r e (l : list EntityMeta) :
  fold_left
    (fun (schema : outcome (list (string * string))) meta =>
       match schema with
       | Throw e => Throw e
       | Return schema =>
           match buildTableSchema meta r with
           | Throw e => Throw e
           | Return s => Return (assign schema (tableName meta) s)
           end
       end) l (Throw e) = Throw e.
Proof. induction l as [|m l IH]; [done|]. cbn. apply IH. Qed.

Lemma buildSchema_fold_equiv r1 r2 l1 l2 :
  registry_equiv r1 r2 -> registry_wf r1 -> registry_wf r2 ->
  Forall2 meta_equiv l1 l2 ->
  forall acc s,
    fold_left
      (fun (schema : outcome (list (string * string))) meta =>
         match schema with
         | Throw e => Throw e
         | Return schema =>
             match buildTableSchema meta r1 with
             | Throw e => Throw e
             | Return s => Return (assign schema (tableName meta) s)
             end
         end) l1 (Return acc) = Return s ->
    fold_left
      (fun (schema : outcome (list (string * string))) meta =>
         match schema with
         | Throw e => Throw e
         | Return schema =>
             match buildTableSchema meta r2 with
             | Throw e => Throw e
             | Return s => Return (assign schema (tableName meta) s)
             end
         end) l2 (Return acc) = Return s.
Proof.
  intros Hequiv Hwf1 Hwf2. induction 1 as [|m1 m2 l1 l2 Hm Hl IH]; intros acc s; [done|].
  cbn. destruct (buildTableSchema m1 r1) as [s1|e] eqn:E1.
  - rewrite (buildTableSchema_equiv m1 m2 r1 r2 s1 Hm Hequiv Hwf1 Hwf2 E1).
    destruct Hm as (_ & <- & _). apply IH.
  - by rewrite buildSchema_fold_Throw.
Qed.

(** Registries that hold the same descriptors, whatever the order of their
    entities and columns, build the same schema. *)
Lemma buildSchema_equiv r1 r2 s :
  registry_equiv r1 r2 -> registry_wf r1 -> registry_wf r2 ->
  buildSchema localeCompare r1 = Return s -> buildSchema localeCompare r2 = Return s.
Proof.
  intros Hequiv Hwf1 Hwf2. unfold buildSchema.
  apply buildSchema_fold_equiv; try done.
  set (cmp := fun a b : EntityMeta => localeCompare (tableName a) (tableName b)).
  assert (Hsame :
    js_sort cmp (getAllEntities r2) =
    js_sort cmp (omap (fun e => byCtor r2 !! snd e) (byTable r1))).
  { apply js_sort_unique.
    - intros a b. apply localeCompare_total.
    - intros a b c. apply localeCompare_trans.
    - unfold getAllEntities. destruct Hequiv as [Hperm _]. by rewrite Hperm.
    - intros x y Hx Hy Hxy Hyx. apply (getAllEntities_name_inj r2); try done.
      by apply localeCompare_antisym. }
  rewrite Hsame. apply js_sort_Forall2.
  - intros a a' b b' (_ & Ha & _) (_ & Hb & _). unfold cmp. by rewrite Ha, Hb.
  - by apply entities_Forall2.
Qed.

End SchemaInvariance.

(** ** Fresh and deleted keys *)

Lemma Map_get_None_keys {V : Type} (m : list (string * V)) k :
  Map_get m k = None -> ~ In k (map fst m).
Proof.
  unfold Map_get. intros H Hin. apply in_map_iff in Hin as ([k' v] & Hk & Hin).
  cbn in Hk. subst k'.
  destruct (List.find _ m) eqn:E; [done|].
  apply (find_none _ _ E) in Hin. cbn in Hin. by rewrite String.eqb_refl in Hin.
Qed.

Lemma Map_set_fresh {V : Type} (m : list (string * V)) k v :
  ~ In k (map fst m) -> Map_set m k v = m ++ [(k, v)].
Proof.
  induction m as [|[k' v'] rest IH]; cbn; [done|]. intros Hk.
  destruct (String.eqb k' k) eqn:E.
  - apply String.eqb_eq in E. exfalso. apply Hk. by left.
  - rewrite IH; [done|]. intros H. apply Hk. by right.
Qed.

Lemma Map_delete_In {V : Type} (m : list (string * V)) k e :
  In e (Map_delete m k) <-> In e m /\ fst e <> k.
Proof.
  unfold Map_delete. rewrite filter_In. split; intros [H1 H2]; split; try done.
  - apply negb_true_iff, String.eqb_neq in H2. done.
  - apply negb_true_iff, String.eqb_neq. done.
Qed.

Lemma Map_delete_NoDup {V : Type} (m : list (string * V)) k :
  NoDup (map fst m) -> NoDup (map fst (Map_delete m k)).
Proof.
  unfold Map_delete. induction m as [|[k' v'] rest IH]; cbn; [done|]. intros Hnd.
  apply NoDup_cons in Hnd as [Hk Hnd]. destruct (negb (String.eqb k' k)); [|by apply IH].
  cbn. apply NoDup_cons. split; [|by apply IH].
  intros Hin. apply Hk. apply list_elem_of_In, in_map_iff in Hin as (e & He & Hin).
  apply filter_In in Hin as [Hin _]. apply list_elem_of_In, in_map_iff. by exists e.
Qed.

Lemma NoDup_snoc_fresh {A : Type} (l : list A) (x : A) :
  NoDup l -> ~ In x l -> NoDup (l ++ [x]).
Proof.
  intros Hnd Hx. apply NoDup_app. split; [done|]. split; [|apply NoDup_singleton].
  intros y Hy Hy'. apply list_elem_of_singleton in Hy'. subst y.
  by apply list_elem_of_In in Hy.
Qed.

(** ** What [ensureEntityMeta] does to a tracked registry *)

(** The descriptor exists and stays as it is. *)
Lemma tracks_extend ctors names cols reg c m (extra : nat -> list string) :
  registry_tracks ctors names cols reg ->
  byCtor reg !! ctor_id c = Some m ->
  (forall i n, In n (extra i) -> i = ctor_id c /\ n = tableName m) ->
  registry_tracks (ctors ++ [c]) (fun i => names i ++ extra i) cols reg.
Proof.
  intros (Hseal & Hdom & Hmeta & Hnd & Htable) Em Hextra.
  split; [done|]. split; [|split; [|by split]].
  - intros c' Hc'. apply in_app_iff in Hc' as [Hc'|[<-|[]]]; [by apply Hdom|].
    by rewrite Em.
  - intros i meta Hi. destruct (Hmeta _ _ Hi) as (Hid & Hin & Hc & Hne & Hall & Hdef).
    split; [done|]. split; [apply in_app_iff; by left|]. split; [done|]. split; [done|].
    split.
    + intros n Hn. apply in_app_iff in Hn as [Hn|Hn]; [by apply Hall|].
      destruct (Hextra _ _ Hn) as [-> ->]. congruence.
    + intros Hnil. apply app_eq_nil in Hnil as [Hnil _]. by apply Hdef.
Qed.

(** A descriptor is created under a table name that is free. *)
Lemma tracks_create ctors names cols reg c tn (extra : nat -> list string) :
  registry_tracks ctors names cols reg ->
  summary_ok ctors names cols ->
  byCtor reg !! ctor_id c = None ->
  tn <> EmptyString ->
  Map_get (byTable reg) tn = None ->
  (forall i n, In n (extra i) -> i = ctor_id c /\ n = tn) ->
  (extra (ctor_id c) = [] -> tn = ctor_name c) ->
  registry_tracks (ctors ++ [c]) (fun i => names i ++ extra i) cols
    (mkRegistry (<[ctor_id c := mkMeta c tn []]> (byCtor reg))
       (Map_set (byTable reg) tn (ctor_id c)) (sealed reg)).
Proof.
  intros (Hseal & Hdom & Hmeta & Hnd & Htable) [Hnames Hcols] Em Htn Hfree Hextra Hdef.
  assert (Hfresh : forall c', In c' ctors -> ctor_id c' <> ctor_id c).
  { intros c' Hc' Hid. apply (Hdom c' Hc'). by rewrite Hid. }
  assert (Hnames0 : names (ctor_id c) = []).
  { destruct (names (ctor_id c)) as [|n rest] eqn:E; [done|].
    destruct (Hnames (ctor_id c) n) as (c' & Hc' & Hid & _); [rewrite E; by left|].
    by destruct (Hfresh c' Hc'). }
  assert (Hcols0 : cols (ctor_id c) = []).
  { destruct (cols (ctor_id c)) as [|col rest] eqn:E; [done|].
    destruct (Hcols (ctor_id c) col) as (c' & Hc' & Hid); [rewrite E; by left|].
    by destruct (Hfresh c' Hc'). }
  apply Map_get_None_keys in Hfree.
  rewrite (Map_set_fresh _ _ _ Hfree).
  split; [done|]. cbn [byCtor byTable]. split; [|split; [|split]].
  - intros c' Hc'. rewrite lookup_insert. destruct (decide (ctor_id c = ctor_id c')); [done|].
    apply in_app_iff in Hc' as [Hc'|[<-|[]]]; [by apply Hdom|done].
  - intros i meta. rewrite lookup_insert. destruct (decide (ctor_id c = i)) as [<-|Hi].
    + intros [= <-]. cbn. split; [done|]. split; [apply in_app_iff; right; by left|].
      split; [done|]. split; [done|]. rewrite Hnames0. cbn. split; [|done].
      intros n Hn. by destruct (Hextra _ _ Hn) as [_ ->].
    + intros Hmi. destruct (Hmeta _ _ Hmi) as (Hid & Hin & Hc & Hne & Hall & Hd).
      split; [done|]. split; [apply in_app_iff; by left|]. split; [done|]. split; [done|].
      split.
      * intros n Hn. apply in_app_iff in Hn as [Hn|Hn]; [by apply Hall|].
        by destruct (Hextra _ _ Hn) as [-> _].
      * intros Hnil. apply app_eq_nil in Hnil as [Hnil _]. by apply Hd.
  - rewrite map_app. cbn. by apply NoDup_snoc_fresh.
  - intros n i. rewrite in_app_iff. cbn. rewrite lookup_insert.
    destruct (decide (ctor_id c = i)) as [<-|Hi].
    + split.
      * intros [Hin|[[= <-]|[]]]; [|by eexists].
        apply Htable in Hin as (meta & Hm & _). by rewrite Em in Hm.
      * intros (meta & [= <-] & <-). right. by left.
    + rewrite Htable. split; [|by left].
      intros [H|[[= _ Hi']|[]]]; [done|]. by destruct Hi.
Qed.

(** The one-time rename from the default name to [n]. *)
Lemma tracks_rename ctors names cols reg c m n :
  registry_tracks ctors names cols reg ->
  summary_ok ctors names cols ->
  consistent (ctors ++ [c]) ->
  byCtor reg !! ctor_id c = Some m ->
  n <> EmptyString -> tableName m <> n -> tableName m = ctor_name c ->
  Map_get (byTable reg) n = None ->
  registry_tracks (ctors ++ [c]) (fun i => names i ++ entity_name c (Some n) i) cols
    (mkRegistry (<[ctor_id c := set_tableName m n]> (byCtor reg))
       (Map_set (Map_delete (byTable reg) (tableName m)) n (ctor_id c)) (sealed reg)).
Proof.
  intros (Hseal & Hdom & Hmeta & Hnd & Htable) [Hnames Hcols] Hcons Em Hn Hold Hdefault Hfree.
  destruct (Hmeta _ _ Em) as (Hid & Hin & Hc & Hne & Hall & Hd).
  assert (Htarget : target m = c).
  { apply Hcons; [apply in_app_iff; by left|apply in_app_iff; right; by left|done]. }
  assert (Hnames0 : names (ctor_id c) = []).
  { destruct (names (ctor_id c)) as [|n0 rest] eqn:E; [done|].
    assert (Hn0 : In n0 (names (ctor_id c))) by (rewrite E; by left).
    destruct (Hnames _ _ Hn0) as (c' & Hc' & Hid' & Hne').
    assert (c' = c).
    { apply Hcons; [apply in_app_iff; by left|apply in_app_iff; right; by left|done]. }
    subst c'. specialize (Hall n0 (or_introl eq_refl)). congruence. }
  assert (Hentity : entity_name c (Some n) (ctor_id c) = [n]).
  { cbn. rewrite Nat.eqb_refl. cbn.
    assert (E1 : String.eqb n EmptyString = false) by by apply String.eqb_neq.
    assert (E2 : String.eqb n (ctor_name c) = false) by (apply String.eqb_neq; congruence).
    by rewrite E1, E2. }
  assert (Hentity' : forall i, i <> ctor_id c -> entity_name c (Some n) i = []).
  { intros i Hi. cbn. assert (E : Nat.eqb (ctor_id c) i = false) by (apply Nat.eqb_neq; done).
    by rewrite E. }
  assert (Hfree' : ~ In n (map fst (Map_delete (byTable reg) (tableName m)))).
  { intros H. apply in_map_iff in H as (e & He & H). apply Map_delete_In in H as [H _].
    apply (Map_get_None_keys _ _ Hfree). apply in_map_iff. by exists e. }
  rewrite (Map_set_fresh _ _ _ Hfree').
  split; [done|]. cbn [byCtor byTable]. split; [|split; [|split]].
  - intros c' Hc'. rewrite lookup_insert. destruct (decide (ctor_id c = ctor_id c')); [done|].
    apply in_app_iff in Hc' as [Hc'|[<-|[]]]; [by apply Hdom|done].
  - intros i meta. rewrite lookup_insert. destruct (decide (ctor_id c = i)) as [<-|Hi].
    + intros [= <-]. cbn [target tableName columns set_tableName].
      split; [done|]. split; [apply in_app_iff; by left|]. split; [done|]. split; [done|].
      rewrite Hnames0, Hentity. cbn. split; [|done]. by intros n' [<-|[]].
    + intros Hmi. destruct (Hmeta _ _ Hmi) as (Hid' & Hin' & Hc' & Hne' & Hall' & Hd').
      split; [done|]. split; [apply in_app_iff; by left|]. split; [done|]. split; [done|].
      rewrite Hentity' by done. rewrite app_nil_r. by split.
  - rewrite map_app. cbn. apply NoDup_snoc_fresh; [by apply Map_delete_NoDup|done].
  - intros n' i. rewrite in_app_iff, Map_delete_In. cbn. rewrite lookup_insert.
    destruct (decide (ctor_id c = i)) as [<-|Hi].
    + split.
      * intros [[Hin' Hne']|[[= <-]|[]]]; [|by eexists].
        apply Htable in Hin' as (meta & Hm & Hname). congruence.
      * intros (meta & [= <-] & <-). right. by left.
    + rewrite Htable. split.
      * intros [[H _]|[[= _ Hi']|[]]]; [done|]. by destruct Hi.
      * intros (meta & Hm & Hname). left. split; [by exists meta|].
        intros ->. assert (Hold' : In (tableName m, ctor_id c) (byTable reg)).
        { apply Htable. by exists m. }
        assert (Hi' : In (tableName m, i) (byTable reg)).
        { apply Htable. by exists meta. }
        apply Map_get_In in Hold', Hi'; try done. congruence.
Qed.

Lemma entity_name_In c name i n :
  In n (entity_name c name i) ->
  i = ctor_id c /\ name = Some n /\ n <> EmptyString /\ n <> ctor_name c.
Proof.
  destruct name as [n0|]; [|done]. unfold entity_name.
  destruct (Nat.eqb (ctor_id c) i) eqn:Ei; [|done].
  destruct (String.eqb n0 EmptyString) eqn:E1; [done|].
  destruct (String.eqb n0 (ctor_name c)) eqn:E2; [done|]. cbn.
  intros [<-|[]]. apply Nat.eqb_eq in Ei. apply String.eqb_neq in E1, E2. done.
Qed.

(** The conflict test of [ensureEntityMeta] passes only on a free name. *)
Lemma no_conflict_free ctors names cols reg c n :
  registry_tracks ctors names cols reg ->
  (forall m, byCtor reg !! ctor_id c = Some m -> tableName m <> n) ->
  match Map_get (byTable reg) n with
  | Some e => negb (Nat.eqb e (ctor_id c))
  | None => false
  end = false ->
  Map_get (byTable reg) n = None.
Proof.
  intros (_ & _ & _ & Hnd & Htable) Hother Hconf.
  destruct (Map_get (byTable reg) n) as [e|] eqn:E; [|done].
  apply negb_false_iff, Nat.eqb_eq in Hconf. subst e.
  apply Map_get_In in E; [|done]. apply Htable in E as (m & Hm & Hname).
  by destruct (Hother m Hm).
Qed.

Lemma ensureEntityMeta_tracks ctors names cols c name reg reg' meta :
  registry_tracks ctors names cols reg ->
  summary_ok ctors names cols ->
  consistent (ctors ++ [c]) ->
  ensureEntityMeta c name reg = (reg', Return meta) ->
  registry_tracks (ctors ++ [c]) (fun i => names i ++ entity_name c name i) cols reg'.
Proof.
  intros Htracks Hsum Hcons. unfold ensureEntityMeta.
  destruct (byCtor reg !! ctor_id c) as [m|] eqn:Em.
  - destruct name as [n|].
    + destruct (negb (String.eqb n EmptyString)) eqn:En; cbn [andb].
      * apply negb_true_iff, String.eqb_neq in En.
        destruct (negb (String.eqb (tableName m) n)) eqn:Eold.
        -- apply negb_true_iff, String.eqb_neq in Eold.
           destruct (match Map_get (byTable reg) n with Some _ => _ | None => _ end) eqn:Econf;
             [done|].
           destruct (String.eqb (tableName m) (ctor_name c)) eqn:Edef; [|done].
           apply String.eqb_eq in Edef.
           assert (Hfree : Map_get (byTable reg) n = None).
           { eapply no_conflict_free; [done| |done]. intros m' Hm'. congruence. }
           assert (Hmapped : Map_get (byTable reg) (tableName m) = Some (ctor_id c)).
           { destruct Htracks as (_ & _ & _ & Hnd & Htable).
             apply Map_get_In; [done|]. apply Htable. by exists m. }
           rewrite Hmapped, Nat.eqb_refl. intros [= <- <-].
           by eapply tracks_rename.
        -- apply negb_false_iff, String.eqb_eq in Eold. intros [= <- <-].
           apply (tracks_extend _ _ _ _ _ m); [done|done|].
           intros i n' Hn'. apply entity_name_In in Hn' as (-> & [= <-] & _). done.
      * apply negb_false_iff, String.eqb_eq in En. intros [= <- <-].
        apply (tracks_extend _ _ _ _ _ m); [done|done|].
        intros i n' Hn'. apply entity_name_In in Hn' as (_ & [= <-] & Hne & _). done.
    + intros [= <- <-]. by apply (tracks_extend _ _ _ _ _ m).
  - set (tn := match name with Some n => n | None => ctor_name c end).
    destruct (String.eqb tn EmptyString) eqn:Etn; [done|].
    apply String.eqb_neq in Etn.
    destruct (match Map_get (byTable reg) tn with Some _ => _ | None => _ end) eqn:Econf;
      [done|].
    intros [= <- <-].
    assert (Hfree : Map_get (byTable reg) tn = None).
    { eapply no_conflict_free; [done| |done]. intros m' Hm'. congruence. }
    apply tracks_create; try done.
    + intros i n Hn. apply entity_name_In in Hn as (-> & -> & _). done.
    + destruct name as [n0|]; [|done]. cbn. rewrite Nat.eqb_refl. cbn.
      assert (E1 : String.eqb n0 EmptyString = false) by by apply String.eqb_neq.
      rewrite E1. cbn. destruct (String.eqb n0 (ctor_name c)) eqn:E2; [|done].
      apply String.eqb_eq in E2. done.
Qed.

Lemma registry_tracks_ext ctors names names' cols cols' reg :
  (forall i, names i = names' i) -> (forall i, cols i = cols' i) ->
  registry_tracks ctors names cols reg -> registry_tracks ctors names' cols' reg.
Proof.
  intros Hn Hc (Hseal & Hdom & Hmeta & Hnd & Htable).
  split; [done|]. split; [done|]. split; [|by split].
  intros i meta Hi. rewrite <- Hn, <- Hc. by apply Hmeta.
Qed.

(** A column is appended to the descriptor of [c]. *)
Lemma tracks_add_column ctors names cols reg c meta col :
  registry_tracks ctors names cols reg ->
  byCtor reg !! ctor_id c = Some meta ->
  registry_tracks ctors names
    (fun i => cols i ++ if Nat.eqb (ctor_id c) i then [col] else [])
    (mkRegistry (<[ctor_id c := set_columns meta (columns meta ++ [col])]> (byCtor reg))
       (byTable reg) (sealed reg)).
Proof.
  intros (Hseal & Hdom & Hmeta & Hnd & Htable) Em.
  split; [done|]. cbn [byCtor byTable]. split; [|split; [|split; [done|]]].
  - intros c' Hc'. rewrite lookup_insert. destruct (decide (ctor_id c = ctor_id c')); [done|].
    by apply Hdom.
  - intros i m. rewrite lookup_insert. destruct (decide (ctor_id c = i)) as [<-|Hi].
    + intros [= <-]. destruct (Hmeta _ _ Em) as (Hid & Hin & Hc & Hne & Hall & Hd).
      cbn [target tableName columns set_columns]. rewrite Nat.eqb_refl, Hc. done.
    + intros Hm. apply Nat.eqb_neq in Hi. rewrite Hi, app_nil_r. by apply Hmeta.
  - intros n i. rewrite Htable, lookup_insert.
    destruct (decide (ctor_id c = i)) as [<-|Hi]; [|done].
    split; intros (m & Hm & Hname).
    + exists (set_columns meta (columns meta ++ [col])). split; [done|]. cbn. congruence.
    + exists meta. split; [done|]. injection Hm as <-. done.
Qed.

Lemma findIndex_None_intro {A : Type} (f : A -> bool) (l : list A) :
  (forall x, In x l -> f x = false) -> findIndex f l = None.
Proof.
  induction l as [|x l IH]; [done|]. intros H. cbn.
  rewrite (H x (or_introl eq_refl)), IH; [done|]. intros y Hy. apply H. by right.
Qed.

(** ** Runs of registrations *)

Lemma ops_summary_ok ops : summary_ok (ops_ctors ops) (ops_names ops) (ops_columns ops).
Proof.
  split.
  - intros i n Hn. apply in_flat_map in Hn as (op & Hop & Hn).
    destruct op as [c name| | |]; try done. apply entity_name_In in Hn as (-> & _ & _ & Hne).
    exists c. split; [|done]. apply in_flat_map. exists (OpAddEntity c name).
    split; [done|by left].
  - intros i col Hcol. apply in_flat_map in Hcol as (op & Hop & Hcol).
    destruct op as [|[c|] key opts| |]; try done. cbn in Hcol.
    destruct (Nat.eqb (ctor_id c) i) eqn:Ei; [|done]. apply Nat.eqb_eq in Ei.
    exists c. split; [|done]. apply in_flat_map. exists (OpAddColumn (Some c) key opts).
    split; [done|by left].
Qed.

Lemma ops_columns_slot ops i col :
  In col (ops_columns ops i) -> In (i, propertyKey col) (ops_slots ops).
Proof.
  intros Hcol. apply in_flat_map in Hcol as (op & Hop & Hcol).
  destruct op as [|[c|] key opts| |]; try done. cbn in Hcol.
  destruct (Nat.eqb (ctor_id c) i) eqn:Ei; [|done]. apply Nat.eqb_eq in Ei.
  destruct Hcol as [<-|[]]. apply in_flat_map. exists (OpAddColumn (Some c) key opts).
  split; [done|]. cbn. left. by rewrite Ei.
Qed.

Lemma run_op_tracks ops op reg reg' :
  is_registration op = true ->
  NoDup (ops_slots (ops ++ [op])) ->
  consistent (ops_ctors (ops ++ [op])) ->
  registry_tracks (ops_ctors ops) (ops_names ops) (ops_columns ops) reg ->
  run_op op reg = (reg', Return tt) ->
  registry_tracks (ops_ctors (ops ++ [op])) (ops_names (ops ++ [op]))
    (ops_columns (ops ++ [op])) reg'.
Proof.
  intros Hreg Hslots Hcons Htracks.
  pose proof (ops_summary_ok ops) as Hsum.
  unfold ops_ctors, ops_names, ops_columns, ops_slots in *.
  rewrite flat_map_app in Hslots, Hcons |- *. cbn [flat_map] in Hslots, Hcons |- *.
  rewrite app_nil_r in Hslots, Hcons |- *.
  assert (Hseal : sealed reg = false) by apply Htracks.
  destruct op as [c name|[c|] key opts| |]; cbn [run_op op_ctor is_registration] in *;
    try done.
  - unfold addEntity, assertNotSealed. rewrite Hseal.
    destruct (ensureEntityMeta c name reg) as [reg1 [meta|e]] eqn:E; [|done].
    intros [= <-].
    eapply registry_tracks_ext;
      [| |eapply (ensureEntityMeta_tracks _ _ _ c name); [exact Htracks|done|done|exact E]].
    + intros i. rewrite flat_map_app. cbn. by rewrite app_nil_r.
    + intros i. rewrite flat_map_app. cbn. by rewrite app_nil_r.
  - unfold addColumn, assertNotSealed. rewrite Hseal.
    destruct (ensureEntityMeta c None reg) as [reg1 [meta|e]] eqn:E; [|done].
    pose proof (ensureEntityMeta_tracks _ _ _ c None _ _ _ Htracks Hsum Hcons E) as Htracks1.
    apply ensureEntityMeta_Return in E as (Hmeta & _ & _).
    destruct (is_true_opt (autoIncrement opts) && negb (is_true_opt (primary opts))); [done|].
    destruct (if is_true_opt (primary opts) then List.find _ (columns meta) else None); [done|].
    assert (Hcolumns : columns meta = flat_map (op_column (ctor_id c)) ops).
    { destruct Htracks1 as (_ & _ & Hm & _). by destruct (Hm _ _ Hmeta) as (_ & _ & -> & _). }
    assert (Hidx : findIndex (fun c0 => String.eqb (propertyKey c0) key) (columns meta) = None).
    { apply findIndex_None_intro. intros col Hcol. apply String.eqb_neq. intros Hkey.
      rewrite Hcolumns in Hcol. apply ops_columns_slot in Hcol. rewrite Hkey in Hcol.
      apply NoDup_app in Hslots as (_ & Hdisj & _).
      apply (Hdisj (ctor_id c, key)); [by apply list_elem_of_In|]. by left. }
    rewrite Hidx. intros [= <-].
    eapply registry_tracks_ext;
      [| |eapply (tracks_add_column _ _ _ _ c); [exact Htracks1|exact Hmeta]].
    + intros i. cbn. rewrite flat_map_app. cbn. by rewrite !app_nil_r.
    + intros i. cbn. rewrite flat_map_app. cbn. by rewrite app_nil_r.
  - unfold addColumn, assertNotSealed. by rewrite Hseal.
Qed.

Lemma run_ops_snoc ops op reg :
  run_ops (ops ++ [op]) reg =
  match run_ops ops reg with
  | (reg1, Return _) =>
      match run_op op reg1 with
      | (reg2, Return _) => (reg2, Return tt)
      | (reg2, Throw e) => (reg2, Throw e)
      end
  | (reg1, Throw e) => (reg1, Throw e)
  end.
Proof.
  revert reg. induction ops as [|op0 ops IH]; intros reg; cbn.
  - by destruct (run_op op reg) as [reg2 [[]|e]].
  - destruct (run_op op0 reg) as [reg1 [[]|e]]; [apply IH|done].
Qed.

Lemma empty_registry_tracks (names : nat -> list string) (cols : nat -> list ColumnMeta) :
  registry_tracks [] names cols empty_registry.
Proof.
  split; [done|]. split; [by intros c []|]. split.
  - intros i meta. cbn. by rewrite lookup_empty.
  - split; [apply NoDup_nil_2|]. intros n i. cbn. split; [done|].
    intros (meta & Hm & _). by rewrite lookup_empty in Hm.
Qed.

(** After a run without error the registry holds what was registered. *)
Lemma run_ops_tracks ops reg :
  forallb is_registration ops = true ->
  NoDup (ops_slots ops) ->
  consistent (ops_ctors ops) ->
  run_ops ops empty_registry = (reg, Return tt) ->
  registry_tracks (ops_ctors ops) (ops_names ops) (ops_columns ops) reg.
Proof.
  revert reg. induction ops as [|op ops IH] using rev_ind; intros reg Hreg Hslots Hcons.
  - intros [= <-]. apply empty_registry_tracks.
  - rewrite run_ops_snoc.
    destruct (run_ops ops empty_registry) as [reg1 [[]|e]] eqn:E1; [|done].
    destruct (run_op op reg1) as [reg2 [[]|e]] eqn:E2; [|done]. intros [= <-].
    rewrite forallb_app in Hreg. apply andb_true_iff in Hreg as [Hreg Hop].
    cbn in Hop. rewrite andb_true_r in Hop.
    apply (run_op_tracks ops op reg1); try done.
    apply IH; try done.
    + unfold ops_slots in *. rewrite flat_map_app in Hslots.
      by apply NoDup_app in Hslots as (? & _ & _).
    + intros c1 c2 H1 H2. apply Hcons; unfold ops_ctors; rewrite flat_map_app;
        apply in_app_iff; by left.
Qed.

Lemma ops_columns_NoDup ops i :
  NoDup (ops_slots ops) -> NoDup (map propertyKey (ops_columns ops i)).
Proof.
  unfold ops_slots, ops_columns. induction ops as [|op ops IH]; cbn;
    [intros _; apply NoDup_nil_2|].
  intros Hnd. apply NoDup_app in Hnd as (_ & Hdisj & Hnd).
  rewrite map_app. apply NoDup_app. split; [|split; [|by apply IH]].
  - destruct op as [|[c|] key opts| |]; cbn; try apply NoDup_nil_2.
    destruct (Nat.eqb (ctor_id c) i); [apply NoDup_singleton|apply NoDup_nil_2].
  - intros k Hk Hk'. destruct op as [|[c|] key opts| |]; cbn in Hk; try by inversion Hk.
    destruct (Nat.eqb (ctor_id c) i) eqn:Ei; cbn in Hk; [|by inversion Hk].
    apply Nat.eqb_eq in Ei. apply list_elem_of_singleton in Hk. subst k.
    apply list_elem_of_In, in_map_iff in Hk' as (col & Hkey & Hcol).
    apply ops_columns_slot in Hcol. rewrite Hkey in Hcol.
    apply (Hdisj (ctor_id c, key)); [by left|]. rewrite Ei. by apply list_elem_of_In.
Qed.

Lemma tracks_wf ctors names cols reg :
  registry_tracks ctors names cols reg ->
  (forall i, NoDup (map propertyKey (cols i))) ->
  registry_wf reg.
Proof.
  intros (_ & _ & Hmeta & Hnd & Htable) Hcols. split; [done|]. split.
  - intros n i Hin. by apply Htable.
  - intros i m Hm. destruct (Hmeta _ _ Hm) as (_ & _ & -> & _). apply Hcols.
Qed.

(** Two registries that track the same registrations, in whatever order,
    hold the same descriptors. *)
Lemma tracks_equiv ctors1 names1 cols1 r1 ctors2 names2 cols2 r2 :
  registry_tracks ctors1 names1 cols1 r1 ->
  registry_tracks ctors2 names2 cols2 r2 ->
  ctors1 ≡ₚ ctors2 ->
  (forall i, names1 i ≡ₚ names2 i) ->
  (forall i, cols1 i ≡ₚ cols2 i) ->
  consistent ctors1 ->
  registry_equiv r1 r2.
Proof.
  intros (_ & Hdom1 & Hmeta1 & Hnd1 & Htable1) (_ & Hdom2 & Hmeta2 & Hnd2 & Htable2)
    Hctors Hnames Hcols Hcons.
  assert (Hboth : forall i,
    match byCtor r1 !! i, byCtor r2 !! i with
    | Some m1, Some m2 => meta_equiv m1 m2
    | None, None => True
    | _, _ => False
    end).
  { intros i.
    destruct (byCtor r1 !! i) as [m1|] eqn:E1, (byCtor r2 !! i) as [m2|] eqn:E2.
    - destruct (Hmeta1 _ _ E1) as (Hid1 & Hin1 & Hc1 & _ & Hall1 & Hdef1).
      destruct (Hmeta2 _ _ E2) as (Hid2 & Hin2 & Hc2 & _ & Hall2 & Hdef2).
      assert (Htarget : target m1 = target m2).
      { apply Hcons; [done| |congruence].
        apply list_elem_of_In. rewrite Hctors. by apply list_elem_of_In. }
      split; [done|]. split; [|by rewrite Hc1, Hc2].
      destruct (names1 i) as [|n rest] eqn:En.
      + assert (names2 i = []).
        { apply Permutation_nil. by rewrite <- En, Hnames. }
        rewrite Hdef1, Hdef2 by done. by rewrite Htarget.
      + assert (Hn : In n (names1 i)) by (rewrite En; by left).
        rewrite (Hall1 n) by (by left). symmetry. apply Hall2.
        apply list_elem_of_In. rewrite <- Hnames. by apply list_elem_of_In.
    - destruct (Hmeta1 _ _ E1) as (Hid1 & Hin1 & _).
      apply (Hdom2 (target m1)); [|congruence].
      apply list_elem_of_In. rewrite <- Hctors. by apply list_elem_of_In.
    - destruct (Hmeta2 _ _ E2) as (Hid2 & Hin2 & _).
      apply (Hdom1 (target m2)); [|congruence].
      apply list_elem_of_In. rewrite Hctors. by apply list_elem_of_In.
    - done. }
  split; [|done].
  apply NoDup_Permutation; [by apply NoDup_keys_NoDup..|].
  intros [n i]. rewrite !list_elem_of_In, Htable1, Htable2.
  specialize (Hboth i).
  destruct (byCtor r1 !! i) as [m1|], (byCtor r2 !! i) as [m2|]; try done.
  - destruct Hboth as (_ & Hname & _).
    split; intros (m & [= <-] & <-); eexists; split; done.
Qed.

Lemma forallb_Permutation {A : Type} (f : A -> bool) (l1 l2 : list A) :
  l1 ≡ₚ l2 -> forallb f l1 = forallb f l2.
Proof.
  induction 1 as [|x l1 l2 H IH|x y l|l1 l2 l3 H1 IH1 H2 IH2]; cbn.
  - done.
  - by rewrite IH.
  - by destruct (f x), (f y).
  - congruence.
Qed.

Section RegistrationOrder.

Variable localeCompare : string -> string -> Z.

Hypothesis localeCompare_total :
  forall a b, localeCompare a b <= 0 \/ localeCompare b a <= 0.
Hypothesis localeCompare_trans :
  forall a b c, localeCompare a b <= 0 -> localeCompare b c <= 0 -> localeCompare a c <= 0.
Hypothesis localeCompare_antisym :
  forall a b, localeCompare a b <= 0 -> localeCompare b a <= 0 -> a = b.

(** C5, amended: take registrations in which no property of a class is
    registered twice and each identity names one class, and any permutation
    of them.  If both orders run without error, then whenever [buildSchema]
    returns a schema for the one it returns the same schema, table by table
    and byte for byte, for the other, and [computeSignature] gives the same
    signature; the collation of [localeCompare] is taken to be a total order
    in which no two different names compare equal. *)
Theorem schema_invariant_under_registration_order
    (ops1 ops2 : list Operation) (r1 r2 : Registry) (s : list (string * string)) :
  ops1 ≡ₚ ops2 ->
  forallb is_registration ops1 = true ->
  NoDup (ops_slots ops1) ->
  consistent (ops_ctors ops1) ->
  run_ops ops1 empty_registry = (r1, Return tt) ->
  run_ops ops2 empty_registry = (r2, Return tt) ->
  buildSchema localeCompare r1 = Return s ->
  buildSchema localeCompare r2 = Return s /\
  (forall s2, buildSchema localeCompare r2 = Return s2 ->
     computeSignature localeCompare s2 = computeSignature localeCompare s).
Proof.
  intros Hperm Hreg Hslots Hcons Hrun1 Hrun2 Hbuild.
  assert (Hctors : ops_ctors ops1 ≡ₚ ops_ctors ops2) by by apply Permutation_flat_map.
  assert (Hslots2 : NoDup (ops_slots ops2)).
  { unfold ops_slots. by rewrite <- (Permutation_flat_map op_slot Hperm). }
  assert (Hcons2 : consistent (ops_ctors ops2)).
  { intros c1 c2 H1 H2. apply Hcons; apply list_elem_of_In; rewrite Hctors;
      by apply list_elem_of_In. }
  assert (Hreg2 : forallb is_registration ops2 = true)
    by by rewrite <- (forallb_Permutation _ _ _ Hperm).
  pose proof (run_ops_tracks _ _ Hreg Hslots Hcons Hrun1) as Ht1.
  pose proof (run_ops_tracks _ _ Hreg2 Hslots2 Hcons2 Hrun2) as Ht2.
  assert (Hequiv : registry_equiv r1 r2).
  { eapply tracks_equiv; [exact Ht1|exact Ht2|done| | |done].
    - intros i. by apply Permutation_flat_map.
    - intros i. by apply Permutation_flat_map. }
  assert (Hwf1 : registry_wf r1).
  { eapply tracks_wf; [exact Ht1|]. intros i. by apply ops_columns_NoDup. }
  assert (Hwf2 : registry_wf r2).
  { eapply tracks_wf; [exact Ht2|]. intros i. by apply ops_columns_NoDup. }
  assert (Hbuild2 : buildSchema localeCompare r2 = Return s).
  { by apply (buildSchema_equiv localeCompare localeCompare_total localeCompare_trans
                localeCompare_antisym r1 r2 s). }
  split; [done|]. intros s2 Hs2. congruence.
Qed.

End RegistrationOrder.

(** C5 as stated fails: a property registered twice with different options
    keeps the options of the later registration, so the two orders build
    different schema strings and different signatures; and of two orders of
    distinct registrations one builds a schema while the other throws. *)
Lemma schema_depends_on_order_of_repeated_column :
  (registrations_twice ≡ₚ registrations_twice_reversed /\
   run_ops registrations_twice empty_registry =
     (fst (run_ops registrations_twice empty_registry), Return tt) /\
   run_ops registrations_twice_reversed empty_registry =
     (fst (run_ops registrations_twice_reversed empty_registry), Return tt) /\
   buildSchema codeunit_collation (fst (run_ops registrations_twice empty_registry)) =
     Return [("User", "id")] /\
   buildSchema codeunit_collation
     (fst (run_ops registrations_twice_reversed empty_registry)) =
     Return [("User", "++id")] /\
   computeSignature codeunit_collation [("User", "id")] <>
   computeSignature codeunit_collation [("User", "++id")]) /\
  (registrations_rename ≡ₚ registrations_rename_swapped /\
   snd (run_ops registrations_rename empty_registry) = Return tt /\
   buildSchema codeunit_collation (fst (run_ops registrations_rename empty_registry)) =
     Return [("User", "id"); ("people", "id")] /\
   snd (run_ops registrations_rename_swapped empty_registry) =
     Throw (duplicate_table "User")).
Proof.
  split.
  - split; [apply Permutation_swap|].
    split; [reflexivity|]. split; [reflexivity|]. split; [reflexivity|].
    split; [reflexivity|]. discriminate.
  - split; [apply perm_skip, Permutation_swap|].
    split; [reflexivity|]. split; reflexivity.
Qed.

Lemma registrations_once_consistent : consistent (ops_ctors registrations_once).
Proof.
  intros c1 c2 H1 H2 Hid. cbn in H1, H2.
  destruct H1 as [<-|[<-|[<-|[]]]], H2 as [<-|[<-|[<-|[]]]]; done.
Qed.

Lemma registrations_once_slots : NoDup (ops_slots registrations_once).
Proof. cbn. apply NoDup_cons. split; [|apply NoDup_singleton]. by intros ?%list_elem_of_singleton. Qed.

Lemma schema_invariant_under_registration_order_witness :
  buildSchema codeunit_collation (fst (run_ops registrations_once_reversed empty_registry)) =
    Return [("User", "id"); ("admins", "id, name")] /\
  (forall s2,
     buildSchema codeunit_collation
       (fst (run_ops registrations_once_reversed empty_registry)) = Return s2 ->
     computeSignature codeunit_collation s2 =
     computeSignature codeunit_collation [("User", "id"); ("admins", "id, name")]).
Proof.
  apply (schema_invariant_under_registration_order codeunit_collation
           default_compare_total default_compare_trans default_compare_antisym
           registrations_once registrations_once_reversed
           (fst (run_ops registrations_once empty_registry))).
  - apply Permutation_rev.
  - reflexivity.
  - apply registrations_once_slots.
  - apply registrations_once_consistent.
  - reflexivity.
  - reflexivity.
  - reflexivity.
Defined.

(** * Further properties

    Properties of the code beyond the claims of the specification. *)

(** ** The registry: its two indexes *)

Lemma conflict_free reg c n :
  indexes_agree reg ->
  (forall m, byCtor reg !! ctor_id c = Some m -> tableName m <> n) ->
  match Map_get (byTable reg) n with
  | Some e => negb (Nat.eqb e (ctor_id c))
  | None => false
  end = false ->
  ~ In n (map fst (byTable reg)).
Proof.
  intros (Hnd & Htable & _) Hother Hconf.
  apply Map_get_None_keys.
  destruct (Map_get (byTable reg) n) as [e|] eqn:E; [|done].
  apply negb_false_iff, Nat.eqb_eq in Hconf. subst e.
  apply Map_get_In in E; [|done]. apply Htable in E as (m & Hm & Hname).
  by destruct (Hother m Hm).
Qed.

Lemma agree_create reg c tn :
  indexes_agree reg ->
  byCtor reg !! ctor_id c = None -> tn <> EmptyString ->
  ~ In tn (map fst (byTable reg)) ->
  indexes_agree
    (mkRegistry (<[ctor_id c := mkMeta c tn []]> (byCtor reg))
       (Map_set (byTable reg) tn (ctor_id c)) (sealed reg)).
Proof.
  intros (Hnd & Htable & Hmeta) Em Htn Hfree.
  rewrite (Map_set_fresh _ _ _ Hfree). unfold indexes_agree. cbn [byCtor byTable].
  split; [|split].
  - rewrite map_app. cbn. by apply NoDup_snoc_fresh.
  - intros n i. rewrite in_app_iff. cbn. rewrite lookup_insert.
    destruct (decide (ctor_id c = i)) as [<-|Hi].
    + split.
      * intros [Hin|[[= <-]|[]]]; [|by eexists].
        apply Htable in Hin as (meta & Hm & _). by rewrite Em in Hm.
      * intros (meta & [= <-] & <-). right. by left.
    + rewrite Htable. split; [|by left].
      intros [H|[[= _ Hi']|[]]]; [done|]. by destruct Hi.
  - intros i meta. rewrite lookup_insert. destruct (decide (ctor_id c = i)) as [<-|Hi].
    + by intros [= <-].
    + apply Hmeta.
Qed.

Lemma agree_rename reg c m n :
  indexes_agree reg ->
  byCtor reg !! ctor_id c = Some m -> n <> EmptyString ->
  ~ In n (map fst (byTable reg)) ->
  indexes_agree
    (mkRegistry (<[ctor_id c := set_tableName m n]> (byCtor reg))
       (Map_set (Map_delete (byTable reg) (tableName m)) n (ctor_id c)) (sealed reg)).
Proof.
  intros (Hnd & Htable & Hmeta) Em Hn Hfree.
  assert (Hfree' : ~ In n (map fst (Map_delete (byTable reg) (tableName m)))).
  { intros H. apply in_map_iff in H as (e & He & H). apply Map_delete_In in H as [H _].
    apply Hfree. apply in_map_iff. by exists e. }
  rewrite (Map_set_fresh _ _ _ Hfree'). unfold indexes_agree. cbn [byCtor byTable].
  split; [|split].
  - rewrite map_app. cbn. apply NoDup_snoc_fresh; [by apply Map_delete_NoDup|done].
  - intros n' i. rewrite in_app_iff, Map_delete_In. cbn. rewrite lookup_insert.
    destruct (decide (ctor_id c = i)) as [<-|Hi].
    + split.
      * intros [[Hin' Hne']|[[= <-]|[]]]; [|by eexists].
        apply Htable in Hin' as (meta & Hm & Hname). congruence.
      * intros (meta & [= <-] & <-). right. by left.
    + rewrite Htable. split.
      * intros [[H _]|[[= _ Hi']|[]]]; [done|]. by destruct Hi.
      * intros (meta & Hm & Hname). left. split; [by exists meta|].
        intros ->. assert (Hold' : In (tableName m, ctor_id c) (byTable reg)).
        { apply Htable. by exists m. }
        assert (Hi' : In (tableName m, i) (byTable reg)).
        { apply Htable. by exists meta. }
        apply Map_get_In in Hold', Hi'; try done. congruence.
  - intros i meta. rewrite lookup_insert. destruct (decide (ctor_id c = i)) as [<-|Hi].
    + intros [= <-]. cbn. split; [|done]. by apply (Hmeta _ _ Em).
    + apply Hmeta.
Qed.

Lemma ensureEntityMeta_agree c name reg :
  indexes_agree reg -> indexes_agree (fst (ensureEntityMeta c name reg)).
Proof.
  intros Hagree. unfold ensureEntityMeta.
  destruct (byCtor reg !! ctor_id c) as [m|] eqn:Em.
  - destruct name as [n|]; [|done].
    destruct (negb (String.eqb n EmptyString)) eqn:En; cbn [andb]; [|done].
    apply negb_true_iff, String.eqb_neq in En.
    destruct (negb (String.eqb (tableName m) n)) eqn:Eold; [|done].
    apply negb_true_iff, String.eqb_neq in Eold.
    destruct (match Map_get (byTable reg) n with Some _ => _ | None => _ end) eqn:Econf;
      [done|].
    destruct (String.eqb (tableName m) (ctor_name c)) eqn:Edef; [|done].
    assert (Hfree : ~ In n (map fst (byTable reg))).
    { eapply conflict_free; [done| |done]. intros m' Hm'. congruence. }
    assert (Hmapped : Map_get (byTable reg) (tableName m) = Some (ctor_id c)).
    { destruct Hagree as (Hnd & Htable & _).
      apply Map_get_In; [done|]. apply Htable. by exists m. }
    rewrite Hmapped, Nat.eqb_refl. cbn [fst]. by apply agree_rename.
  - set (tn := match name with Some n => n | None => ctor_name c end).
    destruct (String.eqb tn EmptyString) eqn:Etn; [done|].
    apply String.eqb_neq in Etn.
    destruct (match Map_get (byTable reg) tn with Some _ => _ | None => _ end) eqn:Econf;
      [done|].
    cbn [fst]. apply agree_create; try done.
    eapply conflict_free; [done| |done]. intros m' Hm'. congruence.
Qed.

Lemma agree_set_columns reg i meta cols :
  indexes_agree reg -> byCtor reg !! i = Some meta ->
  indexes_agree
    (mkRegistry (<[i := set_columns meta cols]> (byCtor reg)) (byTable reg) (sealed reg)).
Proof.
  intros (Hnd & Htable & Hmeta) Em. unfold indexes_agree. cbn [byCtor byTable].
  split; [done|]. split.
  - intros n j. rewrite Htable, lookup_insert.
    destruct (decide (i = j)) as [<-|Hj]; [|done].
    split.
    + intros (meta' & Hm' & Hn). rewrite Em in Hm'. injection Hm' as <-. by eexists.
    + intros (meta' & [= <-] & Hn). by exists meta.
  - intros j meta'. rewrite lookup_insert. destruct (decide (i = j)) as [<-|Hj].
    + intros [= <-]. cbn. by apply Hmeta.
    + apply Hmeta.
Qed.

Lemma run_op_agree op reg : indexes_agree reg -> indexes_agree (fst (run_op op reg)).
Proof.
  intros Hagree. destruct op as [c name|constructor key opts| |]; cbn [run_op].
  - unfold addEntity. destruct (assertNotSealed _ reg); [|done].
    pose proof (ensureEntityMeta_agree c name reg Hagree) as H.
    by destruct (ensureEntityMeta c name reg) as [reg' [meta|e]].
  - unfold addColumn. destruct (assertNotSealed _ reg); [|done].
    destruct constructor as [ctor|]; [|done].
    pose proof (ensureEntityMeta_agree ctor None reg Hagree) as H.
    destruct (ensureEntityMeta ctor None reg) as [reg1 [meta|e]] eqn:E; [|done].
    apply ensureEntityMeta_Return in E as (Hmeta & _ & _). cbn [fst] in H.
    destruct (is_true_opt (autoIncrement opts) && negb (is_true_opt (primary opts))); [done|].
    destruct (if is_true_opt (primary opts) then List.find _ (columns meta) else None); [done|].
    cbn [fst]. by apply agree_set_columns.
  - cbn. split; [apply NoDup_nil_2|]. split; [|done].
    intros n i. split; [done|]. by intros (meta & Hm & _).
  - by destruct Hagree as (H1 & H2 & H3).
Qed.

Lemma reachable_agree reg : reachable reg -> indexes_agree reg.
Proof.
  induction 1 as [|op reg Hreach IH].
  - cbn. split; [apply NoDup_nil_2|]. split; [|done].
    intros n i. split; [done|]. by intros (meta & Hm & _).
  - by apply run_op_agree.
Qed.

Lemma agree_wf reg : indexes_agree reg -> registry_ok reg -> registry_wf reg.
Proof.
  intros (Hnd & Htable & Hmeta) Hok. split; [done|]. split.
  - intros n i Hin. by apply Htable.
  - intros i m Hm. by destruct (Hok i m Hm).
Qed.

Lemma getAllEntities_agree reg m :
  indexes_agree reg ->
  (In m (getAllEntities reg) <-> byCtor reg !! ctor_id (target m) = Some m).
Proof.
  intros (Hnd & Htable & Hmeta). unfold getAllEntities. split.
  - intros Hin. apply list_elem_of_In, list_elem_of_omap in Hin as ([n i] & Hin & Hm).
    cbn in Hm. by destruct (Hmeta _ _ Hm) as [-> _].
  - intros Hm. apply list_elem_of_In, list_elem_of_omap.
    exists (tableName m, ctor_id (target m)). split; [|done].
    apply list_elem_of_In, Htable. by exists m.
Qed.

Lemma getAllEntities_names reg :
  (forall n i, In (n, i) (byTable reg) ->
     exists meta, byCtor reg !! i = Some meta /\ tableName meta = n) ->
  map tableName (getAllEntities reg) = map fst (byTable reg).
Proof.
  unfold getAllEntities. induction (byTable reg) as [|[n i] l IH]; intros H; [done|].
  destruct (H n i) as (meta & Hm & Hn); [by left|].
  cbn [omap list_omap snd map fst]. rewrite Hm. cbn [map]. rewrite Hn. f_equal.
  apply IH. intros n' i' Hin. apply H. by right.
Qed.

Lemma agree_by_table reg n m :
  indexes_agree reg ->
  (getEntityMetaByTable n reg = Some m <->
   byCtor reg !! ctor_id (target m) = Some m /\ tableName m = n).
Proof.
  intros (Hnd & Htable & Hmeta). unfold getEntityMetaByTable. split.
  - destruct (Map_get (byTable reg) n) as [i|] eqn:E; [|done]. intros Hm.
    apply Map_get_In in E; [|done]. apply Htable in E as (m' & Hm' & Hn).
    rewrite Hm in Hm'. injection Hm' as <-. split; [|done].
    by destruct (Hmeta _ _ Hm) as [-> _].
  - intros [Hm Hn].
    assert (Hin : In (n, ctor_id (target m)) (byTable reg)).
    { apply Htable. by exists m. }
    apply Map_get_In in Hin; [|done]. by rewrite Hin.
Qed.

(** X1: in every registry that calls can produce, the index by class and
    the index by table name hold the same descriptors: a class is found
    under the table name of its descriptor, a table name leads to a
    descriptor of that name, the name is not empty, and [getAllEntities]
    lists every descriptor, no two under one table name. *)
Theorem registry_indexes_agree (reg : Registry) :
  reachable reg ->
  (forall c m, getEntityMeta c reg = Some m ->
     tableName m <> EmptyString /\ ctor_id (target m) = ctor_id c /\
     getEntityMetaByTable (tableName m) reg = Some m /\ In m (getAllEntities reg)) /\
  (forall n m, getEntityMetaByTable n reg = Some m ->
     tableName m = n /\ getEntityMeta (target m) reg = Some m) /\
  (forall m, In m (getAllEntities reg) -> getEntityMeta (target m) reg = Some m) /\
  NoDup (map tableName (getAllEntities reg)).
Proof.
  intros Hreach. pose proof (reachable_agree reg Hreach) as Hagree.
  split; [|split; [|split]].
  - intros c m Hm. unfold getEntityMeta in Hm.
    destruct Hagree as (Hnd & Htable & Hmeta).
    destruct (Hmeta _ _ Hm) as [Hid Hne]. split; [done|]. split; [done|]. split.
    + apply agree_by_table; [done|]. by rewrite Hid.
    + apply getAllEntities_agree; [done|]. by rewrite Hid.
  - intros n m Hm. apply agree_by_table in Hm as [Hm Hn]; [|done]. by split.
  - intros m Hin. by apply getAllEntities_agree.
  - destruct Hagree as (Hnd & Htable & Hmeta).
    rewrite (getAllEntities_names reg); [done|]. intros n i Hin. by apply Htable.
Qed.

Lemma registry_indexes_agree_witness :
  getEntityMetaByTable "User" registry_with_id
  = Some (mkMeta User "User" [mkColumn "id" primary_options]) /\
  NoDup (map tableName (getAllEntities registry_with_id)).
Proof.
  destruct (registry_indexes_agree registry_with_id (reachable_step _ _ reachable_init))
    as (Hclass & _ & _ & Hnames).
  split; [|exact Hnames].
  destruct (Hclass User (mkMeta User "User" [mkColumn "id" primary_options]) eq_refl)
    as (_ & _ & Htable & _).
  exact Htable.
Defined.

(** ** The registry: sealing and failing registrations *)

Lemma sealed_run_op reg op :
  sealed reg = true -> is_registration op = true ->
  exists action, run_op op reg = (reg, Throw (sealed_message action)).
Proof.
  intros Hsealed. destruct op as [c name|constructor key opts| |]; try done; cbn [run_op].
  - exists "register entities". unfold addEntity, assertNotSealed. by rewrite Hsealed.
  - exists "add columns". unfold addColumn, assertNotSealed. by rewrite Hsealed.
Qed.

Lemma sealed_fold reg ops :
  sealed reg = true -> forallb is_registration ops = true ->
  fold_left (fun r op => fst (run_op op r)) ops reg = reg.
Proof.
  intros Hsealed. induction ops as [|op ops IH]; [done|]. cbn [fold_left forallb].
  intros Hops. apply andb_true_iff in Hops as [Hop Hops].
  destruct (sealed_run_op reg op Hsealed Hop) as [action ->]. cbn [fst]. by apply IH.
Qed.

(** X2: once sealed, the registry rejects every registration and stays as
    it is, whatever sequence of registrations is attempted. *)
Theorem sealed_registry_rejects_registrations (reg : Registry) (ops : list Operation) :
  sealed reg = true -> forallb is_registration ops = true ->
  (forall op, In op ops ->
     exists action, run_op op reg = (reg, Throw (sealed_message action))) /\
  fold_left (fun r op => fst (run_op op r)) ops reg = reg.
Proof.
  intros Hsealed Hops. split.
  - intros op Hop. apply sealed_run_op; [done|].
    by apply (proj1 (forallb_forall _ _) Hops).
  - by apply sealed_fold.
Qed.

Lemma sealed_registry_rejects_registrations_witness :
  let reg := sealRegistry registry_with_id in
  (forall op, In op registrations_once ->
     exists action, run_op op reg = (reg, Throw (sealed_message action))) /\
  fold_left (fun r op => fst (run_op op r)) registrations_once reg = reg.
Proof.
  intros reg.
  apply (sealed_registry_rejects_registrations reg registrations_once); reflexivity.
Defined.

Lemma ensureEntityMeta_None_effect c reg reg' r :
  ensureEntityMeta c None reg = (reg', r) ->
  (reg' = reg /\ (forall meta, r = Return meta -> byCtor reg !! ctor_id c = Some meta)) \/
  (byCtor reg !! ctor_id c = None /\ r = Return (mkMeta c (ctor_name c) []) /\
   reg' = mkRegistry (<[ctor_id c := mkMeta c (ctor_name c) []]> (byCtor reg))
            (Map_set (byTable reg) (ctor_name c) (ctor_id c)) (sealed reg)).
Proof.
  unfold ensureEntityMeta. destruct (byCtor reg !! ctor_id c) as [m|] eqn:Em.
  - intros [= <- <-]. left. split; [done|]. by intros meta [= <-].
  - destruct (String.eqb (ctor_name c) EmptyString).
    { intros [= <- <-]. left. by split. }
    destruct (match Map_get (byTable reg) (ctor_name c) with Some _ => _ | None => _ end).
    { intros [= <- <-]. left. by split. }
    intros [= <- <-]. by right.
Qed.

(** X3: a registry call that throws leaves the registry as it is, with
    one exception: a column registration for a class that has no
    descriptor yet, refused for asking [autoIncrement] without [primary],
    has before that filed the descriptor of the class in both indexes,
    under the name of the class and without columns; nothing else of the
    registry has changed. *)
Theorem throwing_registration_keeps_descriptors (op : Operation) (reg reg' : Registry)
    (e : string) :
  run_op op reg = (reg', Throw e) ->
  reg' = reg \/
  exists c key opts,
    op = OpAddColumn (Some c) key opts /\
    getEntityMeta c reg = None /\
    e = "autoIncrement requires primary: true (table: " +:+ ctor_name c +:+
        ", column: " +:+ key +:+ ")" /\
    reg' = mkRegistry (<[ctor_id c := mkMeta c (ctor_name c) []]> (byCtor reg))
             (Map_set (byTable reg) (ctor_name c) (ctor_id c)) (sealed reg) /\
    getEntityMeta c reg' = Some (mkMeta c (ctor_name c) []) /\
    getEntityMetaByTable (ctor_name c) reg' = Some (mkMeta c (ctor_name c) []) /\
    (forall c', ctor_id c' <> ctor_id c -> getEntityMeta c' reg' = getEntityMeta c' reg) /\
    (forall n, n <> ctor_name c ->
       Map_get (byTable reg') n = Map_get (byTable reg) n).
Proof.
  destruct op as [c name|constructor key opts| |]; cbn [run_op]; try done.
  - unfold addEntity. destruct (assertNotSealed _ reg); [|by intros [= <- _]; left].
    destruct (ensureEntityMeta c name reg) as [reg1 [meta|e1]] eqn:E; [done|].
    apply ensureEntityMeta_Throw in E as ->. intros [= <- _]. by left.
  - unfold addColumn. destruct (assertNotSealed _ reg); [|by intros [= <- _]; left].
    destruct constructor as [ctor|]; [|by intros [= <- _]; left].
    destruct (ensureEntityMeta ctor None reg) as [reg1 r] eqn:E.
    apply ensureEntityMeta_None_effect in E as [[-> _]|(Hnone & -> & ->)].
    + destruct r as [meta|e1]; [|by intros [= <- _]; left].
      destruct (is_true_opt (autoIncrement opts) && negb (is_true_opt (primary opts)));
        [by intros [= <- _]; left|].
      destruct (if is_true_opt (primary opts) then List.find _ (columns meta) else None);
        [by intros [= <- _]; left|done].
    + cbn [columns tableName List.find].
      destruct (is_true_opt (autoIncrement opts) && negb (is_true_opt (primary opts)));
        [|by destruct (is_true_opt (primary opts))].
      intros [= <- <-]. right. exists ctor, key, opts.
      split; [done|]. split; [done|]. split; [done|]. split; [done|].
      unfold getEntityMeta, getEntityMetaByTable. cbn [byCtor byTable].
      split; [by rewrite lookup_insert_eq|]. split.
      { rewrite Map_get_Map_set, String.eqb_refl. by rewrite lookup_insert_eq. }
      split.
      * intros c' Hc'. rewrite lookup_insert.
        destruct (decide (ctor_id ctor = ctor_id c')); [congruence|done].
      * intros n Hn. rewrite Map_get_Map_set.
        apply not_eq_sym, String.eqb_neq in Hn. by rewrite Hn.
Qed.

Lemma throwing_registration_keeps_descriptors_witness :
  exists reg' e,
    run_op (OpAddColumn (Some Admin) "level" (mkOptions None (Some true))) registry_with_id
    = (reg', Throw e) /\
    getEntityMeta Admin reg' = Some (mkMeta Admin "Admin" []) /\
    getEntityMeta User reg' = getEntityMeta User registry_with_id.
Proof.
  eexists _, _. split; [reflexivity|].
  destruct (throwing_registration_keeps_descriptors
              (OpAddColumn (Some Admin) "level" (mkOptions None (Some true)))
              registry_with_id _ _ eq_refl)
    as [Hsame|(c & key & opts & [= <- <- <-] & _ & _ & _ & Hmeta & _ & Hothers & _)].
  - discriminate Hsame.
  - split; [exact Hmeta|]. apply Hothers. discriminate.
Defined.

(** X4: a column registration that validation rejects has, before that,
    registered its class: asking for [autoIncrement] without [primary] on
    the first column of a class throws and leaves the class registered
    under its own name, without columns. *)
Theorem rejected_column_registers_class (reg : Registry) (c : Ctor) (key : string)
    (opts : ColumnOptions) :
  reachable reg -> sealed reg = false ->
  getEntityMeta c reg = None -> ctor_name c <> EmptyString ->
  getEntityMetaByTable (ctor_name c) reg = None ->
  is_true_opt (autoIncrement opts) = true -> is_true_opt (primary opts) = false ->
  exists reg',
    addColumn (Some c) key opts reg
    = (reg', Throw ("autoIncrement requires primary: true (table: " +:+ ctor_name c +:+
                    ", column: " +:+ key +:+ ")")) /\
    getEntityMeta c reg' = Some (mkMeta c (ctor_name c) []) /\
    getEntityMetaByTable (ctor_name c) reg' = Some (mkMeta c (ctor_name c) []) /\
    In (mkMeta c (ctor_name c) []) (getAllEntities reg').
Proof.
  intros Hreach Hsealed Hnone Hname Hfree Hauto Hprim.
  pose proof (reachable_agree reg Hreach) as Hagree.
  assert (Hmap : Map_get (byTable reg) (ctor_name c) = None).
  { destruct Hagree as (Hnd & Htable & _). unfold getEntityMetaByTable in Hfree.
    destruct (Map_get (byTable reg) (ctor_name c)) as [i|] eqn:E; [|done].
    apply Map_get_In in E; [|done]. apply Htable in E as (m & Hm & _). congruence. }
  unfold addColumn, assertNotSealed. rewrite Hsealed. unfold ensureEntityMeta.
  unfold getEntityMeta in Hnone. rewrite Hnone.
  apply String.eqb_neq in Hname. rewrite Hname, Hmap, Hauto, Hprim. cbn [andb negb tableName].
  eexists. split; [reflexivity|].
  assert (Hget : forall A (m : gmap nat A) i x, <[i := x]> m !! i = Some x).
  { intros. apply lookup_insert_eq. }
  unfold getEntityMeta, getEntityMetaByTable. cbn [byCtor byTable].
  rewrite Map_get_Map_set, String.eqb_refl, Hget. split; [done|]. split; [done|].
  unfold getAllEntities. cbn [byCtor byTable].
  apply list_elem_of_In, list_elem_of_omap. exists (ctor_name c, ctor_id c).
  split; [|by rewrite Hget].
  apply Map_get_None_keys in Hmap. rewrite (Map_set_fresh _ _ _ Hmap).
  apply list_elem_of_In, in_app_iff. right. by left.
Qed.

Lemma rejected_column_registers_class_witness :
  exists reg' e,
    addColumn (Some Admin) "id" (mkOptions None (Some true)) registry_with_id = (reg', Throw e) /\
    getEntityMeta Admin reg' = Some (mkMeta Admin "Admin" []).
Proof.
  destruct (rejected_column_registers_class registry_with_id Admin "id"
              (mkOptions None (Some true)))
    as (reg' & Hthrow & Hmeta & _); try reflexivity.
  - apply reachable_step, reachable_init.
  - discriminate.
  - exists reg'. eexists. split; [exact Hthrow|exact Hmeta].
Defined.

(** ** The registry: the upsert of a column *)

Lemma column_of_insert cols i col key k old :
  cols !! i = Some old -> propertyKey old = key -> propertyKey col = key ->
  findIndex (fun c => String.eqb (propertyKey c) key) cols = Some i ->
  column_of k (<[i := col]> cols) = if String.eqb key k then Some col else column_of k cols.
Proof.
  unfold column_of. revert i. induction cols as [|c0 cols IH]; intros i; [done|].
  cbn [findIndex]. destruct (String.eqb (propertyKey c0) key) eqn:E0.
  - intros Hi Hold Hcol [= <-]. cbn in Hi. injection Hi as ->. cbn. rewrite Hcol.
    apply String.eqb_eq in E0. rewrite Hold.
    destruct (String.eqb key k) eqn:Ek; [done|]. done.
  - destruct (findIndex _ cols) as [j|] eqn:Ej; [|done]. intros Hi Hold Hcol [= <-].
    cbn in Hi. cbn [List.find]. change (<[S j := col]> (c0 :: cols)) with (c0 :: <[j := col]> cols).
    cbn [List.find]. rewrite (IH j Hi Hold Hcol eq_refl).
    destruct (String.eqb (propertyKey c0) k) eqn:E0k; [|done].
    apply String.eqb_eq in E0k. subst k.
    apply String.eqb_neq in E0. apply not_eq_sym, String.eqb_neq in E0. by rewrite E0.
Qed.

Lemma column_of_snoc cols col key k :
  propertyKey col = key ->
  findIndex (fun c => String.eqb (propertyKey c) key) cols = None ->
  column_of k (cols ++ [col]) = if String.eqb key k then Some col else column_of k cols.
Proof.
  unfold column_of. intros Hcol Hnone.
  pose proof (findIndex_None _ _ Hnone) as Hall. clear Hnone.
  induction cols as [|c0 cols IH]; cbn.
  - by rewrite Hcol.
  - destruct (String.eqb (propertyKey c0) k) eqn:E0k.
    + apply String.eqb_eq in E0k. subst k.
      rewrite String.eqb_sym, (Hall c0) by (by left). done.
    + apply IH. intros x Hx. apply Hall. by right.
Qed.

Lemma findIndex_column_of cols key :
  match findIndex (fun c => String.eqb (propertyKey c) key) cols with
  | Some i => exists old, cols !! i = Some old /\ propertyKey old = key /\
                          column_of key cols = Some old
  | None => column_of key cols = None
  end.
Proof.
  unfold column_of. induction cols as [|c0 cols IH]; [done|]. cbn.
  destruct (String.eqb (propertyKey c0) key) eqn:E0.
  - exists c0. apply String.eqb_eq in E0. done.
  - destruct (findIndex _ cols) as [j|]; [|done].
    destruct IH as (old & Hj & Hk & Hfind). by exists old.
Qed.

(** What a column registration that returns has done: the columns of the
    class before and after, and the descriptors of the other classes. *)
Lemma addColumn_Return_columns reg reg' c key opts :
  addColumn (Some c) key opts reg = (reg', Return tt) ->
  let before := declared_columns c reg in
  let previous :=
    match column_of key before with
    | Some col => options col
    | None => no_options
    end in
  declared_columns c reg' =
    (match findIndex (fun c => String.eqb (propertyKey c) key) before with
     | Some i => <[i := mkColumn key (spread previous opts)]> before
     | None => before ++ [mkColumn key (spread previous opts)]
     end) /\
  (forall c', ctor_id c' <> ctor_id c -> getEntityMeta c' reg' = getEntityMeta c' reg).
Proof.
  intros Hadd before previous. revert Hadd.
  unfold addColumn. destruct (assertNotSealed _ reg); [|done].
  destruct (ensureEntityMeta c None reg) as [reg1 r] eqn:E.
  pose proof (ensureEntityMeta_None_effect _ _ _ _ E) as Heff.
  destruct r as [meta|e]; [|done].
  destruct (is_true_opt (autoIncrement opts) && negb (is_true_opt (primary opts))); [done|].
  destruct (if is_true_opt (primary opts) then List.find _ (columns meta) else None); [done|].
  intros [= Hreg']. subst reg'.
  assert (Hbefore : before = columns meta).
  { unfold before, declared_columns, getEntityMeta.
    destruct Heff as [[-> Hm]|(Hnone & [= Hmeta] & _)].
    - by rewrite (Hm meta eq_refl).
    - rewrite Hnone, Hmeta. reflexivity. }
  assert (Hothers : forall c', ctor_id c' <> ctor_id c ->
            byCtor reg1 !! ctor_id c' = byCtor reg !! ctor_id c').
  { intros c' Hc'. destruct Heff as [[-> _]|(_ & _ & ->)]; [done|].
    cbn [byCtor]. rewrite lookup_insert.
    destruct (decide (ctor_id c = ctor_id c')) as [Heq|]; [by rewrite Heq in Hc'|done]. }
  split.
  - unfold declared_columns at 1, getEntityMeta. cbn [byCtor].
    rewrite lookup_insert_eq. cbn [columns set_columns].
    unfold previous. rewrite Hbefore.
    pose proof (findIndex_column_of (columns meta) key) as Hidx.
    destruct (findIndex _ (columns meta)) as [i|].
    + destruct Hidx as (old & Hi & _ & Hfind). by rewrite Hi, Hfind.
    + by rewrite Hidx.
  - intros c' Hc'. unfold getEntityMeta. cbn [byCtor]. rewrite lookup_insert.
    destruct (decide (ctor_id c = ctor_id c')) as [Heq|]; [by rewrite Heq in Hc'|].
    by apply Hothers.
Qed.

(** X5: a column registration that returns has upserted the column of that
    property: its options are the options registered before for the
    property overlaid with the new ones; an existing column keeps its
    place and a new one goes last; every other column, and every other
    class, is as before. *)
Theorem addColumn_upserts (reg reg' : Registry) (c : Ctor) (key : string)
    (opts : ColumnOptions) :
  addColumn (Some c) key opts reg = (reg', Return tt) ->
  let before := declared_columns c reg in
  let after := declared_columns c reg' in
  let previous :=
    match column_of key before with
    | Some col => options col
    | None => no_options
    end in
  column_of key after = Some (mkColumn key (spread previous opts)) /\
  (forall k, k <> key -> column_of k after = column_of k before) /\
  map propertyKey after =
    (match column_of key before with
     | Some _ => map propertyKey before
     | None => map propertyKey before ++ [key]
     end) /\
  (forall c', ctor_id c' <> ctor_id c -> getEntityMeta c' reg' = getEntityMeta c' reg).
Proof.
  intros Hadd before after previous.
  destruct (addColumn_Return_columns reg reg' c key opts Hadd) as [Hafter Hothers].
  fold before previous in Hafter. fold after in Hafter. rewrite Hafter. clear Hafter.
  pose proof (findIndex_column_of before key) as Hidx.
  destruct (findIndex _ before) as [i|] eqn:Ei.
  - destruct Hidx as (old & Hi & Hk & Hfind). rewrite Hfind.
    split; [|split; [|split]]; [| | |done].
    + rewrite (column_of_insert _ _ _ key key old) by done. by rewrite String.eqb_refl.
    + intros k Hne. rewrite (column_of_insert _ _ _ key k old) by done.
      apply not_eq_sym, String.eqb_neq in Hne. by rewrite Hne.
    + rewrite list_fmap_insert. cbn [propertyKey].
      apply list_insert_id. rewrite list_lookup_fmap, Hi. cbn. by rewrite Hk.
  - rewrite Hidx. split; [|split; [|split]]; [| | |done].
    + rewrite (column_of_snoc _ _ key key) by done. by rewrite String.eqb_refl.
    + intros k Hne. rewrite (column_of_snoc _ _ key k) by done.
      apply not_eq_sym, String.eqb_neq in Hne. by rewrite Hne.
    + by rewrite map_app.
Qed.

Lemma addColumn_upserts_witness :
  let reg' := fst (addColumn (Some User) "id" (mkOptions None (Some false)) registry_with_id) in
  column_of "id" (declared_columns User reg') = Some (mkColumn "id" (auto_options false)).
Proof.
  intros reg'.
  destruct (addColumn_upserts registry_with_id reg' User "id" (mkOptions None (Some false))
              eq_refl) as [Hcol _].
  exact Hcol.
Defined.

(** ** The registry: repeated registrations, renames and inheritance *)

Lemma spread_idempotent a b : spread (spread a b) b = spread a b.
Proof. destruct a as [pa aa], b as [[pb|] [ab|]]; reflexivity. Qed.

Lemma find_insert_other {A : Type} (f : A -> bool) (l : list A) (i : nat) (x old : A) :
  l !! i = Some old -> f old = false -> f x = false ->
  List.find f (<[i := x]> l) = List.find f l.
Proof.
  revert i. induction l as [|y l IH]; intros i; [done|].
  destruct i as [|i]; cbn.
  - intros [= ->] Hold Hx. by rewrite Hold, Hx.
  - intros Hi Hold Hx. destruct (f y); [done|]. by apply IH.
Qed.

Lemma find_snoc_other {A : Type} (f : A -> bool) (l : list A) (x : A) :
  f x = false -> List.find f (l ++ [x]) = List.find f l.
Proof.
  intros Hx. induction l as [|y l IH]; cbn; [by rewrite Hx|].
  by destruct (f y).
Qed.

Lemma findIndex_insert cols i col key old :
  cols !! i = Some old -> propertyKey col = key ->
  findIndex (fun c => String.eqb (propertyKey c) key) cols = Some i ->
  findIndex (fun c => String.eqb (propertyKey c) key) (<[i := col]> cols) = Some i.
Proof.
  revert i. induction cols as [|c0 cols IH]; intros i; [done|].
  cbn [findIndex]. destruct (String.eqb (propertyKey c0) key) eqn:E0.
  - intros Hi Hcol [= <-]. cbn. by rewrite Hcol, String.eqb_refl.
  - destruct (findIndex _ cols) as [j|] eqn:Ej; [|done]. intros Hi Hcol [= <-].
    cbn in Hi. change (<[S j := col]> (c0 :: cols)) with (c0 :: <[j := col]> cols).
    cbn [findIndex]. by rewrite E0, (IH j Hi Hcol eq_refl).
Qed.

Lemma findIndex_snoc cols col key :
  propertyKey col = key ->
  findIndex (fun c => String.eqb (propertyKey c) key) cols = None ->
  findIndex (fun c => String.eqb (propertyKey c) key) (cols ++ [col]) = Some (length cols).
Proof.
  intros Hcol. induction cols as [|c0 cols IH]; cbn.
  - by rewrite Hcol, String.eqb_refl.
  - destruct (String.eqb (propertyKey c0) key); [done|].
    destruct (findIndex _ cols); [done|]. intros _. by rewrite IH.
Qed.

(** X6: registering a column once more with the same options changes
    nothing: after a column registration that returns, the same call
    returns again and leaves the registry as it is. *)
Theorem addColumn_idempotent (reg reg' : Registry) (c : Ctor) (key : string)
    (opts : ColumnOptions) :
  addColumn (Some c) key opts reg = (reg', Return tt) ->
  addColumn (Some c) key opts reg' = (reg', Return tt).
Proof.
  unfold addColumn at 1. destruct (assertNotSealed _ reg) eqn:Hseal; [|done].
  destruct (ensureEntityMeta c None reg) as [reg1 [meta|e]] eqn:E; [|done].
  apply ensureEntityMeta_Return in E as (Hmeta & Hsealed1 & _).
  destruct (is_true_opt (autoIncrement opts) && negb (is_true_opt (primary opts))) eqn:Hauto;
    [done|].
  destruct (if is_true_opt (primary opts) then List.find _ (columns meta) else None)
    eqn:Hguard; [done|].
  set (idx := findIndex (fun c => String.eqb (propertyKey c) key) (columns meta)).
  set (old := match idx with
              | Some i => match columns meta !! i with
                          | Some c => options c
                          | None => no_options
                          end
              | None => no_options
              end).
  set (col := mkColumn key (spread old opts)).
  set (columns' := match idx with
                   | Some i => <[i := col]> (columns meta)
                   | None => columns meta ++ [col]
                   end).
  intros [= <-].
  unfold addColumn, assertNotSealed. cbn [sealed].
  unfold assertNotSealed in Hseal. rewrite Hsealed1.
  destruct (sealed reg); [done|].
  unfold ensureEntityMeta. cbn [byCtor]. rewrite lookup_insert_eq. rewrite Hauto.
  cbn [columns set_columns tableName].
  assert (Hidx' :
    findIndex (fun c => String.eqb (propertyKey c) key) columns' =
    Some (match idx with Some i => i | None => length (columns meta) end) /\
    columns' !! (match idx with Some i => i | None => length (columns meta) end) = Some col).
  { unfold columns'. pose proof (findIndex_column_of (columns meta) key) as Hidx. fold idx in Hidx.
    destruct idx as [i|] eqn:Ei.
    - destruct Hidx as (o & Hi & Hk & _). split.
      + by apply (findIndex_insert _ _ _ _ o).
      + apply list_lookup_insert_eq. by apply lookup_lt_Some in Hi.
    - split.
      + by apply findIndex_snoc.
      + by rewrite lookup_app_r, Nat.sub_diag. }
  destruct Hidx' as [Hfind Hlook].
  assert (Hguard' :
    (if is_true_opt (primary opts)
     then List.find
            (fun c => is_true_opt (primary (options c)) && negb (String.eqb (propertyKey c) key))
            columns'
     else None) = None).
  { destruct (is_true_opt (primary opts)); [|done]. rewrite <- Hguard. unfold columns'.
    pose proof (findIndex_column_of (columns meta) key) as Hidx. fold idx in Hidx.
    destruct idx as [i|].
    - destruct Hidx as (o & Hi & Hk & _). apply (find_insert_other _ _ _ _ o); [done| |].
      + by rewrite Hk, String.eqb_refl, andb_false_r.
      + cbn. by rewrite String.eqb_refl, andb_false_r.
    - apply find_snoc_other. cbn. by rewrite String.eqb_refl, andb_false_r. }
  rewrite Hguard', Hfind, Hlook.
  assert (Hcol : mkColumn key (spread (options col) opts) = col).
  { unfold col. cbn [options]. by rewrite spread_idempotent. }
  rewrite Hcol.
  assert (Hcols : <[match idx with Some i => i | None => length (columns meta) end := col]>
                    columns' = columns').
  { by apply list_insert_id. }
  rewrite Hcols. f_equal. f_equal. cbn [byCtor byTable sealed target tableName].
  by rewrite insert_insert_eq.
Qed.

Lemma addColumn_idempotent_witness :
  let reg' := fst (addColumn (Some User) "id" (auto_options true) empty_registry) in
  addColumn (Some User) "id" (auto_options true) reg' = (reg', Return tt).
Proof.
  intros reg'.
  apply (addColumn_idempotent empty_registry reg' User "id" (auto_options true)).
  reflexivity.
Defined.

Lemma Map_get_cons {V : Type} (m : list (string * V)) k0 v0 k :
  Map_get ((k0, v0) :: m) k = if String.eqb k0 k then Some v0 else Map_get m k.
Proof. unfold Map_get. cbn. by destruct (String.eqb k0 k). Qed.

Lemma Map_get_Map_delete {V : Type} (m : list (string * V)) k0 k :
  Map_get (Map_delete m k0) k = if String.eqb k0 k then None else Map_get m k.
Proof.
  induction m as [|[k1 v1] m IH].
  - cbn. by destruct (String.eqb k0 k).
  - unfold Map_delete in *. cbn [List.filter fst].
    destruct (String.eqb k1 k0) eqn:E1; cbn [negb].
    + rewrite IH, Map_get_cons. apply String.eqb_eq in E1. subst k1.
      by destruct (String.eqb k0 k).
    + rewrite !Map_get_cons, IH. destruct (String.eqb k1 k) eqn:E2; [|done].
      apply String.eqb_eq in E2. subst k1. rewrite String.eqb_sym in E1. by rewrite E1.
Qed.

(** X7: the rename of [addEntity]: a class registered under its own name
    takes the explicit name when that name is free; it is then found under
    the new name with its columns, its old name is free again, and every
    other class and table name is as before. *)
Theorem addEntity_renames_default_name (reg : Registry) (c : Ctor) (m : EntityMeta)
    (n : string) :
  reachable reg -> sealed reg = false ->
  getEntityMeta c reg = Some m -> tableName m = ctor_name c ->
  n <> EmptyString -> n <> ctor_name c -> getEntityMetaByTable n reg = None ->
  exists reg',
    addEntity c (Some n) reg = (reg', Return tt) /\
    getEntityMeta c reg' = Some (set_tableName m n) /\
    getEntityMetaByTable n reg' = Some (set_tableName m n) /\
    getEntityMetaByTable (ctor_name c) reg' = None /\
    (forall n', n' <> n -> n' <> ctor_name c ->
       getEntityMetaByTable n' reg' = getEntityMetaByTable n' reg) /\
    (forall c', ctor_id c' <> ctor_id c -> getEntityMeta c' reg' = getEntityMeta c' reg).
Proof.
  intros Hreach Hsealed Hm Hdefault Hn Hne Hfree.
  pose proof (reachable_agree reg Hreach) as Hagree.
  destruct Hagree as (Hnd & Htable & Hmeta).
  unfold getEntityMeta in Hm.
  assert (Hmap : Map_get (byTable reg) n = None).
  { unfold getEntityMetaByTable in Hfree.
    destruct (Map_get (byTable reg) n) as [i|] eqn:E; [|done].
    apply Map_get_In in E; [|done]. apply Htable in E as (m' & Hm' & _). congruence. }
  assert (Hold : Map_get (byTable reg) (ctor_name c) = Some (ctor_id c)).
  { apply Map_get_In; [done|]. apply Htable. exists m. by split. }
  unfold addEntity, assertNotSealed. rewrite Hsealed. unfold ensureEntityMeta.
  rewrite Hm, Hdefault.
  apply String.eqb_neq in Hn. rewrite Hn.
  assert (Hne' : String.eqb (ctor_name c) n = false) by (apply String.eqb_neq; congruence).
  rewrite Hne'. cbn [negb andb]. rewrite Hmap, String.eqb_refl, Hold, Nat.eqb_refl.
  eexists. split; [reflexivity|].
  unfold getEntityMeta, getEntityMetaByTable. cbn [byCtor byTable].
  pose proof (Map_get_Map_delete (byTable reg) (ctor_name c)) as Hdel.
  rewrite !Map_get_Map_set, String.eqb_refl, lookup_insert_eq.
  split; [done|]. split; [done|]. split; [|split].
  - apply String.eqb_neq in Hne. rewrite Hne, Hdel, String.eqb_refl. done.
  - intros n' Hn1 Hn2. apply not_eq_sym, String.eqb_neq in Hn1.
    rewrite Map_get_Map_set, Hn1, Hdel.
    apply not_eq_sym, String.eqb_neq in Hn2. rewrite Hn2.
    destruct (Map_get (byTable reg) n') as [i|] eqn:E; [|done].
    rewrite lookup_insert. destruct (decide (ctor_id c = i)) as [<-|]; [|done].
    apply Map_get_In in E; [|done]. apply Htable in E as (m' & Hm' & Hname).
    rewrite Hm in Hm'. injection Hm' as <-. apply String.eqb_neq in Hn2. congruence.
  - intros c' Hc'. rewrite lookup_insert.
    destruct (decide (ctor_id c = ctor_id c')) as [Heq|]; [by rewrite Heq in Hc'|done].
Qed.

Lemma addEntity_renames_default_name_witness :
  exists reg',
    addEntity User (Some "people") registry_with_id = (reg', Return tt) /\
    getEntityMetaByTable "User" reg' = None /\
    option_map columns (getEntityMetaByTable "people" reg')
    = Some [mkColumn "id" primary_options].
Proof.
  destruct (addEntity_renames_default_name registry_with_id User
              (mkMeta User "User" [mkColumn "id" primary_options]) "people")
    as (reg' & Hadd & _ & Hnew & Hold & _); try reflexivity; try discriminate.
  - apply reachable_step, reachable_init.
  - exists reg'. split; [exact Hadd|]. split; [exact Hold|]. by rewrite Hnew.
Defined.

(** X8: a class whose table name is not its own name is never renamed:
    [addEntity] with another name throws and leaves the registry as it
    is. *)
Theorem addEntity_refuses_second_rename (reg : Registry) (c : Ctor) (m : EntityMeta)
    (n : string) :
  getEntityMeta c reg = Some m -> tableName m <> ctor_name c ->
  n <> EmptyString -> n <> tableName m ->
  exists e, addEntity c (Some n) reg = (reg, Throw e).
Proof.
  intros Hm Hdefault Hn Hne. unfold getEntityMeta in Hm.
  unfold addEntity. destruct (assertNotSealed _ reg); [|by eexists].
  unfold ensureEntityMeta. rewrite Hm.
  apply String.eqb_neq in Hn. rewrite Hn.
  apply not_eq_sym, String.eqb_neq in Hne. rewrite Hne. cbn [negb andb].
  destruct (match Map_get (byTable reg) n with Some _ => _ | None => _ end); [by eexists|].
  apply String.eqb_neq in Hdefault. rewrite Hdefault. by eexists.
Qed.

Lemma addEntity_refuses_second_rename_witness :
  let renamed := fst (addEntity User (Some "people") registry_with_id) in
  exists e, addEntity User (Some "members") renamed = (renamed, Throw e).
Proof.
  intros renamed.
  apply (addEntity_refuses_second_rename renamed User
           (mkMeta User "people" [mkColumn "id" primary_options]) "members");
    try reflexivity; discriminate.
Defined.

Lemma find_merged (m : list (string * ColumnMeta)) key :
  merged_ok m -> column_of key (map snd m) = Map_get m key.
Proof.
  unfold column_of, Map_get. intros [_ Hkeys].
  induction m as [|[k0 c0] m IH]; [done|]. cbn [map snd List.find fst].
  pose proof (Hkeys (k0, c0) (or_introl eq_refl)) as Hk0. cbn [fst snd] in Hk0. rewrite Hk0.
  destruct (String.eqb k0 key); [done|]. apply IH. intros e He. apply Hkeys. by right.
Qed.

Lemma nearest_declaration_app reg l1 l2 key :
  nearest_declaration reg (l1 ++ l2) key =
  match nearest_declaration reg l1 key with
  | Some col => Some col
  | None => nearest_declaration reg l2 key
  end.
Proof.
  induction l1 as [|c l1 IH]; [done|]. cbn.
  by destruct (column_of key (declared_columns c reg)).
Qed.

Lemma Map_get_merged_from reg chain (acc : list (string * ColumnMeta)) key :
  registry_ok reg ->
  Map_get
    (fold_left
       (fun (columnsMap : list (string * ColumnMeta)) ctor =>
          match byCtor reg !! ctor_id ctor with
          | None => columnsMap
          | Some m =>
              fold_left
                (fun columnsMap c =>
                   let cloned := mkColumn (propertyKey c) (options c) in
                   Map_set columnsMap (propertyKey cloned) cloned)
                (columns m) columnsMap
          end)
       chain acc) key =
  match nearest_declaration reg (rev chain) key with
  | Some col => Some col
  | None => Map_get acc key
  end.
Proof.
  intros Hok. revert acc. induction chain as [|c chain IH]; intros acc; [done|].
  cbn [fold_left rev]. rewrite IH, nearest_declaration_app.
  destruct (nearest_declaration reg (rev chain) key); [done|].
  cbn [nearest_declaration]. unfold declared_columns, getEntityMeta.
  destruct (byCtor reg !! ctor_id c) as [m|] eqn:Em; [|done].
  rewrite Map_get_merge_columns by (by destruct (Hok _ _ Em)).
  unfold column_of. destruct (List.find _ (columns m)) as [[k o]|]; done.
Qed.

(** X9: [resolveEntity] merges the columns down the inheritance chain, the
    class nearest to the leaf winning: in what it returns the property keys
    are distinct, and the column of a property is the one declared by the
    nearest class of the chain that declares the property. *)
Theorem resolveEntity_nearest_class_wins (reg : Registry) (meta : EntityMeta)
    (cols : list ColumnMeta) :
  reachable reg -> resolveEntity meta reg = Return cols ->
  NoDup (map propertyKey cols) /\
  forall key,
    column_of key cols = nearest_declaration reg (rev (chain_of (target meta))) key.
Proof.
  intros Hreach. unfold resolveEntity.
  destruct (Nat.ltb 1 _); [done|]. intros [= <-].
  pose proof (mergedColumns_ok (chain_of (target meta)) reg) as Hmerged.
  split; [by apply merged_ok_values|].
  intros key. rewrite find_merged by done. unfold mergedColumns.
  rewrite Map_get_merged_from by (by apply reachable_ok).
  by destruct (nearest_declaration _ _ _).
Qed.

Lemma run_ops_reachable ops reg : reachable reg -> reachable (fst (run_ops ops reg)).
Proof.
  revert reg. induction ops as [|op ops IH]; intros reg Hreach; [done|].
  cbn [run_ops]. pose proof (reachable_step op reg Hreach) as Hstep.
  destruct (run_op op reg) as [reg' [u|e]]; [by apply IH|done].
Qed.

Lemma resolveEntity_nearest_class_wins_witness :
  exists cols,
    resolveEntity (mkMeta Admin "Admin" []) registry_with_admin = Return cols /\
    column_of "id" cols = Some (mkColumn "id" (auto_options true)) /\
    NoDup (map propertyKey cols).
Proof.
  eexists. split; [reflexivity|].
  assert (Hreach : reachable registry_with_admin).
  { apply run_ops_reachable, reachable_init. }
  destruct (resolveEntity_nearest_class_wins registry_with_admin (mkMeta Admin "Admin" []) _
              Hreach eq_refl) as [Hnd Hcol].
  split; [|exact Hnd]. rewrite Hcol. reflexivity.
Defined.

(** ** The schema: its entries and its failures *)

Lemma buildTableSchema_Throw meta reg e :
  buildTableSchema meta reg = Throw e <-> resolveEntity meta reg = Throw e.
Proof.
  unfold buildTableSchema. destruct (resolveEntity meta reg) as [cols|e0].
  - split; intros H; discriminate H.
  - split; intros [= <-]; reflexivity.
Qed.

Lemma Map_get_assign schema k v n :
  Map_get (assign schema k v) n =
  if String.eqb k "__proto__" then Map_get schema n
  else if String.eqb k n then Some v else Map_get schema n.
Proof.
  unfold assign. destruct (String.eqb k "__proto__"); [done|]. apply Map_get_Map_set.
Qed.

Lemma find_name_In (l : list EntityMeta) n m :
  NoDup (map tableName l) ->
  (List.find (fun m => String.eqb (tableName m) n) l = Some m <-> In m l /\ tableName m = n).
Proof.
  induction l as [|m0 l IH]; cbn; intros Hnd; [by intuition|].
  apply NoDup_cons in Hnd as [Hm0 Hnd]. destruct (String.eqb (tableName m0) n) eqn:E.
  - apply String.eqb_eq in E. split.
    + intros [= <-]. split; [by left|done].
    + intros [[->|Hin] Hk]; [done|]. exfalso. apply Hm0.
      apply list_elem_of_In, in_map_iff. exists m. split; [congruence|done].
  - rewrite (IH Hnd). split; [intros [? ?]; split; [by right|done]|].
    intros [[->|Hin] Hk]; [|done]. rewrite Hk, String.eqb_refl in E. done.
Qed.

Section SchemaEntries.

Variable localeCompare : string -> string -> Z.

Lemma buildSchema_fold_lookup reg (l : list EntityMeta) acc schema :
  NoDup (map tableName l) ->
  fold_left
    (fun (schema : outcome (list (string * string))) meta =>
       match schema with
       | Throw e => Throw e
       | Return schema =>
           match buildTableSchema meta reg with
           | Throw e => Throw e
           | Return s => Return (assign schema (tableName meta) s)
           end
       end) l (Return acc) = Return schema ->
  forall n,
    Map_get schema n =
    match List.find (fun m => String.eqb (tableName m) n) l with
    | Some m =>
        if String.eqb n "__proto__" then Map_get acc n
        else match buildTableSchema m reg with
             | Return s => Some s
             | Throw _ => None
             end
    | None => Map_get acc n
    end.
Proof.
  revert acc. induction l as [|m l IH]; intros acc Hnd; cbn [fold_left].
  - by intros [= <-].
  - apply NoDup_cons in Hnd as [Hm Hnd].
    destruct (buildTableSchema m reg) as [s|e] eqn:Es.
    2:{ by rewrite buildSchema_fold_Throw. }
    intros Hfold n. rewrite (IH _ Hnd Hfold n). cbn [List.find].
    rewrite !Map_get_assign.
    destruct (String.eqb (tableName m) n) eqn:En.
    + apply String.eqb_eq in En. subst n.
      destruct (List.find _ l) as [m'|] eqn:Ef.
      { apply find_some in Ef as [Hin Hname]. apply String.eqb_eq in Hname.
        exfalso. apply Hm. rewrite <- Hname. apply list_elem_of_In, in_map. done. }
      rewrite Es. by destruct (String.eqb (tableName m) "__proto__").
    + destruct (List.find _ l) as [m'|].
      * destruct (String.eqb n "__proto__"); [|done].
        by destruct (String.eqb (tableName m) "__proto__").
      * by destruct (String.eqb (tableName m) "__proto__").
Qed.

Lemma buildSchema_fold_throws reg (l : list EntityMeta) acc :
  (forall e,
     fold_left
       (fun (schema : outcome (list (string * string))) meta =>
          match schema with
          | Throw e => Throw e
          | Return schema =>
              match buildTableSchema meta reg with
              | Throw e => Throw e
              | Return s => Return (assign schema (tableName meta) s)
              end
          end) l (Return acc) = Throw e ->
     exists meta, In meta l /\ buildTableSchema meta reg = Throw e) /\
  (forall meta e, In meta l -> buildTableSchema meta reg = Throw e ->
     exists e',
       fold_left
         (fun (schema : outcome (list (string * string))) meta =>
            match schema with
            | Throw e => Throw e
            | Return schema =>
                match buildTableSchema meta reg with
                | Throw e => Throw e
                | Return s => Return (assign schema (tableName meta) s)
                end
            end) l (Return acc) = Throw e').
Proof.
  revert acc. induction l as [|m l IH]; intros acc; cbn [fold_left].
  - split; [done|]. by intros meta e [].
  - destruct (buildTableSchema m reg) as [s|e0] eqn:Es.
    + destruct (IH (assign acc (tableName m) s)) as [IH1 IH2]. split.
      * intros e He. destruct (IH1 e He) as (meta & Hin & Hm). exists meta. split; [by right|done].
      * intros meta e [<-|Hin] Hm; [congruence|]. by apply (IH2 meta e).
    + rewrite buildSchema_fold_Throw. split.
      * intros e [= <-]. exists m. split; [by left|done].
      * intros meta e _ _. by exists e0.
Qed.

(** The entry of a schema that was built, by table name. *)
Lemma buildSchema_lookup reg schema n :
  indexes_agree reg -> buildSchema localeCompare reg = Return schema ->
  Map_get schema n =
  match getEntityMetaByTable n reg with
  | Some m =>
      if String.eqb n "__proto__" then None
      else match buildTableSchema m reg with
           | Return s => Some s
           | Throw _ => None
           end
  | None => None
  end.
Proof.
  intros Hagree Hbuild.
  set (cmp := fun a b : EntityMeta => localeCompare (tableName a) (tableName b)).
  assert (Hperm : js_sort cmp (getAllEntities reg) ≡ₚ getAllEntities reg)
    by apply js_sort_Permutation.
  assert (Hnd' : NoDup (map tableName (js_sort cmp (getAllEntities reg)))).
  { rewrite Hperm, (getAllEntities_names reg).
    - by destruct Hagree as (Hnd & _).
    - intros n' i Hin. by apply Hagree. }
  unfold buildSchema in Hbuild. fold cmp in Hbuild.
  rewrite (buildSchema_fold_lookup reg _ [] schema Hnd' Hbuild n).
  assert (Hfind : forall m,
    List.find (fun m => String.eqb (tableName m) n) (js_sort cmp (getAllEntities reg)) = Some m
    <-> getEntityMetaByTable n reg = Some m).
  { intros m. rewrite (find_name_In _ _ _ Hnd'), (agree_by_table reg n m Hagree).
    rewrite <- (getAllEntities_agree reg m Hagree).
    split; intros [Hin Hn]; (split; [|done]); apply list_elem_of_In;
      apply list_elem_of_In in Hin; by rewrite ?Hperm in *. }
  destruct (List.find _ (js_sort cmp (getAllEntities reg))) as [m|] eqn:Ef.
  - by rewrite (proj1 (Hfind m) eq_refl).
  - destruct (getEntityMetaByTable n reg) as [m|] eqn:Em; [|done].
    pose proof (proj2 (Hfind m) eq_refl) as Hm. discriminate Hm.
Qed.

(** X10: the schema that [buildSchema] returns has one entry for each
    registered table, under the name of the table and holding its
    definition string, and no other entry; a table named [__proto__] has
    none, the assignment to that key of an object literal creating no
    property. *)
Theorem buildSchema_lists_registered_tables (reg : Registry)
    (schema : list (string * string)) :
  reachable reg -> buildSchema localeCompare reg = Return schema ->
  forall n s,
    Map_get schema n = Some s <->
    n <> "__proto__" /\
    exists meta, getEntityMetaByTable n reg = Some meta /\
                 buildTableSchema meta reg = Return s.
Proof.
  intros Hreach Hbuild n s.
  rewrite (buildSchema_lookup reg schema n (reachable_agree reg Hreach) Hbuild).
  destruct (getEntityMetaByTable n reg) as [m|].
  - destruct (String.eqb_spec n "__proto__") as [Hp|Hp].
    + split; [done|]. by intros [H _].
    + split.
      * destruct (buildTableSchema m reg) as [s'|] eqn:Es; [|done].
        intros [= <-]. split; [done|]. by exists m.
      * intros [_ (meta & [= <-] & Hs)]. by rewrite Hs.
  - split; [done|]. by intros [_ (meta & Hmeta & _)].
Qed.

(** X11: [buildSchema] throws exactly when a registered entity does not
    resolve, and then with the error of such an entity. *)
Theorem buildSchema_throws_iff_an_entity_fails (reg : Registry) :
  (forall e, buildSchema localeCompare reg = Throw e ->
     exists meta, In meta (getAllEntities reg) /\ resolveEntity meta reg = Throw e) /\
  (forall meta e, In meta (getAllEntities reg) -> resolveEntity meta reg = Throw e ->
     exists e', buildSchema localeCompare reg = Throw e').
Proof.
  unfold buildSchema.
  set (cmp := fun a b : EntityMeta => localeCompare (tableName a) (tableName b)).
  destruct (buildSchema_fold_throws reg (js_sort cmp (getAllEntities reg)) []) as [H1 H2].
  split.
  - intros e He. destruct (H1 e He) as (meta & Hin & Hm). exists meta. split.
    + apply list_elem_of_In. rewrite <- (js_sort_Permutation cmp). by apply list_elem_of_In.
    + by apply buildTableSchema_Throw.
  - intros meta e Hin Hm. apply (H2 meta e).
    + apply list_elem_of_In. rewrite (js_sort_Permutation cmp). by apply list_elem_of_In.
    + by apply buildTableSchema_Throw.
Qed.

End SchemaEntries.

Lemma buildSchema_lists_registered_tables_witness :
  exists schema,
    buildSchema codeunit_collation registry_with_admin = Return schema /\
    Map_get schema "Admin" = Some "++id, name" /\
    Map_get schema "User" = Some "id".
Proof.
  eexists. split; [reflexivity|].
  assert (Hreach : reachable registry_with_admin).
  { apply run_ops_reachable, reachable_init. }
  pose proof (buildSchema_lists_registered_tables codeunit_collation registry_with_admin _
                Hreach eq_refl) as Hentry.
  split.
  - apply Hentry. split; [discriminate|]. eexists. split; reflexivity.
  - apply Hentry. split; [discriminate|]. eexists. split; reflexivity.
Defined.

(** ** The signature: order of keys, injectivity *)

Lemma Object_entries_of_Permutation obj : Object_entries_of obj ≡ₚ obj.
Proof.
  unfold Object_entries_of. rewrite js_sort_Permutation.
  induction obj as [|e obj IH]; [done|]. cbn [List.filter].
  destruct (array_index (fst e)); cbn.
  - by rewrite IH.
  - rewrite <- Permutation_middle. by rewrite IH.
Qed.

Section SignatureOrder.

Variable localeCompare : string -> string -> Z.

Hypothesis localeCompare_total :
  forall a b, localeCompare a b <= 0 \/ localeCompare b a <= 0.
Hypothesis localeCompare_trans :
  forall a b c, localeCompare a b <= 0 -> localeCompare b c <= 0 -> localeCompare a c <= 0.
Hypothesis localeCompare_antisym :
  forall a b, localeCompare a b <= 0 -> localeCompare b a <= 0 -> a = b.

(** X12: the signature does not depend on the order in which the keys of
    the schema object were created: two schemas with the same entries have
    the same signature, the collation of [localeCompare] being a total
    order in which no two different names compare equal. *)
Theorem computeSignature_ignores_key_order (s1 s2 : list (string * string)) :
  s1 ≡ₚ s2 -> NoDup (map fst s1) ->
  computeSignature localeCompare s1 = computeSignature localeCompare s2.
Proof.
  intros Hperm Hnd. unfold computeSignature. f_equal.
  apply js_sort_unique.
  - intros a b. apply localeCompare_total.
  - intros a b c. apply localeCompare_trans.
  - by rewrite !Object_entries_of_Permutation.
  - intros x y Hx Hy Hxy Hyx.
    assert (Hfst : fst x = fst y) by by apply localeCompare_antisym.
    apply list_elem_of_In in Hx, Hy. rewrite Object_entries_of_Permutation in Hx, Hy.
    apply list_elem_of_In in Hx, Hy.
    destruct x as [kx vx], y as [ky vy]. cbn in Hfst. subst ky.
    apply (Map_get_In s1 kx vx Hnd) in Hx. apply (Map_get_In s1 kx vy Hnd) in Hy.
    congruence.
Qed.

End SignatureOrder.

Lemma computeSignature_ignores_key_order_witness :
  computeSignature codeunit_collation [("users", "++id"); ("notes", "id, text")]
  = computeSignature codeunit_collation [("notes", "id, text"); ("users", "++id")].
Proof.
  apply (computeSignature_ignores_key_order codeunit_collation default_compare_total
           default_compare_trans default_compare_antisym).
  - apply perm_swap.
  - apply NoDup_cons. split; [|apply NoDup_singleton].
    intros H. apply list_elem_of_singleton in H. discriminate H.
Defined.

Lemma string_app_assoc (a b c : string) : (a +:+ b) +:+ c = a +:+ (b +:+ c).
Proof.
  induction a as [|x a IH]; [done|].
  change (String x ((a +:+ b) +:+ c) = String x (a +:+ (b +:+ c))). by rewrite IH.
Qed.

(** The escape of a character is read back as the character. *)
Lemma read_string_body_char (c : ascii) (tail body after : string) :
  read_string_body tail = Some (body, after) ->
  read_string_body (json_escape_char c +:+ tail) = Some (String c body, after).
Proof.
  intros H.
  transitivity
    (match read_string_body tail with
     | Some (b, a) => Some (String c b, a)
     | None => None
     end); [|by rewrite H].
  destruct c as [[] [] [] [] [] [] [] []]; reflexivity.
Qed.

Lemma read_string_body_escape (s rest : string) :
  read_string_body (json_escape s +:+ dquote +:+ rest) = Some (s, rest).
Proof.
  induction s as [|c s IH].
  - reflexivity.
  - change (json_escape (String c s)) with (json_escape_char c +:+ json_escape s).
    rewrite string_app_assoc. by apply read_string_body_char.
Qed.

Lemma json_string_inj (s1 s2 rest1 rest2 : string) :
  json_string s1 +:+ rest1 = json_string s2 +:+ rest2 -> s1 = s2 /\ rest1 = rest2.
Proof.
  unfold json_string. rewrite !string_app_assoc.
  intros H. apply (inj (String.append dquote)) in H.
  pose proof (read_string_body_escape s1 rest1) as H1.
  pose proof (read_string_body_escape s2 rest2) as H2.
  rewrite H in H1. rewrite H1 in H2. by injection H2.
Qed.

Lemma json_pair_inj (e1 e2 : string * string) (rest1 rest2 : string) :
  ("[" +:+ json_string (fst e1) +:+ "," +:+ json_string (snd e1) +:+ "]") +:+ rest1
  = ("[" +:+ json_string (fst e2) +:+ "," +:+ json_string (snd e2) +:+ "]") +:+ rest2 ->
  e1 = e2 /\ rest1 = rest2.
Proof.
  rewrite !string_app_assoc. intros H.
  apply (inj (String.append "[")) in H.
  apply json_string_inj in H as [Hk H].
  apply (inj (String.append ",")) in H.
  apply json_string_inj in H as [Hv H].
  apply (inj (String.append "]")) in H.
  destruct e1, e2. cbn in *. by subst.
Qed.

Lemma join_cons_app (sep p : string) (rest : list string) (tail : string) :
  join sep (p :: rest) +:+ tail =
  p +:+ match rest with
        | [] => tail
        | _ :: _ => sep +:+ join sep rest +:+ tail
        end.
Proof.
  destruct rest as [|q rest]; [done|].
  change (join sep (p :: q :: rest)) with (p +:+ sep +:+ join sep (q :: rest)).
  by rewrite !string_app_assoc.
Qed.

Lemma json_pairs_inj (l1 l2 : list (string * string)) (rest1 rest2 : string) :
  join ","
    (map (fun e => "[" +:+ json_string (fst e) +:+ "," +:+ json_string (snd e) +:+ "]") l1)
  +:+ "]" +:+ rest1
  = join ","
      (map (fun e => "[" +:+ json_string (fst e) +:+ "," +:+ json_string (snd e) +:+ "]") l2)
    +:+ "]" +:+ rest2 ->
  l1 = l2.
Proof.
  revert l2. induction l1 as [|e1 l1 IH]; intros [|e2 l2]; cbn [map].
  - done.
  - rewrite join_cons_app, !string_app_assoc. intros H. discriminate H.
  - rewrite join_cons_app, !string_app_assoc. intros H. discriminate H.
  - rewrite !join_cons_app. intros H. apply json_pair_inj in H as [-> H]. f_equal.
    destruct l1 as [|e1' l1], l2 as [|e2' l2]; cbn [map] in H.
    + done.
    + rewrite join_cons_app, !string_app_assoc in H. discriminate H.
    + rewrite join_cons_app, !string_app_assoc in H. discriminate H.
    + apply (inj (String.append ",")) in H. by apply IH.
Qed.

Lemma JSON_stringify_entries_inj (l1 l2 : list (string * string)) :
  JSON_stringify_entries l1 = JSON_stringify_entries l2 -> l1 = l2.
Proof.
  unfold JSON_stringify_entries. intros H.
  apply (inj (String.append "[")) in H.
  apply (json_pairs_inj l1 l2 EmptyString EmptyString).
  assert (Hnil : forall s, s +:+ "]" +:+ EmptyString = s +:+ "]").
  { intros s. induction s as [|c s IHs]; [done|].
    change (String c (s +:+ "]" +:+ EmptyString) = String c (s +:+ "]")). by rewrite IHs. }
  by rewrite !Hnil.
Qed.

Lemma versionKey_inj a b : versionKey a = versionKey b -> a = b.
Proof. unfold versionKey. intros H. by apply (inj (String.append _)) in H. Qed.

Section SignatureAndVersion.

Variable localeCompare : string -> string -> Z.
Variable JSON_parse : string -> option jsvalue.
Variable ToPrimitive : jsvalue -> outcome jsvalue.

(** Equal signatures come from equal sorted entries. *)
Lemma computeSignature_entries (s1 s2 : list (string * string)) :
  computeSignature localeCompare s1 = computeSignature localeCompare s2 ->
  js_sort (fun a b => localeCompare (fst a) (fst b)) (Object_entries_of s1)
  = js_sort (fun a b => localeCompare (fst a) (fst b)) (Object_entries_of s2).
Proof. unfold computeSignature. apply JSON_stringify_entries_inj. Qed.

(** X13: the signature tells schemas apart: two schemas with the same
    signature have the same entries, up to the order of their keys. *)
Theorem computeSignature_injective (s1 s2 : list (string * string)) :
  computeSignature localeCompare s1 = computeSignature localeCompare s2 ->
  s1 ≡ₚ s2.
Proof.
  intros H. apply computeSignature_entries in H.
  rewrite <- (Object_entries_of_Permutation s1), <- (Object_entries_of_Permutation s2).
  rewrite <- (js_sort_Permutation (fun a b => localeCompare (fst a) (fst b))
                (Object_entries_of s1)).
  rewrite H. apply js_sort_Permutation.
Qed.

(** X14: [getVersion] reads and writes one key of [localStorage], the key
    of its database: every other key, and so the version record of every
    other database, is as before. *)
Theorem getVersion_touches_one_key (host : Host) (dbName : string)
    (schema : list (string * string)) :
  let host' := fst (getVersion localeCompare JSON_parse ToPrimitive host dbName schema) in
  window_defined host' = window_defined host /\
  (forall k, k <> versionKey dbName -> localStorage host' !! k = localStorage host !! k) /\
  (forall other, other <> dbName ->
     loadStoredVersion JSON_parse host' other = loadStoredVersion JSON_parse host other).
Proof.
  intros host'.
  assert (Hstore : forall sum sig,
            let h := fst (storeVersion host dbName sum sig) in
            window_defined h = window_defined host /\
            forall k, k <> versionKey dbName -> localStorage h !! k = localStorage host !! k).
  { intros sum sig. unfold storeVersion.
    destruct (window_defined host) eqn:Hw; cbn [negb fst]; [|done].
    split; [done|]. intros k Hk. cbn [localStorage]. rewrite lookup_insert.
    destruct (decide (versionKey dbName = k)); [congruence|done]. }
  assert (H : window_defined host' = window_defined host /\
              forall k, k <> versionKey dbName ->
                        localStorage host' !! k = localStorage host !! k).
  { unfold host', getVersion.
    destruct (loadStoredVersion JSON_parse host dbName) as [| | | | | | |r props];
      try done;
      (destruct (strict_eq _ _); [done|]);
      (destruct (plus_one ToPrimitive _) as [sum|e]; [|done]);
      specialize (Hstore sum (computeSignature localeCompare schema));
      by destruct (storeVersion host dbName sum _). }
  destruct H as [Hwin Hkeys]. split; [done|]. split; [done|].
  intros other Hother. unfold loadStoredVersion. rewrite Hwin, Hkeys; [done|].
  intros Hk. by apply versionKey_inj in Hk.
Qed.

(** X15: a change of the schema advances the version: when two calls of
    [getVersion] in a row are given schemas that differ in an entry, the
    second returns the version of the first plus one; [window] is
    available, the stored value is an object whose [version] is an integer
    from -2^53 up to 2^53 - 2, and the host reads back the record that the
    first call writes. *)
Theorem getVersion_advances_on_change (host : Host) (dbName : string)
    (schema1 schema2 : list (string * string)) (r r' : nat)
    (props : list (string * jsvalue)) (v : Z) :
  window_defined host = true ->
  loadStoredVersion JSON_parse host dbName = VObj r props ->
  lookup_prop "version" props = VNum (Fin v) ->
  - 2 ^ 53 <= v < 2 ^ 53 - 1 ->
  JSON_parse
    (JSON_stringify_record (PlusNumber (Fin (v + 1))) (computeSignature localeCompare schema1))
  = Some (version_record r' (v + 1) (computeSignature localeCompare schema1)) ->
  ~ schema1 ≡ₚ schema2 ->
  let host1 := fst (getVersion localeCompare JSON_parse ToPrimitive host dbName schema1) in
  exists v1,
    snd (getVersion localeCompare JSON_parse ToPrimitive host dbName schema1)
    = Return (VNum (Fin v1)) /\
    snd (getVersion localeCompare JSON_parse ToPrimitive host1 dbName schema2)
    = Return (VNum (Fin (v1 + 1))).
Proof.
  intros Hwin Hstored Hversion Hv Hparse Hchange host1.
  set (sig1 := computeSignature localeCompare schema1) in *.
  set (sig2 := computeSignature localeCompare schema2).
  assert (Hsig : sig2 <> sig1).
  { intros H. apply Hchange. apply computeSignature_entries in H.
    rewrite <- (Object_entries_of_Permutation schema1),
      <- (Object_entries_of_Permutation schema2).
    rewrite <- (js_sort_Permutation (fun a b => localeCompare (fst a) (fst b))
                  (Object_entries_of schema2)).
    rewrite H. symmetry. apply js_sort_Permutation. }
  assert (Hbump : forall h r0 props0 v0,
            loadStoredVersion JSON_parse h dbName = VObj r0 props0 ->
            lookup_prop "version" props0 = VNum (Fin v0) ->
            lookup_prop "signature" props0 = VStr sig1 ->
            - 2 ^ 53 <= v0 < 2 ^ 53 ->
            snd (getVersion localeCompare JSON_parse ToPrimitive h dbName schema2)
            = Return (VNum (Fin (v0 + 1)))).
  { intros h r0 props0 v0 Hload Hver Hsigp Hv0.
    rewrite (getVersion_stored_object localeCompare JSON_parse ToPrimitive h dbName schema2
               r0 props0 Hload).
    rewrite Hver, Hsigp. fold sig2. cbn [strict_eq].
    apply String.eqb_neq in Hsig. rewrite Hsig.
    unfold plus_one. rewrite round_to_double_safe by lia.
    unfold storeVersion. by destruct (window_defined h). }
  unfold host1.
  rewrite (getVersion_stored_object localeCompare JSON_parse ToPrimitive host dbName schema1
             r props Hstored).
  fold sig1. rewrite Hversion.
  destruct (strict_eq (VStr sig1) (lookup_prop "signature" props)) eqn:Esig.
  - apply strict_eq_VStr in Esig. exists v. cbn [fst snd]. split; [done|].
    apply (Hbump host r props v); [done|done|done|lia].
  - unfold plus_one. rewrite round_to_double_safe by lia.
    unfold storeVersion. rewrite Hwin. cbn [negb fst snd plus_to_value].
    exists (v + 1). split; [done|].
    apply (Hbump _ r' [("version", VNum (Fin (v + 1))); ("signature", VStr sig1)] (v + 1));
      [|done|done|lia].
    unfold loadStoredVersion. cbn [window_defined localStorage negb].
    rewrite lookup_insert_eq.
    change (String.eqb (JSON_stringify_record _ _) EmptyString) with false.
    cbv iota. by rewrite Hparse.
Qed.

End SignatureAndVersion.

Lemma computeSignature_injective_witness :
  [("b", "x"); ("a", "++id")] ≡ₚ [("a", "++id"); ("b", "x")].
Proof.
  apply (computeSignature_injective codeunit_collation). reflexivity.
Defined.

Lemma getVersion_advances_on_change_witness :
  let schema1 := [("users", "++id, name")] in
  let schema2 := [("users", "++id, age, name")] in
  let host1 :=
    fst (getVersion codeunit_collation JSON_parse_record ToPrimitive_plain browser "app"
           schema1) in
  exists v1,
    snd (getVersion codeunit_collation JSON_parse_record ToPrimitive_plain browser "app"
           schema1) = Return (VNum (Fin v1)) /\
    snd (getVersion codeunit_collation JSON_parse_record ToPrimitive_plain host1 "app"
           schema2) = Return (VNum (Fin (v1 + 1))).
Proof.
  intros schema1 schema2 host1.
  apply (getVersion_advances_on_change codeunit_collation JSON_parse_record
           ToPrimitive_plain browser "app" schema1 schema2 0 1
           [("version", VNum (Fin 1)); ("signature", VStr EmptyString)] 1
           eq_refl eq_refl eq_refl).
  - lia.
  - vm_compute. reflexivity.
  - intros H. apply Permutation_singleton_l in H. discriminate H.
Defined.

(** ** The comparator: reversal and antisymmetry *)

Section OrderingMore.

Variable IsLessThan : jsvalue -> jsvalue -> option bool.

Lemma compareUnknown_opposite a b dir :
  compareUnknown IsLessThan a b (opposite dir) = - compareUnknown IsLessThan a b dir.
Proof.
  unfold compareUnknown.
  destruct dir; cbn [opposite];
    repeat (match goal with |- context [if ?c then _ else _] => destruct c end); lia.
Qed.

Lemma compareParts_opposite parts a b :
  compareParts IsLessThan (map (fun p => (fst p, opposite (snd p))) parts) a b
  = - compareParts IsLessThan parts a b.
Proof.
  induction parts as [|[k dir] parts IH]; [done|]. cbn [map compareParts fst snd].
  rewrite compareUnknown_opposite, IH.
  destruct (Z.eqb_spec (compareUnknown IsLessThan (get_prop a k) (get_prop b k) dir) 0) as [E|E].
  - rewrite E. done.
  - destruct (Z.eqb_spec (- compareUnknown IsLessThan (get_prop a k) (get_prop b k) dir) 0);
      [lia|done].
Qed.

Lemma normalize_reversed_one (ob : OrderBy) :
  flat_map (fun e => match snd e with Some dir => [(fst e, dir)] | None => [] end) (reversed ob)
  = map (fun p => (fst p, opposite (snd p)))
      (flat_map (fun e => match snd e with Some dir => [(fst e, dir)] | None => [] end) ob).
Proof.
  induction ob as [|[k [dir|]] ob IH]; cbn; [done| |done].
  by rewrite <- IH.
Qed.

Lemma normalizeOrderBy_reversed orderBy :
  normalizeOrderBy (reversed_arg orderBy)
  = map (fun p => (fst p, opposite (snd p))) (normalizeOrderBy orderBy).
Proof.
  destruct orderBy as [|ob|obs]; cbn [normalizeOrderBy reversed_arg].
  - done.
  - apply normalize_reversed_one.
  - induction obs as [|ob obs IH]; [done|]. cbn [map flat_map].
    rewrite map_app, IH. f_equal. apply normalize_reversed_one.
Qed.

(** X16: turning every direction of an ordering turns the order: the
    comparator compiled from the reversed ordering is the negation of the
    comparator compiled from the ordering, and one is compiled exactly
    when the other is. *)
Theorem reversed_ordering_negates_comparator (orderBy : OrderByArg) :
  match toComparator IsLessThan orderBy, toComparator IsLessThan (reversed_arg orderBy) with
  | Some cmp, Some cmp' => forall a b, cmp' a b = - cmp a b
  | None, None => True
  | _, _ => False
  end.
Proof.
  unfold toComparator. rewrite normalizeOrderBy_reversed.
  destruct (normalizeOrderBy orderBy) as [|p parts] eqn:E; [done|].
  cbn [map]. intros a b.
  apply (compareParts_opposite (p :: parts)).
Qed.

Lemma strict_eq_sym a b : strict_eq a b = strict_eq b a.
Proof.
  destruct a, b; cbn; try done.
  - by destruct b, b0.
  - destruct n, n0; cbn; try done. apply Z.eqb_sym.
  - apply String.eqb_sym.
  - apply Nat.eqb_sym.
  - apply Nat.eqb_sym.
  - apply Nat.eqb_sym.
Qed.

Hypothesis IsLessThan_asym :
  forall x y, IsLessThan x y = Some true -> IsLessThan y x <> Some true.

Lemma compareUnknown_swap a b dir :
  compareUnknown IsLessThan b a dir = - compareUnknown IsLessThan a b dir.
Proof.
  unfold compareUnknown. rewrite (strict_eq_sym b a).
  destruct (strict_eq a b) eqn:Eab; [done|].
  destruct (strict_eq a VUndefined) eqn:Ea.
  { apply strict_eq_undefined in Ea. subst a.
    destruct b; cbn in *; try done; destruct dir; lia. }
  destruct (strict_eq b VUndefined) eqn:Eb; [destruct dir; lia|].
  destruct (strict_eq a VNull) eqn:Ean.
  { apply strict_eq_null in Ean. subst a.
    destruct b; cbn in *; try done; destruct dir; lia. }
  destruct (strict_eq b VNull) eqn:Ebn; [destruct dir; lia|].
  unfold js_gt, js_lt.
  pose proof (IsLessThan_asym (valueForComparison a) (valueForComparison b)) as H1.
  destruct (IsLessThan (valueForComparison a) (valueForComparison b)) as [[]|] eqn:E1;
    destruct (IsLessThan (valueForComparison b) (valueForComparison a)) as [[]|] eqn:E2;
    try (destruct dir; lia).
  by destruct H1.
Qed.

(** X17: the compiled comparator is antisymmetric: swapping the two
    records negates the result, the relational comparison of the values
    never holding in both directions. *)
Theorem comparator_antisymmetric (orderBy : OrderByArg) (cmp : jsvalue -> jsvalue -> Z)
    (a b : jsvalue) :
  toComparator IsLessThan orderBy = Some cmp ->
  cmp b a = - cmp a b.
Proof.
  unfold toComparator. destruct (normalizeOrderBy orderBy) as [|p parts]; [done|].
  intros [= <-]. change (compareParts IsLessThan (p :: parts) b a
                         = - compareParts IsLessThan (p :: parts) a b).
  generalize (p :: parts). clear p parts.
  intros parts. induction parts as [|[k dir] parts IH]; [done|]. cbn [compareParts].
  rewrite (compareUnknown_swap (get_prop a k) (get_prop b k)), IH.
  destruct (Z.eqb_spec (compareUnknown IsLessThan (get_prop a k) (get_prop b k) dir) 0) as [E|E].
  - rewrite E. done.
  - destruct (Z.eqb_spec (- compareUnknown IsLessThan (get_prop a k) (get_prop b k) dir) 0);
      [lia|done].
Qed.

End OrderingMore.

Lemma IsLessThan_same_type_asym x y :
  IsLessThan_same_type x y = Some true -> IsLessThan_same_type y x <> Some true.
Proof.
  destruct x as [| |bx|[|zx]|sx| | |], y as [| |by_|[|zy]|sy| | |]; cbn; try done.
  - intros [= H1] [= H2]. by destruct bx, by_.
  - intros [= H1] [= H2]. lia.
  - intros [= H1] [= H2]. unfold String.ltb in *.
    rewrite (String.compare_antisym sy sx) in H2.
    destruct (sx ?= sy)%string; done.
Qed.

Lemma comparator_antisymmetric_witness :
  exists cmp, toComparator IsLessThan_same_type by_age_then_name = Some cmp /\
              cmp bob ann = - cmp ann bob /\ cmp ann bob = -1.
Proof.
  eexists. split; [reflexivity|]. split; [|reflexivity].
  apply (comparator_antisymmetric IsLessThan_same_type IsLessThan_same_type_asym
           by_age_then_name _ ann bob eq_refl).
Defined.

(** ** Field filters: negation, conjunction, dates *)

Section FilterMore.

Variable IsLessThan : jsvalue -> jsvalue -> option bool.

Lemma evalFieldFilter_VObj value r props :
  evalFieldFilter IsLessThan value (VObj r props)
  = forallb
      (fun e => evalOperator IsLessThan (evalFieldFilter IsLessThan value) value (fst e) (snd e))
      props.
Proof.
  cbn [evalFieldFilter].
  induction props as [|[opKey opVal] props IH]; [done|].
  cbn [forallb fst snd]. rewrite <- IH.
  by destruct (evalOperator _ _ _ _ _).
Qed.

Lemma evalFieldFilter_not value c r :
  evalFieldFilter IsLessThan value (VObj r [("not", c)])
  = negb (evalFieldFilter IsLessThan value c).
Proof.
  rewrite evalFieldFilter_VObj. cbn [forallb fst snd]. rewrite andb_true_r.
  unfold evalOperator. cbn [String.eqb Ascii.eqb Bool.eqb andb].
  destruct c; done.
Qed.

(** X18: [{ not: c }] accepts a value exactly when the condition [c]
    rejects it, whether [c] is a nested filter or a literal; so a double
    [not] accepts what the condition accepts. *)
Theorem not_negates_condition (value c : jsvalue) (r r' : nat) :
  evalFieldFilter IsLessThan value (VObj r [("not", c)])
  = negb (evalFieldFilter IsLessThan value c) /\
  evalFieldFilter IsLessThan value (VObj r [("not", VObj r' [("not", c)])])
  = evalFieldFilter IsLessThan value c.
Proof.
  split; [apply evalFieldFilter_not|].
  rewrite (evalFieldFilter_not value (VObj r' [("not", c)])), evalFieldFilter_not.
  apply negb_involutive.
Qed.

(** X19: a filter accepts a value exactly when each of its operators,
    taken alone, accepts it. *)
Theorem filter_is_conjunction_of_operators (value : jsvalue) (r r' : nat)
    (ops : list (string * jsvalue)) :
  evalFieldFilter IsLessThan value (VObj r ops)
  = forallb (fun op => evalFieldFilter IsLessThan value (VObj r' [op])) ops.
Proof.
  rewrite evalFieldFilter_VObj. apply forallb_ext_in. intros op _.
  rewrite evalFieldFilter_VObj. cbn [forallb]. by rewrite andb_true_r.
Qed.

(** X20: a [Date] given as the condition of a field is read as a filter
    without operators and not compared: the where-condition accepts every
    record, whatever the record holds at the field. *)
Theorem date_condition_accepts_every_record (k : string) (r rd : nat) (t : number)
    (item : jsvalue) :
  ~ In k logical ->
  buildPredicate IsLessThan (VObj r [(k, VDate rd t)]) item = true.
Proof.
  intros Hk. rewrite buildPredicate_unfold. unfold buildPredicate_body.
  assert (Hlog : forall l, In l logical ->
            get_prop (VObj r [(k, VDate rd t)]) l = VUndefined).
  { intros l Hl. cbn. destruct (String.eqb_spec k l) as [->|]; [done|done]. }
  rewrite !Hlog by (cbn; tauto).
  cbn [truthy negb Object_keys map fst List.filter].
  apply str_in_not_In in Hk. rewrite Hk. cbn [negb forallb get_prop lookup_prop].
  rewrite String.eqb_refl. done.
Qed.

End FilterMore.

Lemma date_condition_accepts_every_record_witness :
  ~ In "createdAt" logical /\
  buildPredicate IsLessThan_same_type (VObj 1 [("createdAt", VDate 2 (Fin 0))])
    (VObj 3 [("createdAt", VDate 4 (Fin 1000))]) = true.
Proof.
  assert (H : ~ In "createdAt" logical).
  { cbn. intros [H|[H|[H|[]]]]; discriminate H. }
  split; [exact H|].
  apply (date_condition_accepts_every_record IsLessThan_same_type "createdAt" 1 2 (Fin 0) _ H).
Defined.

(** ** The reading methods of the service *)

Lemma slice_window {A : Type} (arr : list A) (s n : nat) :
  slice arr (Fin (Z.of_nat s)) (Some (num_add (Fin (Z.of_nat s)) (Fin (Z.of_nat n))))
  = take n (drop s arr).
Proof.
  unfold slice, num_add, ToIntegerOrInfinity, relative_index.
  destruct (Z.ltb_spec (Z.of_nat s) 0); [lia|].
  destruct (Z.ltb_spec (Z.of_nat s + Z.of_nat n) 0); [lia|].
  replace (Z.to_nat (Z.of_nat s `min` Z.of_nat (length arr)))
    with (s `min` length arr)%nat by lia.
  replace (Z.to_nat ((Z.of_nat s + Z.of_nat n) `min` Z.of_nat (length arr)))
    with ((s + n) `min` length arr)%nat by lia.
  destruct (Nat.le_gt_cases (length arr) s) as [Hle|Hlt].
  - rewrite (Nat.min_r s) by lia. rewrite !drop_ge by lia. by rewrite !take_nil.
  - rewrite (Nat.min_l s) by lia.
    destruct (Nat.le_gt_cases (s + n) (length arr)).
    + rewrite Nat.min_l by lia. f_equal. lia.
    + rewrite Nat.min_r by lia.
      rewrite !take_ge; [done| |]; rewrite length_drop; lia.
Qed.

Lemma slice_from {A : Type} (arr : list A) (s : nat) :
  slice arr (Fin (Z.of_nat s)) None = drop s arr.
Proof.
  unfold slice, ToIntegerOrInfinity, relative_index.
  destruct (Z.ltb_spec (Z.of_nat s) 0); [lia|].
  replace (Z.to_nat (Z.of_nat s `min` Z.of_nat (length arr)))
    with (s `min` length arr)%nat by lia.
  destruct (Nat.le_gt_cases (length arr) s) as [Hle|Hlt].
  - rewrite (Nat.min_r s) by lia. rewrite !drop_ge by lia. by rewrite take_nil.
  - rewrite (Nat.min_l s) by lia. rewrite take_ge; [done|]. rewrite length_drop. lia.
Qed.

Lemma slice_contiguous {A : Type} (arr : list A) (start : number) (end_ : option number) :
  exists before after, arr = before ++ slice arr start end_ ++ after.
Proof.
  unfold slice.
  set (k := relative_index (length arr) (ToIntegerOrInfinity start)).
  set (m := (_ - k)%nat).
  exists (take k arr), (drop m (drop k arr)).
  by rewrite (take_drop m), (take_drop k).
Qed.

Section ReadsMore.

Variable IsLessThan : jsvalue -> jsvalue -> option bool.

Lemma buildPredicate_falsy w item :
  truthy w = false -> buildPredicate IsLessThan w item = true.
Proof.
  intros Hw. rewrite buildPredicate_unfold. unfold buildPredicate_body. by rewrite Hw.
Qed.

Lemma collectionForWhere_filter t w :
  PrismaService.collectionForWhere IsLessThan t w
  = List.filter (buildPredicate IsLessThan w) (toCollection t).
Proof.
  unfold PrismaService.collectionForWhere.
  destruct (truthy w) eqn:Hw; cbn [negb]; [done|].
  induction (toCollection t) as [|x l IH]; [done|]. cbn [List.filter].
  rewrite buildPredicate_falsy by done. by rewrite <- IH.
Qed.

(** X22: without [skip] and [take], [findMany] returns the records of the
    table that the predicate accepts, each as often as the table holds it;
    in the order of the store when no ordering is compiled; and [count]
    is their number. *)
Theorem findMany_returns_the_matches (t : Table) (w : jsvalue) (orderBy : OrderByArg)
    (found : list jsvalue) :
  PrismaService.findMany IsLessThan t w orderBy None None = Return found ->
  found ≡ₚ List.filter (buildPredicate IsLessThan w) (toCollection t) /\
  (toComparator IsLessThan orderBy = None ->
   found = List.filter (buildPredicate IsLessThan w) (toCollection t)) /\
  PrismaService.count IsLessThan t w = Return (Z.of_nat (length found)).
Proof.
  unfold PrismaService.findMany. cbv zeta. intros [= <-].
  change (Fin 0) with (Fin (Z.of_nat 0)). rewrite slice_from, drop_0.
  unfold toArray. rewrite collectionForWhere_filter.
  set (matches := List.filter _ _).
  assert (Hperm :
    match toComparator IsLessThan orderBy with
    | Some cmp => js_sort cmp matches
    | None => matches
    end ≡ₚ matches).
  { destruct (toComparator _ _); [apply js_sort_Permutation|done]. }
  split; [done|]. split.
  - by intros ->.
  - unfold PrismaService.count. rewrite (Permutation_length Hperm).
    destruct (truthy w) eqn:Hw; cbn [negb].
    + unfold collection_count. by rewrite collectionForWhere_filter.
    + unfold table_count, matches, toCollection. do 2 f_equal.
      induction (rows t) as [|row l IH]; [done|]. cbn [map List.filter].
      rewrite buildPredicate_falsy by done. cbn [length]. by rewrite IH.
Qed.

(** X23: with [skip] and [take] that are not negative, [findMany] returns the
    window of [take] records after the first [skip] of the full result;
    and whatever [skip] and [take] are, what it returns is a contiguous
    part of the full result. *)
Theorem findMany_page_is_window (t : Table) (w : jsvalue) (orderBy : OrderByArg)
    (found : list jsvalue) :
  PrismaService.findMany IsLessThan t w orderBy None None = Return found ->
  (forall s n : nat,
     PrismaService.findMany IsLessThan t w orderBy
       (Some (Fin (Z.of_nat s))) (Some (Fin (Z.of_nat n)))
     = Return (take n (drop s found))) /\
  (forall s : nat,
     PrismaService.findMany IsLessThan t w orderBy (Some (Fin (Z.of_nat s))) None
     = Return (drop s found)) /\
  (forall skip take_ page,
     PrismaService.findMany IsLessThan t w orderBy skip take_ = Return page ->
     exists before after, found = before ++ page ++ after).
Proof.
  unfold PrismaService.findMany. cbv zeta. intros [= <-].
  change (Fin 0) with (Fin (Z.of_nat 0)). rewrite slice_from, drop_0.
  split; [|split].
  - intros s n. by rewrite slice_window.
  - intros s. by rewrite slice_from.
  - intros skip take_ page [= <-]. apply slice_contiguous.
Qed.

(** X24: consecutive pages of [findMany] concatenate to the page that spans
    them. *)
Theorem findMany_pages_concatenate (t : Table) (w : jsvalue) (orderBy : OrderByArg)
    (s n m : nat) (page1 page2 : list jsvalue) :
  PrismaService.findMany IsLessThan t w orderBy
    (Some (Fin (Z.of_nat s))) (Some (Fin (Z.of_nat n))) = Return page1 ->
  PrismaService.findMany IsLessThan t w orderBy
    (Some (Fin (Z.of_nat (s + n)))) (Some (Fin (Z.of_nat m))) = Return page2 ->
  PrismaService.findMany IsLessThan t w orderBy
    (Some (Fin (Z.of_nat s))) (Some (Fin (Z.of_nat (n + m)))) = Return (page1 ++ page2).
Proof.
  unfold PrismaService.findMany. cbv zeta. rewrite !slice_window.
  intros [= <-] [= <-]. f_equal.
  rewrite <- drop_drop. by rewrite take_take_drop.
Qed.

Lemma js_sort_head_least {A : Type} (cmp : A -> A -> Z) (l : list A) :
  (forall a b, In a l -> In b l -> cmp a b <= 0 \/ cmp b a <= 0) ->
  (forall a b c, In a l -> In b l -> In c l -> cmp a b <= 0 -> cmp b c <= 0 -> cmp a c <= 0) ->
  match js_sort cmp l with
  | [] => l = []
  | x :: _ => In x l /\ forall y, In y l -> cmp x y <= 0
  end.
Proof.
  induction l as [|a l IH]; intros Htot Htrans; [done|].
  cbn [js_sort].
  assert (IH' := IH (fun x y Hx Hy => Htot x y (or_intror Hx) (or_intror Hy))
                    (fun x y z Hx Hy Hz =>
                       Htrans x y z (or_intror Hx) (or_intror Hy) (or_intror Hz))).
  clear IH. destruct (js_sort cmp l) as [|h rest] eqn:E.
  - subst l. cbn. split; [by left|]. intros y [<-|[]].
    destruct (Htot a a); cbn; auto.
  - destruct IH' as [Hh Hleast]. cbn [sort_insert].
    destruct (Z.leb_spec (cmp a h) 0) as [Hah|Hah].
    + split; [by left|]. intros y [<-|Hy].
      * destruct (Htot a a); cbn; auto.
      * apply (Htrans a h y); cbn; auto.
    + split; [by right|]. intros y [<-|Hy].
      * destruct (Htot a h) as [?|?]; cbn; auto. lia.
      * by apply Hleast.
Qed.

(** X25: [findFirst] returns [null] when no record matches; when an
    ordering is compiled whose comparator is total and transitive on the
    matching records, it returns a matching record that the comparator
    places before or level with every other; without an ordering it
    returns the first match in the order of the store. *)
Theorem findFirst_returns_least (t : Table) (w : jsvalue) (orderBy : OrderByArg) :
  let matches := List.filter (buildPredicate IsLessThan w) (toCollection t) in
  (matches = [] -> PrismaService.findFirst IsLessThan t w orderBy = Return VNull) /\
  (toComparator IsLessThan orderBy = None ->
   forall x rest, matches = x :: rest ->
     PrismaService.findFirst IsLessThan t w orderBy = Return x) /\
  (forall cmp,
     toComparator IsLessThan orderBy = Some cmp ->
     (forall a b, In a matches -> In b matches -> cmp a b <= 0 \/ cmp b a <= 0) ->
     (forall a b c, In a matches -> In b matches -> In c matches ->
        cmp a b <= 0 -> cmp b c <= 0 -> cmp a c <= 0) ->
     matches <> [] ->
     exists x, PrismaService.findFirst IsLessThan t w orderBy = Return x /\
               In x matches /\ forall y, In y matches -> cmp x y <= 0).
Proof.
  intros matches. unfold PrismaService.findFirst, toArray. cbv zeta.
  rewrite collectionForWhere_filter. fold matches.
  split; [|split].
  - intros ->. by destruct (toComparator _ _).
  - by intros -> x rest ->.
  - intros cmp -> Htot Htrans Hne.
    pose proof (js_sort_head_least cmp matches Htot Htrans) as H.
    destruct (js_sort cmp matches) as [|x rest]; [done|].
    exists x. by destruct H.
Qed.

End ReadsMore.

(** ** Reading by key, deleting and inserting many *)

Section ServiceMore.

Variable IsLessThan : jsvalue -> jsvalue -> option bool.

Lemma key_probe_key k lit w :
  k <> EmptyString -> ~ In k logical -> is_scalar_key lit = true -> key_probe k lit w ->
  tryBuildKeyFromWhere (KeyPathSimple k) w = lit.
Proof.
  intros Hk Hlog Hlit Hw. apply str_in_not_In in Hlog.
  apply String.eqb_neq in Hk.
  destruct Hw as [[r ->]|[r [r' ->]]]; unfold tryBuildKeyFromWhere;
    cbn [truthy negb Object_keys map fst List.filter]; rewrite Hlog; cbn [negb map];
    rewrite Hk; unfold hasOnlyKeys, Object_fromEntries;
    cbn [fold_left Map_set fst snd Object_keys map length Nat.eqb negb forallb str_in existsb];
    rewrite String.eqb_refl; cbn [orb andb negb get_prop lookup_prop];
    rewrite String.eqb_refl.
  - by destruct lit as [| | |[]| | | |].
  - cbn. by destruct lit as [| | |[]| | | |].
Qed.

Lemma key_probe_predicate k lit w item :
  ~ In k logical -> is_scalar_key lit = true -> key_probe k lit w ->
  buildPredicate IsLessThan w item = strict_eq (get_prop item k) lit.
Proof.
  intros Hlog Hlit Hw.
  assert (Hnode : forall l, In l logical -> get_prop w l = VUndefined).
  { intros l Hl. destruct Hw as [[r ->]|[r [r' ->]]]; cbn;
      (destruct (String.eqb_spec k l) as [->|]; [done|done]). }
  apply str_in_not_In in Hlog.
  rewrite buildPredicate_unfold. unfold buildPredicate_body.
  rewrite !Hnode by (cbn; tauto).
  destruct Hw as [[r ->]|[r [r' ->]]];
    cbn [truthy negb Object_keys map fst List.filter]; rewrite Hlog;
    cbn [negb forallb get_prop lookup_prop]; rewrite String.eqb_refl;
    cbn [andb truthy isObject negb].
  - rewrite andb_true_r.
    destruct lit as [| | |[]| | | |]; try done; cbn [evalFieldFilter];
      by destruct (strict_eq _ _).
  - cbn. by destruct (strict_eq _ _).
Qed.

Lemma key_eqb_scalar key v lit :
  key_eqb key v = true -> is_scalar_key lit = true ->
  key_eqb key lit = strict_eq v lit.
Proof.
  intros Hkv Hlit.
  destruct lit as [| | |[|z]|s| | |]; try done.
  - destruct key as [| | |[|x]|x| | |], v as [| | |[|y]|y| | |]; cbn in *; try done.
    apply Z.eqb_eq in Hkv. by subst.
  - destruct key as [| | |[|x]|x| | |], v as [| | |[|y]|y| | |]; cbn in *; try done.
    apply String.eqb_eq in Hkv. by subst.
Qed.

Lemma find_first_filter {A : Type} (f : A * jsvalue -> bool) (g : jsvalue -> bool)
    (l : list (A * jsvalue)) :
  (forall row, In row l -> f row = g (snd row)) ->
  match List.find f l with
  | Some row => snd row
  | None => VUndefined
  end = first (List.filter g (map snd l)).
Proof.
  induction l as [|row l IH]; intros H; [done|]. cbn [List.find map List.filter].
  rewrite <- (H row) by (by left). destruct (f row); [done|].
  apply IH. intros row' Hrow'. apply H. by right.
Qed.

(** X21: on a table with in-line keys, a condition that names the simple key
    and nothing else, with a number or a string, is answered from the key:
    [findUnique] returns what the scan with the compiled predicate would
    return first. *)
Theorem findUnique_by_key_agrees_with_scan (t : Table) (k : string) (lit w : jsvalue) :
  keyPath t = KeyPathSimple k -> k <> EmptyString -> ~ In k logical ->
  is_scalar_key lit = true -> key_probe k lit w ->
  wf_table t -> holds_keys t ->
  tryBuildKeyFromWhere (keyPath t) w = lit /\
  PrismaService.findUnique IsLessThan t w
  = Return (nullish (first (PrismaService.collectionForWhere IsLessThan t w)) VNull).
Proof.
  intros Hkp Hk Hlog Hlit Hw Hwf Hkeys.
  assert (Hkey : tryBuildKeyFromWhere (keyPath t) w = lit).
  { rewrite Hkp. by apply key_probe_key. }
  split; [done|].
  unfold PrismaService.findUnique. rewrite Hkey.
  assert (Hdef : strict_eq lit VUndefined = false) by (by destruct lit).
  rewrite Hdef. cbn [negb]. unfold table_get.
  assert (Hvalid : valid_key lit = true) by (by destruct lit as [| | |[]| | | |]).
  rewrite Hvalid. rewrite (collectionForWhere_filter IsLessThan). unfold toCollection.
  rewrite <- (find_first_filter (fun row => key_eqb (fst row) lit)
                (buildPredicate IsLessThan w) (rows t)).
  { by destruct (List.find _ _). }
  intros [key rec] Hrow. cbn [fst snd].
  rewrite (key_probe_predicate k lit w rec) by done.
  destruct (Hwf key rec Hrow) as [_ Hstored].
  specialize (Hkeys key rec Hrow).
  destruct (Hstored Hkeys) as [_ Heq].
  rewrite Hkp in Heq. cbn [getKeyFromEntity] in Heq.
  apply String.eqb_neq in Hk. rewrite Hk in Heq.
  by apply key_eqb_scalar.
Qed.

Lemma filter_length_complement {A : Type} (f : A -> bool) (l : list A) :
  (length (List.filter f l) + length (List.filter (fun x => negb (f x)) l) = length l)%nat.
Proof.
  induction l as [|x l IH]; [done|]. cbn [List.filter]. destruct (f x); cbn; lia.
Qed.

Lemma deleteMany_keys t w :
  flat_map
    (fun it =>
       let k := getKeyFromEntity (keyPath t) it in
       if negb (strict_eq k VUndefined) then [k] else [])
    (List.filter (buildPredicate IsLessThan w) (toCollection t))
  = map (getKeyFromEntity (keyPath t)) (List.filter (to_delete IsLessThan t w) (toCollection t)).
Proof.
  unfold to_delete.
  induction (toCollection t) as [|x l IH]; [done|]. cbn [List.filter].
  destruct (buildPredicate IsLessThan w x); cbn [andb flat_map List.filter]; [|done].
  destruct (strict_eq _ _); cbn [negb app map]; by rewrite IH.
Qed.

(** X26: on a table whose rows are stored under the keys of their records,
    one row per key, [deleteMany] removes exactly the records that the
    predicate accepts and that hold a key, keeps every other record, and
    returns how many it removed. *)
Theorem deleteMany_removes_the_matches (t : Table) (w : jsvalue) :
  wf_table t -> unique_keys t ->
  let kept := List.filter (fun row => negb (to_delete IsLessThan t w (snd row))) (rows t) in
  exists t',
    PrismaService.deleteMany IsLessThan t w
    = (t', Return (Z.of_nat (length (rows t)) - Z.of_nat (length kept))) /\
    keyPath t' = keyPath t /\ rows t' = kept.
Proof.
  intros Hwf Huniq kept. unfold PrismaService.deleteMany, toArray.
  rewrite (collectionForWhere_filter IsLessThan).
  assert (Hcount :
    (length (List.filter (to_delete IsLessThan t w) (toCollection t)) + length kept = length (rows t))%nat).
  { unfold kept, toCollection.
    rewrite <- (filter_length_complement (fun row => to_delete IsLessThan t w (snd row)) (rows t)).
    f_equal. induction (rows t) as [|row l IH]; [done|]. cbn [map List.filter].
    destruct (to_delete IsLessThan t w (snd row)); cbn [length]; by rewrite IH. }
  destruct (Nat.eqb_spec
              (length (List.filter (buildPredicate IsLessThan w) (toCollection t))) 0)
    as [Hnone|Hsome].
  - exists t. apply length_zero_iff_nil in Hnone.
    assert (Hkept : kept = rows t).
    { unfold kept. apply forallb_filter_id, forallb_forall.
      intros [key rec] Hrow. cbn [snd]. unfold to_delete.
      destruct (buildPredicate IsLessThan w rec) eqn:Hp; [|done].
      assert (Hin : In rec (List.filter (buildPredicate IsLessThan w) (toCollection t))).
      { apply filter_In. split; [|done]. unfold toCollection.
        apply in_map_iff. by exists (key, rec). }
      rewrite Hnone in Hin. done. }
    rewrite Hkept. split; [|done]. do 2 f_equal. lia.
  - rewrite deleteMany_keys. unfold table_bulkDelete.
    assert (Hvalid :
      forallb valid_key
        (map (getKeyFromEntity (keyPath t))
           (List.filter (to_delete IsLessThan t w) (toCollection t))) = true).
    { apply forallb_forall. intros key Hkey.
      apply in_map_iff in Hkey as [rec [<- Hrec]].
      apply filter_In in Hrec as [Hrec Hdel].
      unfold toCollection in Hrec. apply in_map_iff in Hrec as [[key rec'] [Heq Hrow]].
      cbn [snd] in Heq. subst rec'.
      destruct (Hwf key rec Hrow) as [_ Hstored].
      unfold to_delete in Hdel. apply andb_true_iff in Hdel as [_ Hdef].
      apply negb_true_iff in Hdef.
      destruct Hstored as [Hv _]; [|done].
      intros Hu. by rewrite Hu in Hdef. }
    rewrite Hvalid.
    match goal with |- exists t', (?x, _) = _ /\ _ => exists x end.
    split; [|split; [reflexivity|]].
    + f_equal. f_equal. rewrite length_map. lia.
    + cbn [rows]. unfold kept. apply filter_ext_in_iff.
      intros [key rec] Hrow. cbn [fst snd]. f_equal.
      apply eq_true_iff_eq. rewrite existsb_exists. split.
      * intros [key' [Hkey' Heq]].
        apply in_map_iff in Hkey' as [rec' [<- Hrec']].
        apply filter_In in Hrec' as [Hrec' Hdel].
        unfold toCollection in Hrec'. apply in_map_iff in Hrec' as [[key2 rec2] [E Hrow2]].
        cbn [snd] in E. subst rec2.
        assert (Heq2 : key_eqb key2 (getKeyFromEntity (keyPath t) rec') = true).
        { destruct (Hwf key2 rec' Hrow2) as [_ Hstored].
          unfold to_delete in Hdel. apply andb_true_iff in Hdel as [_ Hdef].
          apply negb_true_iff in Hdef.
          destruct Hstored as [_ Hk]; [|done].
          intros Hu. by rewrite Hu in Hdef. }
        apply list_elem_of_In, list_elem_of_lookup_1 in Hrow as [i Hi].
        apply list_elem_of_In, list_elem_of_lookup_1 in Hrow2 as [j Hj].
        assert (i = j) by (eapply (Huniq i j _ _ _ Hi Hj); done).
        subst j. rewrite Hi in Hj. by injection Hj as -> ->.
      * intros Hdel. exists (getKeyFromEntity (keyPath t) rec). split.
        -- apply in_map_iff. exists rec. split; [done|].
           apply filter_In. split; [|done].
           unfold toCollection. apply in_map_iff. by exists (key, rec).
        -- destruct (Hwf key rec Hrow) as [_ Hstored].
           unfold to_delete in Hdel. apply andb_true_iff in Hdel as [_ Hdef].
           apply negb_true_iff in Hdef.
           destruct Hstored as [_ Hk]; [|done].
           intros Hu. by rewrite Hu in Hdef.
Qed.

End ServiceMore.

Section WritesMore.

Variable table_add : Table -> jsvalue -> Table * outcome jsvalue.
Variable table_bulkAdd : Table -> list jsvalue -> Table * outcome (list jsvalue).

(** The loop counts the insertions that return, and ends with the table
    that the last insertion has left. *)
Lemma createMany_fallback_trace t data n :
  PrismaService.createMany_fallback table_add t data n
  = (table_after t (add_one_by_one table_add t data),
     n + Z.of_nat (length (List.filter (fun result => returned (snd result))
                             (add_one_by_one table_add t data)))).
Proof.
  revert t n. induction data as [|item data IH]; intros t n.
  - cbn. f_equal. lia.
  - cbn [PrismaService.createMany_fallback add_one_by_one List.filter].
    assert (Hafter : forall result rest,
              table_after t (result :: rest) = table_after (fst result) rest).
    { intros result rest. unfold table_after. rewrite last_cons.
      by destruct (last rest). }
    rewrite Hafter.
    destruct (table_add t item) as [t' [key|e]]; cbn [fst snd returned length];
      rewrite IH; f_equal; lia.
Qed.

(** X27: [createMany] never throws, whatever the store does.  For no
    records it leaves the table and resolves to 0; when the bulk insertion
    returns, to the number of its keys; when it throws, the records are
    inserted one by one into the table that it has left, an insertion that
    throws is passed over, and the count is the number of insertions that
    returned, the table the one after the last of them. *)
Theorem createMany_never_throws (t : Table) (data : list jsvalue) :
  exists t' n,
    PrismaService.createMany table_add table_bulkAdd t data = (t', Return n) /\
    (data = [] -> t' = t /\ n = 0) /\
    (forall t1 keys, data <> [] -> table_bulkAdd t data = (t1, Return keys) ->
       t' = t1 /\ n = Z.of_nat (length keys)) /\
    (forall t1 e, data <> [] -> table_bulkAdd t data = (t1, Throw e) ->
       let results := add_one_by_one table_add t1 data in
       t' = table_after t1 results /\
       n = Z.of_nat (length (List.filter (fun result => returned (snd result)) results)) /\
       length results = length data /\
       0 <= n <= Z.of_nat (length data)).
Proof.
  unfold PrismaService.createMany.
  destruct data as [|item data].
  { exists t, 0. cbn. split; [done|]. split; [done|]. by split. }
  cbn [length Nat.eqb].
  destruct (table_bulkAdd t (item :: data)) as [t1 [keys|e]] eqn:Hbulk.
  - exists t1, (Z.of_nat (length keys)).
    split; [done|]. split; [done|]. split.
    + by intros t2 keys2 _ [= -> ->].
    + by intros t2 e _ [=].
  - rewrite createMany_fallback_trace.
    eexists _, _. split; [reflexivity|]. split; [done|]. split.
    + by intros t3 keys _ [=].
    + intros t2 e2 _ [= <- _].
      set (results := add_one_by_one table_add t1 (item :: data)).
      split; [done|]. split; [lia|].
      assert (Hlen : forall l t0, length (add_one_by_one table_add t0 l) = length l).
      { intros l. induction l as [|x l IHl]; intros t0; [done|].
        cbn [add_one_by_one length]. by rewrite IHl. }
      split; [apply Hlen|].
      pose proof (filter_length_le (fun result : Table * outcome jsvalue =>
                                      returned (snd result)) results) as Hle.
      fold results in Hle. pose proof (Hlen (item :: data) t1) as Hl.
      fold results in Hl. cbn [length] in Hl. lia.
Qed.

End WritesMore.

Lemma createMany_never_throws_witness :
  PrismaService.createMany appending_add failing_bulkAdd notes_table
    [VObj 20 [("name", VStr "Bob")]; VObj 21 [("name", VStr "Cy")]]
  = (mkTable KeyPathNone
       [(VNum (Fin 1), VObj 10 [("name", VStr "Ann")]);
        (VNum (Fin 2), VObj 20 [("name", VStr "Bob")]);
        (VNum (Fin 3), VObj 21 [("name", VStr "Cy")])],
     Return 2).
Proof.
  destruct (createMany_never_throws appending_add failing_bulkAdd notes_table
              [VObj 20 [("name", VStr "Bob")]; VObj 21 [("name", VStr "Cy")]])
    as (t' & n & Hcall & _ & _ & Hfallback).
  destruct (Hfallback notes_table "BulkError") as (Ht & Hn & _); [discriminate|reflexivity|].
  rewrite Hcall, Ht, Hn. reflexivity.
Defined.

Lemma holds_keys_users_table : holds_keys users_table.
Proof.
  intros k r [H|[H|[]]]; injection H as <- <-; by cbn.
Qed.

Lemma unique_keys_users_table : unique_keys users_table.
Proof.
  intros [|[|i]] [|[|j]] row1 row2 key; cbn [users_table rows lookup list_lookup];
    intros [= <-] [= <-]; try done;
    cbn [fst]; destruct key as [| | |[|z]| | | |]; cbn [key_eqb number_eqb]; try done;
    intros H1 H2; apply Z.eqb_eq in H1, H2; lia.
Qed.

Lemma id_not_logical : ~ In "id" logical.
Proof. cbn. intros [H|[H|[H|[]]]]; discriminate H. Qed.

Lemma findUnique_by_key_agrees_with_scan_witness :
  PrismaService.findUnique IsLessThan_same_type users_table
    (VObj 1 [("id", VNum (Fin 2))])
  = Return (VObj 11 [("id", VNum (Fin 2)); ("name", VStr "Bob")]).
Proof.
  destruct (findUnique_by_key_agrees_with_scan IsLessThan_same_type users_table "id"
              (VNum (Fin 2)) (VObj 1 [("id", VNum (Fin 2))]) eq_refl) as [_ Hfind].
  - discriminate.
  - exact id_not_logical.
  - reflexivity.
  - left. by exists 1%nat.
  - exact wf_users_table.
  - exact holds_keys_users_table.
  - rewrite Hfind. reflexivity.
Defined.

Lemma findMany_returns_the_matches_witness :
  PrismaService.count IsLessThan_same_type users_table (VObj 1 [("name", VStr "Bob")])
  = Return 1.
Proof.
  destruct (findMany_returns_the_matches IsLessThan_same_type users_table
              (VObj 1 [("name", VStr "Bob")]) OrderByAbsent
              [VObj 11 [("id", VNum (Fin 2)); ("name", VStr "Bob")]] eq_refl)
    as (_ & _ & Hcount).
  exact Hcount.
Defined.

Lemma findMany_page_is_window_witness :
  PrismaService.findMany IsLessThan_same_type users_table VUndefined
    (OrderByOne [("name", Some desc)]) (Some (Fin 1)) (Some (Fin 5))
  = Return [VObj 10 [("id", VNum (Fin 1)); ("name", VStr "Ann")]].
Proof.
  destruct (findMany_page_is_window IsLessThan_same_type users_table VUndefined
              (OrderByOne [("name", Some desc)])
              [VObj 11 [("id", VNum (Fin 2)); ("name", VStr "Bob")];
               VObj 10 [("id", VNum (Fin 1)); ("name", VStr "Ann")]] eq_refl)
    as (Hpage & _ & _).
  exact (Hpage 1%nat 5%nat).
Defined.

Lemma findMany_pages_concatenate_witness :
  PrismaService.findMany IsLessThan_same_type users_table VUndefined OrderByAbsent
    (Some (Fin 0)) (Some (Fin 2))
  = Return [VObj 10 [("id", VNum (Fin 1)); ("name", VStr "Ann")];
            VObj 11 [("id", VNum (Fin 2)); ("name", VStr "Bob")]].
Proof.
  exact (findMany_pages_concatenate IsLessThan_same_type users_table VUndefined OrderByAbsent
           0 1 1 [VObj 10 [("id", VNum (Fin 1)); ("name", VStr "Ann")]]
           [VObj 11 [("id", VNum (Fin 2)); ("name", VStr "Bob")]] eq_refl eq_refl).
Defined.

Lemma deleteMany_removes_the_matches_witness :
  exists t',
    PrismaService.deleteMany IsLessThan_same_type users_table (VObj 1 [("name", VStr "Bob")])
    = (t', Return 1) /\
    rows t' = [(VNum (Fin 1), VObj 10 [("id", VNum (Fin 1)); ("name", VStr "Ann")])].
Proof.
  destruct (deleteMany_removes_the_matches IsLessThan_same_type users_table
              (VObj 1 [("name", VStr "Bob")]) wf_users_table unique_keys_users_table)
    as (t' & Hdel & _ & Hrows).
  exists t'. split; [exact Hdel|exact Hrows].
Defined.

(** ** The decorators and the database class *)

Lemma addColumn_Return_column_of reg reg' c key opts :
  addColumn (Some c) key opts reg = (reg', Return tt) ->
  exists previous,
    column_of key (declared_columns c reg') = Some (mkColumn key (spread previous opts)).
Proof.
  intros Hadd.
  destruct (addColumn_Return_columns reg reg' c key opts Hadd) as [Hafter _].
  cbv zeta in Hafter. rewrite Hafter. eexists.
  pose proof (findIndex_column_of (declared_columns c reg) key) as Hidx.
  destruct (findIndex _ (declared_columns c reg)) as [i|] eqn:Ei.
  - destruct Hidx as (old & Hi & Hk & Hfind).
    rewrite (column_of_insert _ _ _ key key old) by done. by rewrite String.eqb_refl.
  - rewrite (column_of_snoc _ _ key key) by done. by rewrite String.eqb_refl.
Qed.

(** X28: [primaryColumn] never fails for asking [autoIncrement] without
    [primary], and when it returns on a registry that calls can produce,
    the decorated property is the primary column of the class, and the
    only one. *)
Theorem primaryColumn_registers_the_primary (reg reg' : Registry) (c : Ctor)
    (key : string) (opts : ColumnOptions) (r : outcome unit) :
  reachable reg ->
  Decorators.primaryColumn opts (Some c) key reg = (reg', r) ->
  (forall table,
     r <> Throw ("autoIncrement requires primary: true (table: " +:+ table +:+
                 ", column: " +:+ key +:+ ")")) /\
  (r = Return tt ->
   (exists col, column_of key (declared_columns c reg') = Some col /\
                is_primary col = true) /\
   forall col, In col (declared_columns c reg') -> is_primary col = true ->
               propertyKey col = key).
Proof.
  intros Hreach. unfold Decorators.primaryColumn, Decorators.column. intros Hadd.
  set (opts' := spread opts (mkOptions (Some true) None)) in *.
  assert (Hprim : is_true_opt (primary opts') = true) by done.
  split.
  - intros table Hr. subst r. revert Hadd. unfold addColumn.
    destruct (assertNotSealed _ reg) eqn:Hseal.
    2:{ unfold assertNotSealed in Hseal. destruct (sealed reg); [|done].
        injection Hseal as <-. intros [= _ H]; try discriminate H. }
    destruct (ensureEntityMeta c None reg) as [reg1 [meta|e]] eqn:E.
    + rewrite Hprim. cbn [negb andb]. rewrite andb_false_r.
      destruct (List.find _ (columns meta)); [|done].
      intros [= _ H]; try discriminate H.
    + intros [= _ H]. revert E. unfold ensureEntityMeta.
      destruct (byCtor reg !! ctor_id c); [done|].
      destruct (String.eqb (ctor_name c) EmptyString).
      { intros [= _ <-]; try discriminate H. }
      destruct (match Map_get (byTable reg) (ctor_name c) with Some _ => _ | None => _ end);
        [|done].
      intros [= _ <-]; try discriminate H.
  - intros ->.
    destruct (addColumn_Return_column_of reg reg' c key opts' Hadd) as (previous & Hcol).
    assert (Hreach' : reachable reg').
    { replace reg' with (fst (run_op (OpAddColumn (Some c) key opts') reg)).
      - by apply reachable_step.
      - cbn [run_op]. by rewrite Hadd. }
    split.
    + eexists. split; [exact Hcol|]. done.
    + intros col Hin Hp. unfold declared_columns, getEntityMeta in *.
      destruct (byCtor reg' !! ctor_id c) as [m|] eqn:Em; [|done].
      destruct (reachable_ok reg' Hreach' _ _ Em) as [_ Hsame].
      unfold column_of in Hcol. apply find_some in Hcol as [Hin' Hk].
      rewrite (Hsame col _ Hin Hin' Hp eq_refl). done.
Qed.

Lemma primaryColumn_registers_the_primary_witness :
  exists reg',
    Decorators.primaryColumn (mkOptions None (Some true)) (Some User) "id" empty_registry
    = (reg', Return tt) /\
    exists col, column_of "id" (declared_columns User reg') = Some col /\
                is_primary col = true.
Proof.
  eexists. split; [reflexivity|].
  destruct (primaryColumn_registers_the_primary empty_registry _ User "id"
              (mkOptions None (Some true)) (Return tt) reachable_init eq_refl)
    as [_ H].
  destruct (H eq_refl) as [Hcol _]. exact Hcol.
Defined.

Section DatabaseInit.

Variable localeCompare : string -> string -> Z.
Variable JSON_parse : string -> option jsvalue.
Variable ToPrimitive : jsvalue -> outcome jsvalue.
Variable version_stores : jsvalue -> list (string * string) -> outcome unit.
Variable open : string -> list (jsvalue * list (string * string)) -> outcome unit.

(** A schema that was built holds a definition for every entity. *)
Lemma buildSchema_Return_entities reg schema meta :
  buildSchema localeCompare reg = Return schema -> In meta (getAllEntities reg) ->
  exists s, buildTableSchema meta reg = Return s.
Proof.
  unfold buildSchema.
  set (cmp := fun a b : EntityMeta => localeCompare (tableName a) (tableName b)).
  intros Hbuild Hin.
  destruct (buildSchema_fold_throws reg (js_sort cmp (getAllEntities reg)) []) as [_ H2].
  destruct (buildTableSchema meta reg) as [s|e] eqn:Es; [by exists s|].
  destruct (H2 meta e) as [e' He']; [|done|congruence].
  apply list_elem_of_In. rewrite (js_sort_Permutation cmp). by apply list_elem_of_In.
Qed.



(** X30: after a first call of [init] has returned on a registry that
    calls can produce, [tableFor] throws for a class that is not
    registered and, for a registered class, asks for the table of the
    name in its descriptor, for which the schema declared last holds the
    definition of the class, unless the name is [__proto__]. *)
Theorem tableFor_asks_for_a_declared_table (db db' : Database.Database)
    (reg reg' : Registry) (host host' : Host) (c : Ctor) :
  reachable reg -> Database.initialized db = false ->
  Database.init localeCompare JSON_parse ToPrimitive version_stores open db reg host
  = ((db', reg', host'), Return tt) ->
  match getEntityMeta c reg' with
  | None => Database.tableFor c reg' = Throw ("Entity not registered: " +:+ ctor_name c)
  | Some meta =>
      Database.tableFor c reg' = Return (tableName meta) /\
      exists version schema s,
        last (Database.versions db') = Some (version, schema) /\
        buildTableSchema meta reg = Return s /\
        (tableName meta <> "__proto__" -> Map_get schema (tableName meta) = Some s)
  end.
Proof.
  intros Hreach Hinit. unfold Database.init. rewrite Hinit.
  destruct (buildSchema localeCompare reg) as [schema|e] eqn:Eb; [|done].
  destruct (getVersion localeCompare JSON_parse ToPrimitive host (Database.name db) schema)
    as [host1 [version|e]] eqn:Ev; [|done].
  destruct (version_stores version schema) as [u|e]; [|done].
  destruct (open _ _) as [u'|e]; [|done]. intros [= <- <- <-].
  unfold Database.tableFor, getEntityMeta. cbn [sealRegistry byCtor].
  destruct (byCtor reg !! ctor_id c) as [meta|] eqn:Em; [|done].
  pose proof (reachable_agree reg Hreach) as Hagree.
  destruct Hagree as (Hnd & Htable & Hmeta).
  destruct (Hmeta _ _ Em) as [Htarget Hne].
  apply String.eqb_neq in Hne. rewrite Hne. split; [done|].
  assert (Hagree : indexes_agree reg) by done.
  assert (Hby : getEntityMetaByTable (tableName meta) reg = Some meta).
  { apply agree_by_table; [done|]. by rewrite Htarget. }
  assert (Hin : In meta (getAllEntities reg)).
  { apply getAllEntities_agree; [done|]. by rewrite Htarget. }
  destruct (buildSchema_Return_entities reg schema meta Eb Hin) as [s Hs].
  exists version, schema, s. cbn [Database.versions].
  split; [by rewrite last_snoc|]. split; [done|].
  intros Hproto. rewrite (buildSchema_lookup localeCompare reg schema _ Hagree Eb), Hby, Hs.
  apply String.eqb_neq in Hproto. by rewrite Hproto.
Qed.

End DatabaseInit.


Lemma tableFor_asks_for_a_declared_table_witness :
  Database.tableFor Admin (sealRegistry registry_with_admin) = Return "Admin".
Proof.
  assert (Hreach : reachable registry_with_admin).
  { apply run_ops_reachable, reachable_init. }
  pose proof (tableFor_asks_for_a_declared_table codeunit_collation JSON_parse_record
                ToPrimitive_plain accepts_declaration opens
                (Database.create (Some "app")) _ registry_with_admin _ browser _ Admin
                Hreach eq_refl eq_refl) as H.
  cbn [getEntityMeta] in H.
  change (getEntityMeta Admin (sealRegistry registry_with_admin))
    with (Some (mkMeta Admin "Admin"
                  [mkColumn "id" (auto_options true); mkColumn "name" no_options])) in H.
  destruct H as [Htable _]. exact Htable.
Defined.
